(** * goutils: generic collection helpers, the GitLab cleanup scripts and
    the config-sort linter, embedded in Rocq.

    Go values are modelled as follows.
    - [int] and timestamps are [Z]; strings are [string] (bytes as [ascii]);
      slices are [list]; [map[K]V] is stdpp's [gmap K V].
    - A Go function that talks to GitLab, JIRA, Slack or stdout is a
      computation in the monad [M]: it produces the list of events it
      performed together with its outcome.
    - The external services are a record [World] of response functions. *)

From Stdlib Require Import ZArith List Ascii String Bool Lia.
From Stdlib Require DecimalString.
From stdpp Require Import gmap strings list fin_maps.

Local Open Scope Z_scope.

(* ===================================================================== *)
(** * Package maths *)
(* ===================================================================== *)

(** [constraints.Ordered]: the types that support [<].  Integers and strings
    are totally ordered; IEEE floats are only a strict partial order (NaN is
    incomparable), so the interface asks for no more than that. *)
Class Ordered (T : Type) := {
  zero : T;                      (* [var zero T] *)
  lt : T → T → bool;             (* [a < b] *)
  lt_irrefl : ∀ a, lt a a = false;
  lt_trans : ∀ a b c, lt a b = true → lt b c = true → lt a c = true
}.

(** The ordered types whose order is total: the integers and the strings.
    They also have [<=] and [>=], which are the negations of [>] and [<];
    floats are left out, a NaN being neither below nor above anything. *)
Class TotallyOrdered (T : Type) `{Ordered T} := {
  leq : T → T → bool;            (* [a <= b] *)
  leq_not_gt : ∀ a b, leq a b = negb (lt b a);
  lt_total : ∀ a b, lt a b = false → lt b a = false → a = b
}.

Definition geq {T} `{TotallyOrdered T} (a b : T) : bool := leq b a.   (* [a >= b] *)

Module Maths.

Definition Min {T} `{Ordered T} (a b : T) : T := if lt a b then a else b.

Definition Max {T} `{Ordered T} (a b : T) : T := if lt b a then a else b.

Definition LessThan {T} `{Ordered T} (a b : T) : bool := lt a b.

Definition GreaterThan {T} `{Ordered T} (a b : T) : bool := lt b a.

Definition IsWithinRange {T} `{TotallyOrdered T} (val lowerBound upperBound : T) : bool :=
  geq val lowerBound && leq val upperBound.

End Maths.

#[export] Program Instance Ordered_Z : Ordered Z :=
  {| zero := 0; lt := Z.ltb |}.
Next Obligation. intros a. apply Z.ltb_irrefl. Qed.
Next Obligation. intros a b c H1 H2. apply Z.ltb_lt in H1, H2. apply Z.ltb_lt. lia. Qed.

(** Strings compare byte by byte, lexicographically. *)
Lemma ascii_compare_lt_trans (a b c : ascii) :
  Ascii.compare a b = Lt → Ascii.compare b c = Lt → Ascii.compare a c = Lt.
Proof. unfold Ascii.compare. rewrite !N.compare_lt_iff. lia. Qed.

Lemma ascii_compare_refl (a : ascii) : Ascii.compare a a = Eq.
Proof. unfold Ascii.compare. apply N.compare_refl. Qed.

Lemma string_compare_refl (s : string) : String.compare s s = Eq.
Proof. induction s as [|a s IH]; simpl; [done|]. by rewrite ascii_compare_refl. Qed.

Lemma string_compare_lt_trans (s1 s2 s3 : string) :
  String.compare s1 s2 = Lt → String.compare s2 s3 = Lt → String.compare s1 s3 = Lt.
Proof.
  revert s2 s3. induction s1 as [|a s1 IH]; intros [|b s2] [|c s3]; simpl; try done.
  destruct (Ascii.compare a b) eqn:Hab; try done.
  - apply Ascii.compare_eq_iff in Hab as ->.
    destruct (Ascii.compare b c); try done. apply IH.
  - destruct (Ascii.compare b c) eqn:Hbc; try done.
    + apply Ascii.compare_eq_iff in Hbc as ->. by rewrite Hab.
    + by rewrite (ascii_compare_lt_trans a b c).
Qed.

#[export] Program Instance Ordered_string : Ordered string :=
  {| zero := EmptyString; lt := String.ltb |}.
Next Obligation. intros a. unfold String.ltb. by rewrite string_compare_refl. Qed.
Next Obligation.
  intros a b c. unfold String.ltb.
  destruct (String.compare a b) eqn:Hab; try done.
  destruct (String.compare b c) eqn:Hbc; try done.
  by rewrite (string_compare_lt_trans a b c).
Qed.

#[export] Program Instance TotallyOrdered_Z : TotallyOrdered Z :=
  {| leq := Z.leb |}.
Next Obligation. intros a b. cbn. destruct (Z.leb_spec a b), (Z.ltb_spec b a); simpl; try done; lia. Qed.
Next Obligation. intros a b. cbn. rewrite !Z.ltb_ge. lia. Qed.

#[export] Program Instance TotallyOrdered_string : TotallyOrdered string :=
  {| leq := String.leb |}.
Next Obligation.
  intros a b. cbn. unfold String.leb, String.ltb. rewrite (String.compare_antisym a b).
  by destruct (String.compare b a).
Qed.
Next Obligation.
  intros a b. cbn. unfold String.ltb. rewrite (String.compare_antisym a b).
  destruct (String.compare b a) eqn:Hba; try done. intros _ _.
  symmetry. by apply String.compare_eq_iff.
Qed.

(* ===================================================================== *)
(** * Package maps *)
(* ===================================================================== *)

Module Maps.

(** [for k, v := range m { result[k] = v }] starting from [result]. *)
Definition range_assign `{Countable K} {V} (m result : gmap K V) : gmap K V :=
  map_fold (λ k v result, <[k:=v]> result) result m.

Definition Merge `{Countable K} {V} (m1 m2 : gmap K V) : gmap K V :=
  let result := (∅ : gmap K V) in
  let result := range_assign m2 result in
  let result := range_assign m1 result in
  result.

(** Go leaves the order in which [range m] yields the entries of a map
    unspecified.  Where a loop over a map is sensitive to it, the function
    takes the sequence of entries the loop is given, [order], in place of
    the map; [visits order m] says that it is one of the orders in which
    the entries of [m] can come. *)
Definition visits `{Countable K} {V} (order : list (K * V)) (m : gmap K V) : Prop :=
  order ≡ₚ map_to_list m.

(** The loop of [Equal] over the entries of [a]. *)
Fixpoint Equal_range `{Countable K} {V} `{EqDecision V}
         (order : list (K * V)) (b : gmap K V) : bool :=
  match order with
  | [] => true
  | (k, v) :: rest =>
      match b !! k with
      | Some w => if bool_decide (v = w) then Equal_range rest b else false
      | None => false
      end
  end.

Definition Equal `{Countable K} {V} `{EqDecision V}
           (order : list (K * V)) (a b : gmap K V) : bool :=
  if negb (size a =? size b)%nat then false
  else Equal_range order b.

Definition Copy `{Countable K} {V} (m : gmap K V) : gmap K V :=
  let result := (∅ : gmap K V) in
  range_assign m result.

(** Map maps each key-value pair of the original map to a new key-value
    pair of a new map. *)
Definition Map `{Countable K1} `{Countable K2} {V1 V2}
           (order : list (K1 * V1)) (fn : K1 → V1 → K2 * V2) : gmap K2 V2 :=
  fold_left (λ result '(k1, v1), let '(k2, v2) := fn k1 v1 in <[k2:=v2]> result)
            order (∅ : gmap K2 V2).

Definition ToSlice {K V T} (order : list (K * V)) (fn : K → V → T) : list T :=
  fold_left (λ result '(k, v), result ++ [fn k v]) order [].

Definition Keys {K V} (order : list (K * V)) : list K :=
  ToSlice order (λ k _, k).

Definition Values {K V} (order : list (K * V)) : list V :=
  ToSlice order (λ _ v, v).

End Maps.

(* ===================================================================== *)
(** * Package slices *)
(* ===================================================================== *)

Module Slices.

Definition extremum {T} `{Ordered T} (items : list T) (predicate : T → T → bool) : T :=
  match items with
  | [] => zero
  | item0 :: _ =>
      fold_left (λ result item, if predicate item result then item else result)
                items item0
  end.

Definition Max {T} `{Ordered T} (items : list T) : T :=
  extremum items Maths.GreaterThan.

Definition Min {T} `{Ordered T} (items : list T) : T :=
  extremum items Maths.LessThan.

(** Contains verifies if a slice contains the target element. *)
Fixpoint Contains {T} `{EqDecision T} (items : list T) (target : T) : bool :=
  match items with
  | [] => false
  | v :: rest => if bool_decide (v = target) then true else Contains rest target
  end.

(** Filter keeps all items that meet predicate from the slice. *)
Definition Filter {T} (items : list T) (predicate : T → bool) : list T :=
  fold_left (λ result item, if predicate item then result ++ [item] else result)
            items [].

(** NonZeroValues returns a new slice with only non-zero values by
    preserving the original order; [zero] is the zero value of [T]. *)
Definition NonZeroValues {T} `{EqDecision T} (zero : T) (items : list T) : list T :=
  Filter items (λ item, negb (bool_decide (item = zero))).

(** Unique returns a new slice with only unique values.  The ordering is
    preserved. *)
Definition Unique {T} `{Countable T} (items : list T) : list T :=
  let seen := (∅ : gset T) in
  let result := [] in
  snd (fold_left
         (λ '(seen, result) item,
            if bool_decide (item ∈ seen) then (seen, result)
            else ({[item]} ∪ seen, result ++ [item]))
         items (seen, result)).

Definition Map {T1 T2} (items : list T1) (fn : T1 → T2) : list T2 :=
  fold_left (λ result item, result ++ [fn item]) items [].

(** Any checks if a slice contains any element that meets predicate. *)
Fixpoint Any {T} (items : list T) (predicate : T → bool) : bool :=
  match items with
  | [] => false
  | item :: rest => if predicate item then true else Any rest predicate
  end.

(** Repeat creates a slice from a value that is inserted N times.
    [make([]T, 0, times)] panics when the capacity is negative or beyond
    [maxCap], the largest capacity that can be allocated for [T]; a panic
    is [None]. *)
Definition Repeat {T} (maxCap : Z) (value : T) (times : Z) : option (list T) :=
  if (times <? 0) || (maxCap <? times) then None
  else Some (fold_left (λ result _, result ++ [value]) (seqZ 0 times) []).

(** GroupBy groups the elements of a slice by the chosen keys. *)
Definition GroupBy {T} `{Countable K} (items : list T) (fn : T → K) : gmap K (list T) :=
  fold_left
    (λ result item,
       let key := fn item in
       <[key := default [] (result !! key) ++ [item]]> result)
    items (∅ : gmap K (list T)).

(** ToMap returns a map with the key-value pair generated from each slice
    element. *)
Definition ToMap {T} `{Countable K} {V} (items : list T) (fn : T → K * V) : gmap K V :=
  fold_left (λ result item, let '(k, v) := fn item in <[k:=v]> result)
            items (∅ : gmap K V).

(** Reduce reduces a slice to a value by running each element through an
    accumulator function. *)
Definition Reduce {T R} (items : list T) (initial : R) (accumulator : R → T → R) : R :=
  fold_left accumulator items initial.

(** The capacity [Flatten] allocates. *)
Definition Flatten_count {T} (items : list (list T)) : Z :=
  fold_left (λ count item, count + Z.of_nat (length item)) items 0.

(** Flatten returns an array a single level deep. *)
Definition Flatten {T} (items : list (list T)) : list T :=
  fold_left (λ result item, result ++ item) items [].

End Slices.

(* ===================================================================== *)
(** * Package types *)
(* ===================================================================== *)

Module Types.

Definition ToStringFromBool (b : bool) : string :=
  if b then "true"%string else "false"%string.

Definition ToIntFromBool (b : bool) : Z := if b then 1 else 0.

Definition ToBoolFromInt (i : Z) : bool := 0 <? i.

End Types.

(* ===================================================================== *)
(** * Standard-library pieces the scripts rely on *)
(* ===================================================================== *)

(** ** package time (UTC)

    A [time.Time] is the number of nanoseconds since the Unix epoch; the
    location is UTC throughout. *)
Module GoTime.

Definition Time := Z.

Definition nsPerDay : Z := 86400 * 1000000000.

Definition Before (t u : Time) : bool := t <? u.

Definition isLeap (year : Z) : bool :=
  (year mod 4 =? 0) && (negb (year mod 100 =? 0) || (year mod 400 =? 0)).

(** [daysBefore[m]]: days in a non-leap year before month [m+1]. *)
Definition daysBefore (m : Z) : Z :=
  nth (Z.to_nat m) [0; 31; 59; 90; 120; 151; 181; 212; 243; 273; 304; 334; 365] 0.

(** Days from 1970-01-01 to January 1st of [year]. *)
Definition daysSinceEpoch (year : Z) : Z :=
  let y := year - 1 in
  365 * (year - 1970) + (y / 4 - y / 100 + y / 400) - 477.

(** [time.Date(year, month, day, ...)] restricted to the date part: the
    month is normalised into 1..12 (carrying into the year), the day may
    overflow into the following months. *)
Definition dateToDays (year month day : Z) : Z :=
  let m := month - 1 in
  let year := year + m / 12 in
  let m := m mod 12 in
  let d := daysSinceEpoch year + daysBefore m in
  let d := if isLeap year && (2 <=? m) then d + 1 else d in
  d + (day - 1).

(** [t.Date()]: the civil date of a day count. *)
Definition daysToDate (days : Z) : Z * Z * Z :=
  let z := days + 719468 in
  let era := z / 146097 in
  let doe := z - era * 146097 in
  let yoe := (doe - doe / 1460 + doe / 36524 - doe / 146096) / 365 in
  let doy := doe - (365 * yoe + yoe / 4 - yoe / 100) in
  let mp := (5 * doy + 2) / 153 in
  let d := doy - (153 * mp + 2) / 5 + 1 in
  let m := if mp <? 10 then mp + 3 else mp - 9 in
  let y := yoe + era * 400 + (if m <=? 2 then 1 else 0) in
  (y, m, d).

Definition AddDate (t : Time) (years months days : Z) : Time :=
  let '(year, month, day) := daysToDate (t / nsPerDay) in
  dateToDays (year + years) (month + months) (day + days) * nsPerDay
  + t mod nsPerDay.

(** Midnight UTC of a civil date, for writing timestamps down. *)
Definition Date (year month day : Z) : Time := dateToDays year month day * nsPerDay.

End GoTime.
Export GoTime.

(** ** package strconv / fmt *)

(** [strconv.FormatInt(i, 10)] and the [%d] verb. *)
Definition FormatInt (i : Z) : string :=
  DecimalString.NilZero.string_of_int (Z.to_int i).

(** [strings.Join]. *)
Definition Join (elems : list string) (sep : string) : string :=
  String.concat sep elems.

(** ** package regexp

    The patterns of this repository use no alternation and only repeat
    character classes, so a pattern is a sequence of nodes.  Matching is the
    leftmost-first (backtracking) semantics that Go's regexp package
    guarantees for submatches; repetition is greedy.  Strings are matched
    byte by byte: every byte the pattern treats specially is ASCII. *)
Module Regexp.

Inductive node :=
| Class (p : ascii → bool)     (* one byte of a class; a literal is a one-byte class *)
| Star (p : ascii → bool)      (* [p*] *)
| Plus (p : ascii → bool)      (* [p+] *)
| Open (i : nat)               (* opening parenthesis of group [i] *)
| Close (i : nat)              (* closing parenthesis of group [i] *)
| Bol                          (* [^]: beginning of the text *)
| Eol.                         (* [$]: end of the text *)

Definition Regexp := list node.

(** Positions of the groups closed so far: group, start, end. *)
Definition captures := list (nat * (nat * nat)).

Section Star.
Context {R : Type} (p : ascii → bool) (k : list ascii → nat → option R).

(** Greedy repetition: take one more byte if possible, and fall back to
    the rest of the pattern [k] when the longer attempt fails. *)
Fixpoint star_then (s : list ascii) (pos : nat) : option R :=
  match s with
  | c :: s' =>
      if p c then
        match star_then s' (S pos) with
        | Some r => Some r
        | None => k s pos
        end
      else k s pos
  | [] => k [] pos
  end.
End Star.

Definition start_of (i : nat) (opens : list (nat * nat)) : nat :=
  match find (λ o, Nat.eqb (fst o) i) opens with
  | Some o => snd o
  | None => 0%nat
  end.

(** Match the pattern at the beginning of [s], which sits at offset
    [pos] of the searched string; returns the end offset and the groups. *)
Fixpoint matchHere (re : Regexp) (s : list ascii) (pos : nat)
         (opens : list (nat * nat)) (caps : captures) : option (nat * captures) :=
  match re with
  | [] => Some (pos, caps)
  | Class p :: re' =>
      match s with
      | c :: s' => if p c then matchHere re' s' (S pos) opens caps else None
      | [] => None
      end
  | Star p :: re' =>
      star_then p (λ s pos, matchHere re' s pos opens caps) s pos
  | Plus p :: re' =>
      match s with
      | c :: s' =>
          if p c
          then star_then p (λ s pos, matchHere re' s pos opens caps) s' (S pos)
          else None
      | [] => None
      end
  | Open i :: re' => matchHere re' s pos ((i, pos) :: opens) caps
  | Close i :: re' => matchHere re' s pos opens ((i, (start_of i opens, pos)) :: caps)
  | Bol :: re' => if Nat.eqb pos 0 then matchHere re' s pos opens caps else None
  | Eol :: re' =>
      match s with
      | [] => matchHere re' s pos opens caps
      | _ :: _ => None
      end
  end.

(** Leftmost match: try every start offset in turn. *)
Fixpoint findFrom (re : Regexp) (s : list ascii) (pos : nat)
  : option (nat * (nat * captures)) :=
  match matchHere re s pos [] [] with
  | Some r => Some (pos, r)
  | None =>
      match s with
      | [] => None
      | _ :: s' => findFrom re s' (S pos)
      end
  end.

Definition NumSubexp (re : Regexp) : nat :=
  length (List.filter (λ n, match n with Open _ => true | _ => false end) re).

Definition slice (s : list ascii) (lo hi : nat) : list ascii :=
  firstn (hi - lo) (skipn lo s).

Definition group (s : list ascii) (caps : captures) (i : nat) : string :=
  match find (λ c, Nat.eqb (fst c) i) caps with
  | Some (_, (lo, hi)) => string_of_list_ascii (slice s lo hi)
  | None => EmptyString
  end.

(** [re.FindStringSubmatch(s)]: [nil] when there is no match, otherwise
    the whole match followed by one string per group. *)
Definition FindStringSubmatch (re : Regexp) (s : string) : list string :=
  let bytes := list_ascii_of_string s in
  match findFrom re bytes 0 with
  | None => []
  | Some (lo, (hi, caps)) =>
      string_of_list_ascii (slice bytes lo hi)
        :: map (group bytes caps) (seq 1 (NumSubexp re))
  end.

(** [re.MatchString(s)] *)
Definition MatchString (re : Regexp) (s : string) : bool :=
  match findFrom re (list_ascii_of_string s) 0 with
  | Some _ => true
  | None => false
  end.

(** Character classes. *)
Definition byte_in (lo hi : ascii) (c : ascii) : bool :=
  (N_of_ascii lo <=? N_of_ascii c)%N && (N_of_ascii c <=? N_of_ascii hi)%N.

Definition lit (a : ascii) (c : ascii) : bool := Ascii.eqb c a.

(** [.]: any byte but a newline. *)
Definition dot (c : ascii) : bool := negb (Ascii.eqb c "010"%char).

(** [\s]: tab, newline, form feed, carriage return, space. *)
Definition space (c : ascii) : bool :=
  Ascii.eqb c "009"%char || Ascii.eqb c "010"%char || Ascii.eqb c "012"%char
  || Ascii.eqb c "013"%char || Ascii.eqb c " "%char.

(** [[A-Z0-9]] *)
Definition upper_alnum (c : ascii) : bool :=
  byte_in "A" "Z" c || byte_in "0" "9" c.

(** [[0-9]] *)
Definition digit (c : ascii) : bool := byte_in "0" "9" c.

End Regexp.

(* ===================================================================== *)
(** * Title parsing (shared by both cleanup scripts) *)
(* ===================================================================== *)

(** The pattern given to [regexp.MustCompile], node by node: group 1 is
    any run of non-newline bytes; then optional white space; an opening
    bracket; group 2 is a run of [A-Z0-9], a dash and a run of [0-9]; a
    closing bracket.  Nothing anchors the pattern to the end of the title. *)
Definition mrTitleRegex : Regexp.Regexp :=
  [ Regexp.Open 1; Regexp.Star Regexp.dot; Regexp.Close 1;
    Regexp.Star Regexp.space;
    Regexp.Class (Regexp.lit "[");
    Regexp.Open 2;
    Regexp.Plus Regexp.upper_alnum; Regexp.Class (Regexp.lit "-"); Regexp.Plus Regexp.digit;
    Regexp.Close 2;
    Regexp.Class (Regexp.lit "]") ]%char.

(** Extracts the title and the JIRA issue. *)
Definition parseMRTitle (title : string) : string * string :=
  let matches := Regexp.FindStringSubmatch mrTitleRegex title in
  if negb (length matches =? 3)%nat then (title, ""%string)
  else
    let m1 := nth 1 matches ""%string in
    let m2 := nth 2 matches ""%string in
    (m1, ("[<https://jira.YOURDOMAIN.com/browse/" ++ m2 ++ "|" ++ m2 ++ ">]")%string).

(** Assumes that MR title has the following format "Title [ISSUE-1234]". *)
Definition getJiraIssueID (title : string) : string :=
  let matches := Regexp.FindStringSubmatch mrTitleRegex title in
  if (length matches =? 3)%nat then nth 2 matches ""%string else ""%string.

(* ===================================================================== *)
(** * The outside world: GitLab, JIRA, Slack, stdout *)
(* ===================================================================== *)

Definition nl : string := String "010"%char EmptyString.

(** [pid interface{}] of go-gitlab: an int in the first script, a string in
    the second. *)
Inductive ProjectID := PidInt (n : Z) | PidString (s : string).

Record ListOptions := { Page : Z; PerPage : Z }.

Record ListProjectMergeRequestsOptions :=
  { State : string; MRListOptions : ListOptions }.

Record UpdateMergeRequestOptions := { StateEvent : string }.

(** What the scripts read of an HTTP response. *)
Record Response :=
  { StatusCode : Z; Status : string; Body : string; NextPage : Z }.

Record MergeRequest :=
  { IID : Z; Title : string; AuthorUsername : string; UpdatedAt : Time;
    WebURL : string }.

Record Branch :=
  { Name : string; Protected : bool; CommittedDate : Time }.

(** [issue, resp, err := jiraClient.Issue.Get(id, nil)]: on an error the
    response may be nil; without one the scripts read the status name. *)
Inductive JiraReply :=
| JiraError (resp : option Response) (err : string)
| JiraIssue (statusName : string).

(** A section block of a Slack message, as its markdown text. *)
Definition Block := string.

(** The external calls and the writes to stdout, in the order performed. *)
Inductive Event :=
| ListProjectMergeRequests (pid : ProjectID) (opt : ListProjectMergeRequestsOptions)
| ListBranches (pid : ProjectID) (opt : ListOptions)
| DeleteBranch (pid : ProjectID) (branch : string)
| UpdateMergeRequest (pid : ProjectID) (iid : Z) (opt : UpdateMergeRequestOptions)
| IssueGet (issueID : string)
| GetUserByEmail (email : string)
| InviteUsersToConversation (channelID : string) (users : list string)
| PostMessage (channelID : string) (blocks : list Block)
| Print (text : string).

(** The services answer as functions of the request: within one run the
    same request gets the same answer.  A client error is [inl err]. *)
Record World := {
  timeNow : nat → Time;   (* the n-th reading of [time.Now()] in a run *)
  gitlabListProjectMergeRequests :
    ProjectID → ListProjectMergeRequestsOptions → string + (list MergeRequest * Response);
  gitlabListBranches : ProjectID → ListOptions → string + (list Branch * Response);
  gitlabDeleteBranch : ProjectID → string → string + Response;
  gitlabUpdateMergeRequest :
    ProjectID → Z → UpdateMergeRequestOptions → string + Response;
  jiraIssueGet : string → JiraReply;
  slackGetUserByEmail : string → string + string;
  slackInviteUsersToConversation : string → list string → option string;
  slackPostMessage : string → list Block → option string
}.

(** How a Go function call ends. *)
Inductive Outcome (A : Type) :=
| Returned (a : A)          (* returned with a nil error *)
| Failed (err : string)     (* returned a non-nil error *)
| Exited (code : Z)         (* [os.Exit] *)
| Diverged.                 (* a [for] loop that was still running when the fuel ran out *)
Arguments Returned {A} a.
Arguments Failed {A} err.
Arguments Exited {A} code.
Arguments Diverged {A}.

(** A computation: the events it performed and how it ended. *)
Definition M (A : Type) : Type := list Event * Outcome A.

Definition trace {A} (m : M A) : list Event := fst m.
Definition outcome {A} (m : M A) : Outcome A := snd m.

#[export] Instance M_ret : MRet M := λ A a, ([], Returned a).

#[export] Instance M_bind : MBind M := λ A B f m,
  match m with
  | (t, Returned a) => let '(t', o) := f a in (t ++ t', o)
  | (t, Failed err) => (t, Failed err)
  | (t, Exited code) => (t, Exited code)
  | (t, Diverged) => (t, Diverged)
  end.

Definition emit (e : Event) : M unit := ([e], Returned tt).

Definition fail {A} (err : string) : M A := ([], Failed err).

Definition diverge {A} : M A := ([], Diverged).

(** [fmt.Printf] / [fmt.Println] *)
Definition Printf (text : string) : M unit := emit (Print text).

(** [x, err := f(); if err != nil { handler(err) }] *)
Definition try {A} (m : M A) (handler : string → M A) : M A :=
  match m with
  | (t, Failed err) => let '(t', o) := handler err in (t ++ t', o)
  | _ => m
  end.

Definition outputErrorAndExit {A} (err : string) : M A :=
  ([Print (err ++ nl)], Exited 1).

Section Calls.
Context (w : World).

Definition callListProjectMergeRequests pid opt :=
  emit (ListProjectMergeRequests pid opt);; mret (gitlabListProjectMergeRequests w pid opt).

Definition callListBranches pid opt :=
  emit (ListBranches pid opt);; mret (gitlabListBranches w pid opt).

Definition callDeleteBranch pid name :=
  emit (DeleteBranch pid name);; mret (gitlabDeleteBranch w pid name).

Definition callUpdateMergeRequest pid iid opt :=
  emit (UpdateMergeRequest pid iid opt);; mret (gitlabUpdateMergeRequest w pid iid opt).

Definition callIssueGet id :=
  emit (IssueGet id);; mret (jiraIssueGet w id).

Definition callGetUserByEmail email :=
  emit (GetUserByEmail email);; mret (slackGetUserByEmail w email).

Definition callInviteUsersToConversation channel users :=
  emit (InviteUsersToConversation channel users);;
  mret (slackInviteUsersToConversation w channel users).

Definition callPostMessage channel blocks :=
  emit (PostMessage channel blocks);; mret (slackPostMessage w channel blocks).
End Calls.

(** [strconv.ParseBool] with its error dropped, as in [isDryRun, _ = ...]. *)
Definition ParseBool (s : string) : bool :=
  bool_decide (s ∈ ["1"; "t"; "T"; "TRUE"; "true"; "True"]%string).

Definition lenZ {A} (l : list A) : Z := Z.of_nat (length l).

Local Open Scope string_scope.
Local Open Scope list_scope.
Local Open Scope Z_scope.

(** [fmt.Sprintf] with the verbs already rendered: the pieces in order. *)
Definition Sprintf (parts : list string) : string := String.concat "" parts.

(* ===================================================================== *)
(** * Functions that are the same in both cleanup scripts *)
(* ===================================================================== *)

Definition extractMergeRequestIIDs (mrs : list MergeRequest) : string :=
  let iids := fold_left (λ iids mr, iids ++ [FormatInt (IID mr)]) mrs [] in
  Join iids ",".

Section SharedStages.
Context (w : World).

(** One of the two loops of [getSlackUserIDsFromGitLabUserIDs]. *)
Fixpoint lookupSlackUsers (mrs : list MergeRequest)
         (slackUserIDByGitLabUserID : gmap string string) : M (gmap string string) :=
  match mrs with
  | [] => mret slackUserIDByGitLabUserID
  | mr :: rest =>
      let email := Sprintf [AuthorUsername mr; "@YOURDOMAIN.com"] in
      r ← callGetUserByEmail w email;
      match r with
      | inl err =>
          Printf (Sprintf ["slack - error looking up user id associated to email ";
                           email; ": "; err; nl]);;
          Printf (Sprintf ["continuing..."; nl]);;
          lookupSlackUsers rest slackUserIDByGitLabUserID
      | inr slackUserID =>
          lookupSlackUsers rest
            (<[AuthorUsername mr := slackUserID]> slackUserIDByGitLabUserID)
      end
  end.

Definition getSlackUserIDsFromGitLabUserIDs (staleMRs expiredMRs : list MergeRequest)
  : M (gmap string string) :=
  let slackUserIDByGitLabUserID := (∅ : gmap string string) in
  slackUserIDByGitLabUserID ← lookupSlackUsers staleMRs slackUserIDByGitLabUserID;
  slackUserIDByGitLabUserID ← lookupSlackUsers expiredMRs slackUserIDByGitLabUserID;
  mret slackUserIDByGitLabUserID.

(** The second script passes the channel as an argument, the first one
    reads the constant [slackChannelID]; otherwise the text is the same. *)
Definition inviteUsersToSlackChannel (slackUserIDByGitLabUserID : gmap string string)
           (slackChannelID : string) (isDryRun : bool) : M unit :=
  let slackUserIDs := (map_to_list slackUserIDByGitLabUserID).*2 in
  if isDryRun then mret tt
  else
    r ← callInviteUsersToConversation w slackChannelID slackUserIDs;
    match r with
    | Some err =>
        Printf (Sprintf ["slack - error inviting user IDs <"; Join slackUserIDs ",";
                         "> to channel <"; slackChannelID; ">: "; err; nl]);;
        Printf (Sprintf ["continuing..."; nl])
    | None => mret tt
    end.

Definition getSlackUserID (slackUserIDByGitLabUserID : gmap string string)
           (mr : MergeRequest) : string :=
  match slackUserIDByGitLabUserID !! AuthorUsername mr with
  | Some slackUserID => slackUserID
  | None => "Unknown"
  end.

Definition messageLines (icon : string) (mrs : list MergeRequest)
           (slackUserIDByGitLabUserID : gmap string string) : string :=
  fold_left
    (λ text mr,
       let '(title, jiraURL) := parseMRTitle (Title mr) in
       let slackUserID := getSlackUserID slackUserIDByGitLabUserID mr in
       Sprintf [text; icon; " <"; WebURL mr; "|!"; FormatInt (IID mr); " "; title; "> ";
                jiraURL; " - <@"; slackUserID; ">"; nl])
    mrs "".

Definition buildAndPostSlackMessage (staleMRs expiredMRs : list MergeRequest)
           (slackUserIDByGitLabUserID : gmap string string)
           (slackChannelID : string) (isDryRun : bool) : M unit :=
  let blocks : list Block := [] in
  let blocks :=
    if (0 <? length staleMRs)%nat then
      blocks
        ++ [Sprintf ["*Stale MRs (more than 2 months old without any updates):*"; nl;
                     "These MRs will be automatically closed in 1 month if they aren't updated"]]
        ++ [messageLines ":alarm_clock:" staleMRs slackUserIDByGitLabUserID]
    else blocks in
  let blocks :=
    if (0 <? length expiredMRs)%nat then
      blocks
        ++ ["*MRs that have been closed (due to staleness or the associated JIRA issue being closed):*"]
        ++ [messageLines ":x:" expiredMRs slackUserIDByGitLabUserID]
    else blocks in
  if isDryRun then mret tt
  else
    r ← callPostMessage w slackChannelID blocks;
    match r with
    | Some err =>
        fail (Sprintf ["slack - error posting message to channel <"; slackChannelID;
                       ">: "; err])
    | None => mret tt
    end.

End SharedStages.

(* ===================================================================== *)
(** * Second script: stale branches and merge requests, with pagination *)
(* ===================================================================== *)

Module BranchCleanup.

Definition maxPerPage : Z := 100.

Record Args := {
  gitLabToken : string; gitLabProjectID : string; slackToken : string;
  slackChannelID : string; jiraToken : string; isDryRun : bool }.

Definition parseArgs (args : list string) : M Args :=
  if (length args <? 6)%nat then
    fail "missing args. Usage: [gitlab token] [gitlab project id] [slack token] [slack channel id] [jira token] [dryrun]"
  else
    let isDryRun := false in
    let isDryRun :=
      if (length args =? 7)%nat then ParseBool (nth 6 args "") else isDryRun in
    (if isDryRun
     then Printf (Sprintf ["dryrun option enabled, GitLab MRs will not be updated and Slack messages will not be posted."; nl])
     else mret tt);;
    mret {| gitLabToken := nth 1 args ""; gitLabProjectID := nth 2 args "";
            slackToken := nth 3 args ""; slackChannelID := nth 4 args "";
            jiraToken := nth 5 args ""; isDryRun := isDryRun |}.

Definition extractBranchNames (branches : list Branch) : string :=
  let names := fold_left (λ names b, names ++ [Name b]) branches [] in
  Join names ",".

Section Stages.
Context (w : World).

(** The [for { ... }] loop of [getBranches]; one unit of fuel per page. *)
Fixpoint getBranchesLoop (fuel : nat) (gitLabProjectID : string)
         (options : ListOptions) (branches : list Branch) : M (list Branch) :=
  match fuel with
  | O => diverge
  | S fuel =>
      r ← callListBranches w (PidString gitLabProjectID) options;
      match r with
      | inl err => fail (Sprintf ["gitlab - http client error: "; err])
      | inr (branchesInPage, resp) =>
          if 400 <=? StatusCode resp then
            fail (Sprintf ["gitlab - invalid request. Status code: "; Status resp;
                           ". Body: "; Body resp])
          else
            let branches := branches ++ branchesInPage in
            if NextPage resp =? 0 then mret branches
            else
              let options := {| Page := NextPage resp; PerPage := PerPage options |} in
              getBranchesLoop fuel gitLabProjectID options branches
      end
  end.

(** Get all branches. *)
Definition getBranches (fuel : nat) (gitLabProjectID : string) : M (list Branch) :=
  let options := {| Page := 0; PerPage := maxPerPage |} in
  branches ← getBranchesLoop fuel gitLabProjectID options [];
  Printf (Sprintf ["Branches found: "; FormatInt (lenZ branches); nl]);;
  Printf (Sprintf ["Name of branches: "; extractBranchNames branches; nl]);;
  mret branches.

(** Filter non-protected branches that haven't been updated for over 6 months. *)
Definition filterStaleNonProtectedBranches (now : Time) (branches : list Branch)
  : M (list Branch) :=
  let sixMonthsAgo := AddDate now 0 (-6) 0 in
  let staleBranches :=
    fold_left
      (λ staleBranches b,
         if negb (Protected b) && Before (CommittedDate b) sixMonthsAgo
         then staleBranches ++ [b] else staleBranches)
      branches [] in
  Printf (Sprintf ["stale branches found: "; FormatInt (lenZ staleBranches); nl]);;
  Printf (Sprintf ["name of stale non-protected branches: ";
                   extractBranchNames staleBranches; nl]);;
  mret staleBranches.

Fixpoint deleteEach (gitLabProjectID : string) (staleBranches : list Branch) : M unit :=
  match staleBranches with
  | [] => mret tt
  | b :: rest =>
      r ← callDeleteBranch w (PidString gitLabProjectID) (Name b);
      match r with
      | inl err => fail (Sprintf ["gitlab - http client error: "; err])
      | inr resp =>
          if 400 <=? StatusCode resp then
            fail (Sprintf ["gitlab - invalid request. Status code: "; Status resp;
                           ". Body: "; Body resp])
          else deleteEach gitLabProjectID rest
      end
  end.

Definition deleteStaleBranches (staleBranches : list Branch)
           (gitLabProjectID : string) (isDryRun : bool) : M unit :=
  if isDryRun then mret tt
  else
    deleteEach gitLabProjectID staleBranches;;
    Printf (Sprintf ["deleted "; FormatInt (lenZ staleBranches); " stale branches"]).

(** The [for { ... }] loop of [getMergeRequests]. *)
Fixpoint getMergeRequestsLoop (fuel : nat) (gitLabProjectID : string)
         (options : ListProjectMergeRequestsOptions)
         (mergeRequests : list MergeRequest) : M (list MergeRequest) :=
  match fuel with
  | O => diverge
  | S fuel =>
      r ← callListProjectMergeRequests w (PidString gitLabProjectID) options;
      match r with
      | inl err => fail (Sprintf ["gitlab - http client error: "; err])
      | inr (mergeRequestsInPage, resp) =>
          if 400 <=? StatusCode resp then
            fail (Sprintf ["gitlab - invalid request. Status code: "; Status resp;
                           ". Body: "; Body resp])
          else
            let mergeRequests := mergeRequests ++ mergeRequestsInPage in
            if NextPage resp =? 0 then mret mergeRequests
            else
              let options :=
                {| State := State options;
                   MRListOptions := {| Page := NextPage resp;
                                       PerPage := PerPage (MRListOptions options) |} |} in
              getMergeRequestsLoop fuel gitLabProjectID options mergeRequests
      end
  end.

(** Get all merge requests. *)
Definition getMergeRequests (fuel : nat) (gitLabProjectID : string)
  : M (list MergeRequest) :=
  let options := {| State := "opened";
                    MRListOptions := {| Page := 0; PerPage := maxPerPage |} |} in
  mergeRequests ← getMergeRequestsLoop fuel gitLabProjectID options [];
  Printf (Sprintf ["MRs found: "; FormatInt (lenZ mergeRequests); nl]);;
  Printf (Sprintf ["internal ID of MRs: "; extractMergeRequestIIDs mergeRequests; nl]);;
  mret mergeRequests.

(** Filter merge requests that haven't been updated for over 2 months. *)
Definition filterStaleMergeRequests (now : Time) (mrs : list MergeRequest)
  : M (list MergeRequest) :=
  let twoMonthsAgo := AddDate now 0 (-2) 0 in
  let staleMRs :=
    fold_left
      (λ staleMRs mr,
         if Before (UpdatedAt mr) twoMonthsAgo then staleMRs ++ [mr] else staleMRs)
      mrs [] in
  Printf (Sprintf ["stale MRs found: "; FormatInt (lenZ staleMRs); nl]);;
  Printf (Sprintf ["internal IDs of stale MRs: "; extractMergeRequestIIDs staleMRs; nl]);;
  mret staleMRs.

(** First loop of [closeExpiredMergeRequests]. *)
Fixpoint collectExpired (threeMonthsAgo : Time) (mrs expiredMRs : list MergeRequest)
  : M (list MergeRequest) :=
  match mrs with
  | [] => mret expiredMRs
  | mr :: rest =>
      if Before (UpdatedAt mr) threeMonthsAgo then
        collectExpired threeMonthsAgo rest (expiredMRs ++ [mr])
      else
        let jiraIssueID := getJiraIssueID (Title mr) in
        if String.eqb jiraIssueID "" then
          Printf (Sprintf ["no JIRA issue ID attached to MR: "; FormatInt (IID mr);
                           ". Skipping status check."; nl]);;
          collectExpired threeMonthsAgo rest expiredMRs
        else
          r ← callIssueGet w jiraIssueID;
          match r with
          | JiraError resp err =>
              if match resp with Some resp => StatusCode resp =? 404 | None => false end
              then
                Printf (Sprintf ["JIRA issue ID attached to MR does not exist: ";
                                 FormatInt (IID mr); ". Skipping status check."; nl]);;
                collectExpired threeMonthsAgo rest expiredMRs
              else
                match resp with
                | Some resp =>
                    if 400 <=? StatusCode resp then
                      fail (Sprintf ["jira - invalid request. Status code: ";
                                     Status resp; ". Body: "; Body resp])
                    else fail (Sprintf ["jira - http client error: "; err])
                | None => fail (Sprintf ["jira - http client error: "; err])
                end
          | JiraIssue statusName =>
              if String.eqb statusName "Closed" then
                collectExpired threeMonthsAgo rest (expiredMRs ++ [mr])
              else collectExpired threeMonthsAgo rest expiredMRs
          end
  end.

(** Second loop of [closeExpiredMergeRequests]. *)
Fixpoint closeEach (gitLabProjectID : string) (expiredMRs : list MergeRequest) : M unit :=
  match expiredMRs with
  | [] => mret tt
  | mr :: rest =>
      let updateMergeRequestOptions := {| StateEvent := "close" |} in
      r ← callUpdateMergeRequest w (PidString gitLabProjectID) (IID mr)
            updateMergeRequestOptions;
      match r with
      | inl err => fail (Sprintf ["gitlab - http client error: "; err])
      | inr resp =>
          if 400 <=? StatusCode resp then
            fail (Sprintf ["gitlab - invalid request. Status code: "; Status resp;
                           ". Body: "; Body resp])
          else closeEach gitLabProjectID rest
      end
  end.

(** Close merge requests that haven't been updated for over 3 months or
    whose associated JIRA issue is closed. *)
Definition closeExpiredMergeRequests (now : Time) (mrs : list MergeRequest)
           (gitLabProjectID : string) (isDryRun : bool) : M (list MergeRequest) :=
  let threeMonthsAgo := AddDate now 0 (-3) 0 in
  expiredMRs ← collectExpired threeMonthsAgo mrs [];
  Printf (Sprintf ["expired MRs found: "; FormatInt (lenZ expiredMRs); nl]);;
  Printf (Sprintf ["internal ID of expired MRs: "; extractMergeRequestIIDs expiredMRs; nl]);;
  if isDryRun then mret expiredMRs
  else
    closeEach gitLabProjectID expiredMRs;;
    mret expiredMRs.

(** [main]; [gitlab.NewClient], [jira.NewClient] and [slack.New] only
    build client values from constant URLs and the tokens. *)
Definition main (fuel : nat) (args : list string) : M unit :=
  a ← try (parseArgs args) outputErrorAndExit;
  (* branches *)
  branches ← try (getBranches fuel (gitLabProjectID a)) outputErrorAndExit;
  staleBranches ← filterStaleNonProtectedBranches (timeNow w 0) branches;
  try (deleteStaleBranches staleBranches (gitLabProjectID a) (isDryRun a))
      outputErrorAndExit;;
  (* merge requests *)
  mrs ← try (getMergeRequests fuel (gitLabProjectID a)) outputErrorAndExit;
  staleMRs ← filterStaleMergeRequests (timeNow w 1) mrs;
  expiredMRs ← try (closeExpiredMergeRequests (timeNow w 2) mrs (gitLabProjectID a)
                      (isDryRun a)) outputErrorAndExit;
  if (length staleMRs =? 0)%nat && (length expiredMRs =? 0)%nat then
    Printf (Sprintf ["no stale or expired merge requests found. Exiting."; nl])
  else
    slackUserIDByGitLabUserID ← getSlackUserIDsFromGitLabUserIDs w staleMRs expiredMRs;
    inviteUsersToSlackChannel w slackUserIDByGitLabUserID (slackChannelID a) (isDryRun a);;
    try (buildAndPostSlackMessage w staleMRs expiredMRs slackUserIDByGitLabUserID
           (slackChannelID a) (isDryRun a)) outputErrorAndExit.

End Stages.

End BranchCleanup.

(* ===================================================================== *)
(** * First script: merge requests only, one page of at most 100 *)
(* ===================================================================== *)

Module MRCleanup.

Definition slackChannelID : string := "C##########".
Definition gitLabSupplyProjectID : Z := 2520.
Definition maxMergeRequestsToRetrieve : Z := 100.

Record Args := {
  gitLabToken : string; slackToken : string; jiraToken : string; isDryRun : bool }.

Definition parseArgs (args : list string) : M Args :=
  if (length args <? 4)%nat then
    fail "missing args. Usage: [gitlabtoken] [slacktoken] [jiratoken] [dryrun]"
  else
    let isDryRun := false in
    let isDryRun :=
      if (length args =? 5)%nat then ParseBool (nth 4 args "") else isDryRun in
    (if isDryRun
     then Printf (Sprintf ["dryrun option enabled, GitLab MRs will not be updated and Slack messages will not be posted."; nl])
     else mret tt);;
    mret {| gitLabToken := nth 1 args ""; slackToken := nth 2 args "";
            jiraToken := nth 3 args ""; isDryRun := isDryRun |}.

Section Stages.
Context (w : World).

(** A single request: no loop over [resp.NextPage]. *)
Definition getMergeRequests : M (list MergeRequest) :=
  let options := {| State := "opened";
                    MRListOptions := {| Page := 0;
                                        PerPage := maxMergeRequestsToRetrieve |} |} in
  r ← callListProjectMergeRequests w (PidInt gitLabSupplyProjectID) options;
  match r with
  | inl err => fail (Sprintf ["gitlab - http client error: "; err])
  | inr (mergeRequests, resp) =>
      if 400 <? StatusCode resp then
        fail (Sprintf ["gitlab - invalid request. Status code: "; Status resp;
                       ". Body: "; Body resp])
      else
        Printf (Sprintf ["MRs found: "; FormatInt (lenZ mergeRequests); nl]);;
        Printf (Sprintf ["internal IDs of MRs: ";
                         extractMergeRequestIIDs mergeRequests; nl]);;
        mret mergeRequests
  end.

(** Get merge requests that haven't been updated for over 2 months. *)
Definition getStaleMergeRequests (now : Time) (mrs : list MergeRequest)
  : M (list MergeRequest) :=
  let twoMonthsAgo := AddDate now 0 (-2) 0 in
  let staleMRs :=
    fold_left
      (λ staleMRs mr,
         if Before (UpdatedAt mr) twoMonthsAgo then staleMRs ++ [mr] else staleMRs)
      mrs [] in
  Printf (Sprintf ["internal IDs of stale MRs: "; extractMergeRequestIIDs staleMRs; nl]);;
  mret staleMRs.

(** First loop of [closeExpiredMergeRequests]. *)
Fixpoint collectExpired (threeMonthsAgo : Time) (mrs expiredMRs : list MergeRequest)
  : M (list MergeRequest) :=
  match mrs with
  | [] => mret expiredMRs
  | mr :: rest =>
      if Before (UpdatedAt mr) threeMonthsAgo then
        collectExpired threeMonthsAgo rest (expiredMRs ++ [mr])
      else
        let jiraIssueID := getJiraIssueID (Title mr) in
        if String.eqb jiraIssueID "" then
          Printf (Sprintf ["no JIRA issue ID attached to MR: "; FormatInt (IID mr);
                           ". Skipping status check."; nl]);;
          collectExpired threeMonthsAgo rest expiredMRs
        else
          r ← callIssueGet w jiraIssueID;
          match r with
          | JiraError resp err =>
              if match resp with Some resp => StatusCode resp =? 404 | None => false end
              then
                Printf (Sprintf ["JIRA issue ID attached to MR does not exist: ";
                                 FormatInt (IID mr); ". Skipping status check."; nl]);;
                collectExpired threeMonthsAgo rest expiredMRs
              else
                match resp with
                | Some resp =>
                    if 400 <? StatusCode resp then
                      fail (Sprintf ["jira - invalid request. Status code: ";
                                     Status resp; ". Body: "; Body resp])
                    else fail (Sprintf ["jira - http client error: "; err])
                | None => fail (Sprintf ["jira - http client error: "; err])
                end
          | JiraIssue statusName =>
              if String.eqb statusName "Closed" then
                collectExpired threeMonthsAgo rest (expiredMRs ++ [mr])
              else collectExpired threeMonthsAgo rest expiredMRs
          end
  end.

(** Second loop of [closeExpiredMergeRequests]. *)
Fixpoint closeEach (expiredMRs : list MergeRequest) : M unit :=
  match expiredMRs with
  | [] => mret tt
  | mr :: rest =>
      let updateMergeRequestOptions := {| StateEvent := "close" |} in
      r ← callUpdateMergeRequest w (PidInt gitLabSupplyProjectID) (IID mr)
            updateMergeRequestOptions;
      match r with
      | inl err => fail (Sprintf ["gitlab - http client error: "; err])
      | inr resp =>
          if 400 <? StatusCode resp then
            fail (Sprintf ["gitlab - invalid request. Status code: "; Status resp;
                           ". Body: "; Body resp])
          else closeEach rest
      end
  end.

(** Close merge requests that haven't been updated for over 3 months or
    whose associated JIRA issue is closed. *)
Definition closeExpiredMergeRequests (now : Time) (mrs : list MergeRequest)
           (isDryRun : bool) : M (list MergeRequest) :=
  let threeMonthsAgo := AddDate now 0 (-3) 0 in
  expiredMRs ← collectExpired threeMonthsAgo mrs [];
  Printf (Sprintf ["internal IDs of expired MRs: ";
                   extractMergeRequestIIDs expiredMRs; nl]);;
  if isDryRun then mret expiredMRs
  else
    closeEach expiredMRs;;
    mret expiredMRs.

Definition main (args : list string) : M unit :=
  a ← try (parseArgs args) outputErrorAndExit;
  mrs ← try getMergeRequests outputErrorAndExit;
  staleMRs ← getStaleMergeRequests (timeNow w 0) mrs;
  expiredMRs ← try (closeExpiredMergeRequests (timeNow w 1) mrs (isDryRun a))
                 outputErrorAndExit;
  if (length staleMRs =? 0)%nat && (length expiredMRs =? 0)%nat then
    Printf (Sprintf ["no stale or expired merge requests found. Exiting."; nl])
  else
    slackUserIDByGitLabUserID ← getSlackUserIDsFromGitLabUserIDs w staleMRs expiredMRs;
    inviteUsersToSlackChannel w slackUserIDByGitLabUserID slackChannelID (isDryRun a);;
    try (buildAndPostSlackMessage w staleMRs expiredMRs slackUserIDByGitLabUserID
           slackChannelID (isDryRun a)) outputErrorAndExit.

End Stages.

End MRCleanup.

(* ===================================================================== *)
(** * The config-sort linter *)
(* ===================================================================== *)

Module ConfigSort.

(** The pattern of [tableRegexp]: beginning of text, an opening bracket,
    any run of non-newline bytes, a closing bracket, end of text. *)
Definition tableRegexp : Regexp.Regexp :=
  [ Regexp.Bol; Regexp.Class (Regexp.lit "["); Regexp.Star Regexp.dot;
    Regexp.Class (Regexp.lit "]"); Regexp.Eol ]%char.

(** UTF-8 encodings of the code points for which [unicode.IsSpace] holds. *)
Definition spaceRunes : list (list ascii) :=
  ([ ["009"]; ["010"]; ["011"]; ["012"]; ["013"]; [" "];
     ["194"; "133"]; ["194"; "160"];
     ["225"; "154"; "128"];
     ["226"; "128"; "128"]; ["226"; "128"; "129"]; ["226"; "128"; "130"];
     ["226"; "128"; "131"]; ["226"; "128"; "132"]; ["226"; "128"; "133"];
     ["226"; "128"; "134"]; ["226"; "128"; "135"]; ["226"; "128"; "136"];
     ["226"; "128"; "137"]; ["226"; "128"; "138"];
     ["226"; "128"; "168"]; ["226"; "128"; "169"]; ["226"; "128"; "175"];
     ["226"; "129"; "159"];
     ["227"; "128"; "128"] ])%char.

Fixpoint hasPrefix (prefix s : list ascii) : option (list ascii) :=
  match prefix, s with
  | [], _ => Some s
  | a :: prefix', c :: s' => if Ascii.eqb a c then hasPrefix prefix' s' else None
  | _ :: _, [] => None
  end.

(** Remove one leading white-space rune, if there is one. *)
Definition dropSpaceRune (runes : list (list ascii)) (s : list ascii)
  : option (list ascii) :=
  fold_right (λ r acc, match hasPrefix r s with Some s' => Some s' | None => acc end)
             None runes.

(** Remove leading white-space runes; [fuel] bounds the number removed. *)
Fixpoint trimRunes (runes : list (list ascii)) (fuel : nat) (s : list ascii)
  : list ascii :=
  match fuel with
  | O => s
  | S fuel =>
      match dropSpaceRune runes s with
      | Some s' => trimRunes runes fuel s'
      | None => s
      end
  end.

(** [strings.TrimSpace] on the bytes of a string: leading runes first,
    then trailing ones (read backwards). *)
Definition TrimSpaceBytes (s : list ascii) : list ascii :=
  let s := trimRunes spaceRunes (length s) s in
  rev (trimRunes (map (@rev ascii) spaceRunes) (length s) (rev s)).

Definition TrimSpace (s : string) : string :=
  string_of_list_ascii (TrimSpaceBytes (list_ascii_of_string s)).

(** [strings.Split(line, "=")[0]]: the text before the first '='. *)
Fixpoint beforeEquals (s : string) : string :=
  match s with
  | EmptyString => EmptyString
  | String c s' => if Ascii.eqb c "=" then EmptyString else String c (beforeEquals s')
  end.

(** [line[1 : len(line)-1]] *)
Definition inner (line : string) : string :=
  String.substring 1 (String.length line - 2) line.

(** How a run of the linter ends; the text is what it printed. *)
Inductive Result :=
| Sorted                         (* falls off the end of [main]: exit status 0 *)
| NotSorted (message : string)   (* prints the message, [os.Exit(1)] *)
| Panicked.                      (* index out of range *)

(** The [for scanner.Scan()] loop, on the lines the scanner yields. *)
Fixpoint scan (lines : list string) (previousTable previousKey : string) : Result :=
  match lines with
  | [] => Sorted
  | line :: rest =>
      if String.eqb line "" then scan rest previousTable previousKey
      else
        match TrimSpace line with
        | EmptyString => Panicked
        | String c0 _ =>
            if Ascii.eqb c0 "#" then scan rest previousTable previousKey
            else if Regexp.MatchString tableRegexp line then
              let currTable := inner line in
              if String.ltb currTable previousTable then
                NotSorted (Sprintf ["File is not sorted. Table ["; currTable;
                                    "] should be before table ["; previousTable; "]"; nl])
              else scan rest currTable ""
            else
              let currKey := TrimSpace (beforeEquals line) in
              if String.ltb currKey previousKey then
                NotSorted (Sprintf ["File is not sorted. Key "; currKey;
                                    " should be before key "; previousKey; nl])
              else scan rest previousTable currKey
        end
  end.

(** [bufio.ScanLines]: split at newlines, drop one trailing carriage
    return per line, and yield a last unterminated line if not empty. *)
Fixpoint splitLines (s : list ascii) (line : list ascii) : list (list ascii) :=
  match s with
  | [] => match line with [] => [] | _ => [rev line] end
  | c :: s' =>
      if Ascii.eqb c "010" then rev line :: splitLines s' [] else splitLines s' (c :: line)
  end.

Definition dropCR (line : list ascii) : list ascii :=
  match rev line with
  | c :: r => if Ascii.eqb c "013" then rev r else line
  | [] => line
  end.

Definition ScanLines (contents : string) : list string :=
  map (λ l, string_of_list_ascii (dropCR l)) (splitLines (list_ascii_of_string contents) []).

(** [main] on the contents of the file named by [os.Args[1]]; lines are
    assumed to fit the scanner's buffer. *)
Definition main (contents : string) : Result :=
  scan (ScanLines contents) "" "".

End ConfigSort.

(* ===================================================================== *)
(** * Vocabulary of the properties *)
(* ===================================================================== *)

(** An issue token as the pattern reads it: a non-empty run of [A-Z0-9], a
    dash, a non-empty run of digits. *)
Definition is_token (tok : list ascii) : Prop :=
  ∃ a d, tok = a ++ "-"%char :: d
         ∧ a ≠ [] ∧ Forall (λ c, Regexp.upper_alnum c = true) a
         ∧ d ≠ [] ∧ Forall (λ c, Regexp.digit c = true) d.

(** The text has a bracketed issue token somewhere. *)
Definition contains_token (s : list ascii) : Prop :=
  ∃ x tok y, s = x ++ "["%char :: tok ++ "]"%char :: y ∧ is_token tok.

(** The pattern after the first group's repetition: from the closing
    parenthesis of group 1 on. *)
Definition mrTitleTail : Regexp.Regexp := skipn 2 mrTitleRegex.

(** The rule in the words of the specification: the token is the one that
    ends the title, the display title is the text before it with the
    surrounding white space trimmed, and a title that does not end in a
    token is returned whole with an empty issue reference. *)
Definition title_rule_as_specified : Prop :=
  ∀ title : string,
    (∀ pre tok,
        list_ascii_of_string title = pre ++ "["%char :: tok ++ ["]"%char] →
        is_token tok →
        getJiraIssueID title = string_of_list_ascii tok
        ∧ fst (parseMRTitle title) = ConfigSort.TrimSpace (string_of_list_ascii pre))
    ∧ ((¬ ∃ pre tok,
           list_ascii_of_string title = pre ++ "["%char :: tok ++ ["]"%char]
           ∧ is_token tok) →
       parseMRTitle title = (title, "") ∧ getJiraIssueID title = "").

(** A GitLab list endpoint that exposes the given pages: page numbers start
    at 1, an unset page (0) means the first one, and [NextPage] is 0 on the
    last page. *)
Definition pagedReply {A} (pages : list (list A)) (page : Z) : list A * Response :=
  let p := Z.max page 1 in
  (nth (Z.to_nat (p - 1)) pages [],
   {| StatusCode := 200; Status := "200 OK"; Body := "";
      NextPage := if p <? lenZ pages then p + 1 else 0 |}).

Definition serves_branches (w : World) (pages : list (list Branch)) : Prop :=
  ∀ pid opt, gitlabListBranches w pid opt = inr (pagedReply pages (Page opt)).

Definition serves_merge_requests (w : World) (pages : list (list MergeRequest)) : Prop :=
  ∀ pid opt,
    gitlabListProjectMergeRequests w pid opt
    = inr (pagedReply pages (Page (MRListOptions opt))).

(** A world for examples: GitLab exposes the given pages, every mutating
    call succeeds, and JIRA, Slack's user lookup and branch deletion answer
    as given. *)
Definition okResponse : Response :=
  {| StatusCode := 200; Status := "200 OK"; Body := ""; NextPage := 0 |}.

Definition sampleWorld (now : Time)
           (branchPages : list (list Branch)) (mrPages : list (list MergeRequest))
           (jira : string → JiraReply) (slackUser : string → string + string)
           (deleteBranch : string → string + Response) : World :=
  {| timeNow := λ _, now;
     gitlabListProjectMergeRequests :=
       λ _ opt, inr (pagedReply mrPages (Page (MRListOptions opt)));
     gitlabListBranches := λ _ opt, inr (pagedReply branchPages (Page opt));
     gitlabDeleteBranch := λ _ name, deleteBranch name;
     gitlabUpdateMergeRequest := λ _ _ _, inr okResponse;
     jiraIssueGet := jira;
     slackGetUserByEmail := slackUser;
     slackInviteUsersToConversation := λ _ _, None;
     slackPostMessage := λ _ _, None |}.

Definition sampleMR (iid : Z) (title author : string) (updatedAt : Time) : MergeRequest :=
  {| IID := iid; Title := title; AuthorUsername := author; UpdatedAt := updatedAt;
     WebURL := Sprintf ["https://gitlab.YOURDOMAIN.com/mr/"; FormatInt iid] |}.

(** A clock reading and timestamps around it. *)
Definition sampleNow : Time := Date 2024 6 15.

Definition mrOld : MergeRequest := sampleMR 1 "Old work [AB-1]" "ann.lee" (Date 2024 1 10).
Definition mrFresh : MergeRequest := sampleMR 2 "New work" "bob.ray" (Date 2024 6 1).

Definition twoPageWorld : World :=
  sampleWorld sampleNow [] [[mrOld]; [mrFresh]]
              (λ _, JiraIssue "Open") (λ email, inr email) (λ _, inr okResponse).

(** Stale: last update before two months before [now]. *)
Definition is_stale (now : Time) (mr : MergeRequest) : bool :=
  Before (UpdatedAt mr) (AddDate now 0 (-2) 0).

(** The linked issue is closed: the title has an issue reference and JIRA
    answers with an issue whose status name is "Closed". *)
Definition issue_closed (w : World) (mr : MergeRequest) : bool :=
  negb (String.eqb (getJiraIssueID (Title mr)) "")
  && match jiraIssueGet w (getJiraIssueID (Title mr)) with
     | JiraIssue statusName => String.eqb statusName "Closed"
     | JiraError _ _ => false
     end.

(** Expired: last update before three months before [now], or linked issue
    closed. *)
Definition is_expired (w : World) (now : Time) (mr : MergeRequest) : bool :=
  Before (UpdatedAt mr) (AddDate now 0 (-3) 0) || issue_closed w mr.

(** Stale branch: not protected and last commit before six months before [now]. *)
Definition is_stale_branch (now : Time) (b : Branch) : bool :=
  negb (Protected b) && Before (CommittedDate b) (AddDate now 0 (-6) 0).

Inductive Kind :=
| KList | KDelete | KUpdate | KIssueGet | KUserLookup | KInvite | KPost | KPrint.

Definition kind_of (e : Event) : Kind :=
  match e with
  | ListProjectMergeRequests _ _ | ListBranches _ _ => KList
  | DeleteBranch _ _ => KDelete
  | UpdateMergeRequest _ _ _ => KUpdate
  | IssueGet _ => KIssueGet
  | GetUserByEmail _ => KUserLookup
  | InviteUsersToConversation _ _ => KInvite
  | PostMessage _ _ => KPost
  | Print _ => KPrint
  end.


(** Read/query calls. *)
Definition is_read (e : Event) : bool :=
  match kind_of e with
  | KList | KIssueGet | KUserLookup => true
  | _ => false
  end.

(** Every event of the computation is of one of the kinds [ks]. *)
Definition only {A} (ks : list Kind) (m : M A) : Prop :=
  Forall (λ e, In (kind_of e) ks) (trace m).

(** The linked issue of a merge request is closed, in the words of the
    specification: its title has an issue reference whose JIRA issue has the
    status name "Closed". *)
Definition linked_issue_closed (w : World) (mr : MergeRequest) : Prop :=
  getJiraIssueID (Title mr) ≠ ""
  ∧ jiraIssueGet w (getJiraIssueID (Title mr)) = JiraIssue "Closed".

Definition older_than_months (months : Z) (now : Time) (mr : MergeRequest) : Prop :=
  Before (UpdatedAt mr) (AddDate now 0 (- months) 0) = true.

Definition mrClosedIssue : MergeRequest :=
  sampleMR 3 "Done [CD-7]" "cy.doe" (Date 2024 6 10).

Definition sampleJira (id : string) : JiraReply :=
  if String.eqb id "CD-7" then JiraIssue "Closed"
  else if String.eqb id "ZZ-404" then
    JiraError (Some {| StatusCode := 404; Status := "404 Not Found"; Body := "";
                       NextPage := 0 |}) "issue does not exist"
  else JiraIssue "Open".

Definition sampleMRWorld : World :=
  sampleWorld sampleNow [] [[mrOld; mrFresh; mrClosedIssue]]
              sampleJira (λ email, inr email) (λ _, inr okResponse).

(** The branch names passed to [DeleteBranch], in call order. *)
Definition deletedBranches (tr : list Event) : list string :=
  flat_map (λ e, match e with DeleteBranch _ name => [name] | _ => [] end) tr.

(** [DeleteBranch] succeeds for the branch: no client error and a status
    below 400. *)
Definition delete_ok (w : World) (pid : string) (b : Branch) : bool :=
  match gitlabDeleteBranch w (PidString pid) (Name b) with
  | inl _ => false
  | inr resp => negb (400 <=? StatusCode resp)
  end.

(** The items up to and including the first one for which [ok] fails. *)
Fixpoint through_first_failure {A} (ok : A → bool) (items : list A) : list A :=
  match items with
  | [] => []
  | x :: rest => x :: (if ok x then through_first_failure ok rest else [])
  end.

Definition not_delete : list Kind :=
  [KList; KUpdate; KIssueGet; KUserLookup; KInvite; KPost; KPrint].

Definition bStale1 : Branch :=
  {| Name := "feature/old-1"; Protected := false; CommittedDate := Date 2023 10 1 |}.
Definition bStale2 : Branch :=
  {| Name := "feature/old-2"; Protected := false; CommittedDate := Date 2023 11 1 |}.
Definition bProtected : Branch :=
  {| Name := "main"; Protected := true; CommittedDate := Date 2023 1 1 |}.
Definition bFresh : Branch :=
  {| Name := "feature/new"; Protected := false; CommittedDate := Date 2024 6 1 |}.

Definition sampleArgs : list string :=
  ["cleanup"; "gitlab-token"; "42"; "slack-token"; "C123"; "jira-token"].

Definition branchWorld : World :=
  sampleWorld sampleNow [[bStale1; bProtected]; [bFresh; bStale2]]
              [[mrOld; mrFresh; mrClosedIssue]]
              sampleJira (λ email, inr email) (λ _, inr okResponse).

(** The same, but deleting "feature/old-1" fails with a client error. *)
Definition failingDeleteWorld : World :=
  sampleWorld sampleNow [[bStale1; bProtected]; [bFresh; bStale2]]
              [[mrOld; mrFresh; mrClosedIssue]]
              sampleJira (λ email, inr email)
              (λ name, if String.eqb name "feature/old-1"
                       then inl "connection reset" else inr okResponse).

(** The read/query calls of a trace, in order. *)
Definition reads (tr : list Event) : list Event := List.filter is_read tr.





(** The call failed in a way that stops the script: a GitLab call with a
    client error or a status that the script treats as an error ([bad]), a
    JIRA lookup with an error other than a 404 response, or a Slack
    message that could not be posted.  Failed Slack user lookups and
    invitations, and JIRA's 404, are reported and skipped instead. *)
Definition fatal_failure (bad : Z → bool) (w : World) (e : Event) : bool :=
  match e with
  | ListProjectMergeRequests pid opt =>
      match gitlabListProjectMergeRequests w pid opt with
      | inl _ => true
      | inr (_, resp) => bad (StatusCode resp)
      end
  | ListBranches pid opt =>
      match gitlabListBranches w pid opt with
      | inl _ => true
      | inr (_, resp) => bad (StatusCode resp)
      end
  | DeleteBranch pid name =>
      match gitlabDeleteBranch w pid name with
      | inl _ => true
      | inr resp => bad (StatusCode resp)
      end
  | UpdateMergeRequest pid iid opt =>
      match gitlabUpdateMergeRequest w pid iid opt with
      | inl _ => true
      | inr resp => bad (StatusCode resp)
      end
  | IssueGet id =>
      match jiraIssueGet w id with
      | JiraError (Some resp) _ => negb (StatusCode resp =? 404)
      | JiraError None _ => true
      | JiraIssue _ => false
      end
  | PostMessage channel blocks =>
      match slackPostMessage w channel blocks with
      | Some _ => true
      | None => false
      end
  | GetUserByEmail _ | InviteUsersToConversation _ _ | Print _ => false
  end.

(** What the second script treats as an error status, and the first. *)
Definition bad_status_B (status : Z) : bool := 400 <=? status.
Definition bad_status_A (status : Z) : bool := 400 <? status.

(** The services answer what [closeExpiredMergeRequests] asks: no JIRA
    lookup of a listed merge request fails fatally, and, outside a dry run,
    GitLab accepts the closing of every expired merge request. *)
Definition jira_answers (w : World) (mr : MergeRequest) : bool :=
  negb (fatal_failure bad_status_B w (IssueGet (getJiraIssueID (Title mr)))).

Definition close_accepted (bad : Z → bool) (w : World) (pid : ProjectID)
           (mr : MergeRequest) : bool :=
  negb (fatal_failure bad w (UpdateMergeRequest pid (IID mr) {| StateEvent := "close" |})).

Definition closing_answered (bad : Z → bool) (w : World) (now : Time) (pid : ProjectID)
           (mrs : list MergeRequest) (isDryRun : bool) : bool :=
  forallb (jira_answers w) mrs
  && (isDryRun || forallb (close_accepted bad w pid) (List.filter (is_expired w now) mrs)).

Definition is_print (e : Event) : Prop := kind_of e = KPrint.

(** Slack does not know ann.lee; everything else succeeds. *)
Definition lookupFailWorld : World :=
  sampleWorld sampleNow [[bStale1; bProtected]; [bFresh; bStale2]]
              [[mrOld; mrFresh; mrClosedIssue]]
              sampleJira
              (λ email, if String.eqb email "ann.lee@YOURDOMAIN.com"
                        then inl "users_not_found" else inr email)
              (λ _, inr okResponse).

(** The external call of the event failed: a client error or an error
    status code, whatever the script then does about it. *)
Definition call_failed (w : World) (e : Event) : bool :=
  match e with
  | ListProjectMergeRequests pid opt =>
      match gitlabListProjectMergeRequests w pid opt with
      | inl _ => true
      | inr (_, resp) => 400 <=? StatusCode resp
      end
  | ListBranches pid opt =>
      match gitlabListBranches w pid opt with
      | inl _ => true
      | inr (_, resp) => 400 <=? StatusCode resp
      end
  | DeleteBranch pid name =>
      match gitlabDeleteBranch w pid name with
      | inl _ => true
      | inr resp => 400 <=? StatusCode resp
      end
  | UpdateMergeRequest pid iid opt =>
      match gitlabUpdateMergeRequest w pid iid opt with
      | inl _ => true
      | inr resp => 400 <=? StatusCode resp
      end
  | IssueGet id =>
      match jiraIssueGet w id with JiraError _ _ => true | JiraIssue _ => false end
  | GetUserByEmail email =>
      match slackGetUserByEmail w email with inl _ => true | inr _ => false end
  | InviteUsersToConversation channel users =>
      match slackInviteUsersToConversation w channel users with
      | Some _ => true
      | None => false
      end
  | PostMessage channel blocks =>
      match slackPostMessage w channel blocks with Some _ => true | None => false end
  | Print _ => false
  end.

(** What a stage returns as its error for a failed GitLab call: the client
    error, or the status and body of a response whose status the script
    takes as an error ([bad]). *)
Definition gitlab_report (bad : Z → bool) (r : string + Response) : option string :=
  match r with
  | inl err => Some (Sprintf ["gitlab - http client error: "; err])
  | inr resp =>
      if bad (StatusCode resp)
      then Some (Sprintf ["gitlab - invalid request. Status code: "; Status resp;
                          ". Body: "; Body resp])
      else None
  end.

(** The client error or the response of a GitLab list call. *)
Definition response_of {A} (r : string + A * Response) : string + Response :=
  match r with
  | inl err => inl err
  | inr (_, resp) => inr resp
  end.

(** The error with which the script stops on a call that failed fatally
    ([fatal_failure]); [None] for every other call. *)
Definition error_report (bad : Z → bool) (w : World) (e : Event) : option string :=
  match e with
  | ListProjectMergeRequests pid opt =>
      gitlab_report bad (response_of (gitlabListProjectMergeRequests w pid opt))
  | ListBranches pid opt => gitlab_report bad (response_of (gitlabListBranches w pid opt))
  | DeleteBranch pid name => gitlab_report bad (gitlabDeleteBranch w pid name)
  | UpdateMergeRequest pid iid opt =>
      gitlab_report bad (gitlabUpdateMergeRequest w pid iid opt)
  | IssueGet id =>
      match jiraIssueGet w id with
      | JiraError (Some resp) err =>
          if StatusCode resp =? 404 then None
          else if bad (StatusCode resp)
               then Some (Sprintf ["jira - invalid request. Status code: "; Status resp;
                                   ". Body: "; Body resp])
               else Some (Sprintf ["jira - http client error: "; err])
      | JiraError None err => Some (Sprintf ["jira - http client error: "; err])
      | JiraIssue _ => None
      end
  | PostMessage channel blocks =>
      match slackPostMessage w channel blocks with
      | Some err =>
          Some (Sprintf ["slack - error posting message to channel <"; channel; ">: "; err])
      | None => None
      end
  | GetUserByEmail _ | InviteUsersToConversation _ _ | Print _ => None
  end.

(** The call failed in a way that the scripts report and pass over: a Slack
    user lookup or invitation that failed, a JIRA lookup answered 404. *)
Definition skipped_failure (w : World) (e : Event) : bool :=
  match e with
  | IssueGet id =>
      match jiraIssueGet w id with
      | JiraError (Some resp) _ => StatusCode resp =? 404
      | _ => false
      end
  | GetUserByEmail email =>
      match slackGetUserByEmail w email with inl _ => true | inr _ => false end
  | InviteUsersToConversation channel users =>
      match slackInviteUsersToConversation w channel users with
      | Some _ => true
      | None => false
      end
  | _ => false
  end.

(** What the scripts print about a failure they pass over. *)
Definition skip_report (w : World) (e : Event) (report : list Event) : Prop :=
  match e with
  | IssueGet _ =>
      ∃ iid, report = [Print (Sprintf ["JIRA issue ID attached to MR does not exist: ";
                                       FormatInt iid; ". Skipping status check."; nl])]
  | GetUserByEmail email =>
      match slackGetUserByEmail w email with
      | inl err =>
          report = [Print (Sprintf ["slack - error looking up user id associated to email ";
                                    email; ": "; err; nl]);
                    Print (Sprintf ["continuing..."; nl])]
      | inr _ => False
      end
  | InviteUsersToConversation channel users =>
      match slackInviteUsersToConversation w channel users with
      | Some err =>
          report = [Print (Sprintf ["slack - error inviting user IDs <"; Join users ",";
                                    "> to channel <"; channel; ">: "; err; nl]);
                    Print (Sprintf ["continuing..."; nl])]
      | None => False
      end
  | _ => False
  end.

(** In the trace, every call that has an error report [R] is the last
    call: what follows it is [tail err], and the run ended as [stop err]
    says. *)
Inductive reported (R : Event → option string) (tail : string → list Event)
          (stop : string → Prop) : list Event → Prop :=
| reported_nil : reported R tail stop []
| reported_cons e tr :
    (∀ err, R e = Some err → tr = tail err ∧ stop err) →
    reported R tail stop tr →
    reported R tail stop (e :: tr).

(** A stage: a call with an error report is the last event and the stage
    returns that error; a stage never exits by itself. *)
Definition stage_reports (R : Event → option string) {A} (m : M A) : Prop :=
  reported R (λ _, []) (λ err, outcome m = Failed err) (trace m)
  ∧ ∀ code, outcome m ≠ Exited code.

(** The script: a call with an error report is followed by the print of
    that error and nothing else, and the script exits with status 1;
    errors never escape [main]. *)
Definition main_reports (R : Event → option string) {A} (m : M A) : Prop :=
  reported R (λ err, [Print (err ++ nl)]) (λ _, outcome m = Exited 1) (trace m)
  ∧ ∀ err, outcome m ≠ Failed err.

(** In the trace, every passed-over failure ([T]) is followed by its
    report ([S]), and the run either returned or made, later on, a call
    that failed fatally ([F]). *)
Inductive continues (T F : Event → bool) (S : Event → list Event → Prop)
          (returned : Prop) : list Event → Prop :=
| continues_nil : continues T F S returned []
| continues_cons e tr :
    (T e = true →
     (∃ report rest, S e report ∧ tr = report ++ rest)
     ∧ (returned ∨ Exists (λ e', F e' = true) tr)) →
    continues T F S returned tr →
    continues T F S returned (e :: tr).

Definition has_returned {A} (m : M A) : Prop := ∃ a, outcome m = Returned a.

Definition passes_over (T F : Event → bool) (S : Event → list Event → Prop)
           {A} (m : M A) : Prop :=
  continues T F S (has_returned m) (trace m).

(** A computation that passes over the failures [T] and ends without
    returning only after a fatal failure. *)
Definition carries_on (T F : Event → bool) (S : Event → list Event → Prop)
           {A} (m : M A) : Prop :=
  passes_over T F S m ∧ (has_returned m ∨ Exists (λ e, F e = true) (trace m)).

(** JIRA answers 404 to every lookup, Slack knows no user and refuses the
    invitation; everything else succeeds. *)
Definition skipWorld : World :=
  {| timeNow := λ _, sampleNow;
     gitlabListProjectMergeRequests :=
       λ _ opt, inr (pagedReply [[mrOld; mrFresh; mrClosedIssue]] (Page (MRListOptions opt)));
     gitlabListBranches := λ _ opt, inr (pagedReply [[bProtected; bFresh]] (Page opt));
     gitlabDeleteBranch := λ _ _, inr okResponse;
     gitlabUpdateMergeRequest := λ _ _ _, inr okResponse;
     jiraIssueGet :=
       λ _, JiraError (Some {| StatusCode := 404; Status := "404 Not Found";
                               Body := ""; NextPage := 0 |}) "issue does not exist";
     slackGetUserByEmail := λ _, inl "users_not_found";
     slackInviteUsersToConversation := λ _ _, Some "already_in_channel";
     slackPostMessage := λ _ _, None |}.

(** The line consists of white-space characters only. *)
Definition all_space (line : string) : Prop :=
  ∃ runes, list_ascii_of_string line = concat runes
           ∧ Forall (λ r, In r ConfigSort.spaceRunes) runes.

(** The items not in [seen], each kept at its first occurrence: what the
    loop of [Unique] appends to its result. *)
Fixpoint unseen {T} `{Countable T} (seen : gset T) (items : list T) : list T :=
  match items with
  | [] => []
  | item :: rest =>
      if bool_decide (item ∈ seen) then unseen seen rest
      else item :: unseen ({[item]} ∪ seen) rest
  end.

(** The kinds of event of a run that sends nothing to Slack. *)
Definition quiet_kinds : list Kind := [KList; KDelete; KUpdate; KIssueGet; KPrint].

(** The e-mail addresses passed to [GetUserByEmail], in call order. *)
Definition lookedUp (tr : list Event) : list string :=
  flat_map (λ e, match e with GetUserByEmail email => [email] | _ => [] end) tr.

(** The address the scripts derive from a GitLab user name. *)
Definition emailOf (username : string) : string := Sprintf [username; "@YOURDOMAIN.com"].

(** What one loop of [getSlackUserIDsFromGitLabUserIDs] leaves under
    [username], starting from the map [m]. *)
Definition resolved (w : World) (mrs : list MergeRequest) (m : gmap string string)
           (username : string) : option string :=
  match slackGetUserByEmail w (emailOf username) with
  | inr slackUserID =>
      if bool_decide (username ∈ List.map AuthorUsername mrs) then Some slackUserID
      else m !! username
  | inl _ => m !! username
  end.

(** The page numbers asked of GitLab's list endpoints, in call order. *)
Definition requestedPages (tr : list Event) : list Z :=
  flat_map (λ e, match e with
                 | ListBranches _ opt => [Page opt]
                 | ListProjectMergeRequests _ opt => [Page (MRListOptions opt)]
                 | _ => []
                 end) tr.

(** A list endpoint that always announces one more page. *)
Definition endless (w : World) : Prop :=
  (∀ pid opt, ∃ branches resp,
      gitlabListBranches w pid opt = inr (branches, resp)
      ∧ StatusCode resp < 400 ∧ NextPage resp ≠ 0)
  ∧ (∀ pid opt, ∃ mrs resp,
        gitlabListProjectMergeRequests w pid opt = inr (mrs, resp)
        ∧ StatusCode resp < 400 ∧ NextPage resp ≠ 0).

(** The issue ids passed to JIRA, in call order. *)
Definition issueLookups (tr : list Event) : list string :=
  flat_map (λ e, match e with IssueGet id => [id] | _ => [] end) tr.

(** The merge requests passed to [UpdateMergeRequest], in call order. *)
Definition closedIIDs (tr : list Event) : list Z :=
  flat_map (λ e, match e with UpdateMergeRequest _ iid _ => [iid] | _ => [] end) tr.

(** The merge requests whose issue [closeExpiredMergeRequests] has to look
    up: not old enough to expire by age, with an issue id in the title. *)
Definition needs_lookup (now : Time) (mr : MergeRequest) : bool :=
  negb (Before (UpdatedAt mr) (AddDate now 0 (-3) 0))
  && negb (String.eqb (getJiraIssueID (Title mr)) "").

(** What the loop of [main] makes of a line. *)
Inductive LineKind :=
| Skipped                  (* empty, or a comment *)
| Blank                    (* white space only: the index panics *)
| Table (name : string)
| Key (name : string).

(** The tests of the loop, in its order. *)
Definition classify (line : string) : LineKind :=
  if String.eqb line "" then Skipped
  else
    match ConfigSort.TrimSpace line with
    | EmptyString => Blank
    | String c0 _ =>
        if Ascii.eqb c0 "#" then Skipped
        else if Regexp.MatchString ConfigSort.tableRegexp line
             then Table (ConfigSort.inner line)
             else Key (ConfigSort.TrimSpace (ConfigSort.beforeEquals line))
    end.

(** The table names, in the order of the file. *)
Definition tableNames (kinds : list LineKind) : list string :=
  flat_map (λ k, match k with Table name => [name] | _ => [] end) kinds.

(** The keys, section by section: the keys before the first table header,
    then the keys under each header. *)
Fixpoint sections (kinds : list LineKind) : list (list string) :=
  match kinds with
  | [] => [[]]
  | Table _ :: rest => [] :: sections rest
  | Key name :: rest =>
      match sections rest with
      | s :: ss => (name :: s) :: ss
      | [] => [[name]]
      end
  | _ :: rest => sections rest
  end.

(** No name is followed by one that sorts strictly before it. *)
Fixpoint in_order (names : list string) : bool :=
  match names with
  | a :: (b :: _) as rest => negb (String.ltb b a) && in_order rest
  | _ => true
  end.

(** The text with every newline preceded by a carriage return. *)
Fixpoint toCRLF (s : list ascii) : list ascii :=
  match s with
  | [] => []
  | c :: rest =>
      if Ascii.eqb c "010" then "013"%char :: "010"%char :: toCRLF rest
      else c :: toCRLF rest
  end.

(** Values for examples. *)
Definition sampleMap : gmap string Z := <["a" := 1]> (<["b" := 2]> ∅).
Definition sampleOrder : list (string * Z) := [("b", 2); ("a", 1)].

(** A world in which GitLab exposes one fresh merge request and no branch. *)
Definition freshWorld : World :=
  sampleWorld sampleNow [] [[mrFresh]]
              (λ _, JiraIssue "Open") (λ email, inr email) (λ _, inr okResponse).

(** A world whose list endpoints never reach a last page. *)
Definition endlessWorld : World :=
  {| timeNow := λ _, sampleNow;
     gitlabListProjectMergeRequests :=
       λ _ _, inr ([], {| StatusCode := 200; Status := "200 OK"; Body := ""; NextPage := 2 |});
     gitlabListBranches :=
       λ _ _, inr ([], {| StatusCode := 200; Status := "200 OK"; Body := ""; NextPage := 2 |});
     gitlabDeleteBranch := λ _ _, inr okResponse;
     gitlabUpdateMergeRequest := λ _ _ _, inr okResponse;
     jiraIssueGet := λ _, JiraIssue "Open";
     slackGetUserByEmail := λ email, inr email;
     slackInviteUsersToConversation := λ _ _, None;
     slackPostMessage := λ _ _, None |}.

(* ===================================================================== *)
(** * Properties *)
(* ===================================================================== *)

(** ** Calendar arithmetic *)

(** Month arithmetic normalises like [time.Date]: 31 May minus three
    months is "31 February", that is 2 March in a leap year. *)
Example AddDate_samples :
  AddDate (Date 2024 5 31) 0 (-3) 0 = Date 2024 3 2
  ∧ AddDate (Date 2023 5 31) 0 (-3) 0 = Date 2023 3 3
  ∧ AddDate (Date 2024 1 15) 0 (-2) 0 = Date 2023 11 15
  ∧ AddDate sampleNow 0 (-6) 0 = Date 2023 12 15
  ∧ daysToDate (dateToDays 2024 2 29) = (2024, 2, 29).
Proof. repeat split; reflexivity. Qed.

(** ** maps.Merge *)

Lemma range_assign_union `{Countable K} {V} (m result : gmap K V) :
  Maps.range_assign m result = m ∪ result.
Proof.
  unfold Maps.range_assign.
  apply (map_fold_weak_ind (λ r m', r = m' ∪ result)).
  - by rewrite (left_id_L ∅ (∪)).
  - intros i x m' r _ ->. by rewrite insert_union_l.
Qed.

Lemma Merge_union `{Countable K} {V} (m1 m2 : gmap K V) :
  Maps.Merge m1 m2 = m1 ∪ m2.
Proof.
  unfold Maps.Merge. rewrite !range_assign_union.
  by rewrite (right_id_L ∅ (∪)).
Qed.

(** C8: the keys of [Merge m1 m2] are the keys of [m1] together with those
    of [m2], and every key is mapped to its value in [m1] when [m1] has
    it and to its value in [m2] otherwise. *)
Theorem Merge_first_wins `{Countable K} {V} (m1 m2 : gmap K V) :
  dom (Maps.Merge m1 m2) = dom m1 ∪ dom m2
  ∧ ∀ k, Maps.Merge m1 m2 !! k =
         match m1 !! k with
         | Some v => Some v
         | None => m2 !! k
         end.
Proof.
  rewrite Merge_union. split.
  - apply dom_union_L.
  - intros k. rewrite lookup_union. destruct (m1 !! k), (m2 !! k); done.
Qed.

(** ** slices.Max and slices.Min *)

Section Extremum.
Context {T : Type} `{Ordered T}.

(** The loop of [extremum], for a predicate that is a strict order: the
    result is the start value or one of the items, and the predicate
    holds of no item (seen before or during the loop) against it. *)
Lemma extremum_loop (predicate : T → T → bool) :
  (∀ a, predicate a a = false) →
  (∀ a b c, predicate a b = true → predicate b c = true → predicate a c = true) →
  ∀ (items : list T) (seen : T → Prop) (result : T),
    (∀ x, seen x → predicate x result = false) →
    let r := fold_left (λ result item, if predicate item result then item else result)
                       items result in
    (r = result ∨ In r items)
    ∧ (∀ x, seen x ∨ In x items → predicate x r = false).
Proof.
  intros Hirr Htr. induction items as [|item items IH]; intros seen result Hseen; simpl.
  - split; [by left|]. intros x [Hx|[]]. by apply Hseen.
  - destruct (predicate item result) eqn:Hp.
    + destruct (IH (λ x, seen x ∨ x = item) item) as [Hin Hall].
      { intros x [Hx| ->]; [|apply Hirr].
        destruct (predicate x item) eqn:Hxi; [|done].
        rewrite <- (Hseen x Hx). symmetry. by apply (Htr x item result). }
      split; [right; destruct Hin as [->|Hin]; [by left|by right]|].
      intros x [Hx|[<-|Hx]]; apply Hall; auto.
    + destruct (IH (λ x, seen x ∨ x = item) result) as [Hin Hall].
      { intros x [Hx| ->]; [by apply Hseen|done]. }
      split; [destruct Hin as [->|Hin]; [by left|by right; right]|].
      intros x [Hx|[<-|Hx]]; apply Hall; auto.
Qed.

Lemma extremum_spec (predicate : T → T → bool) (items : list T) :
  (∀ a, predicate a a = false) →
  (∀ a b c, predicate a b = true → predicate b c = true → predicate a c = true) →
  items ≠ [] →
  In (Slices.extremum items predicate) items
  ∧ ∀ x, In x items → predicate x (Slices.extremum items predicate) = false.
Proof.
  intros Hirr Htr Hne. destruct items as [|item0 rest]; [done|].
  unfold Slices.extremum.
  destruct (extremum_loop predicate Hirr Htr (item0 :: rest) (λ _, False) item0)
    as [Hin Hall]; [by intros x []|].
  split.
  - destruct Hin as [->|Hin]; [by left|done].
  - intros x Hx. apply Hall. by right.
Qed.

(** C9: on the empty slice [Max] and [Min] return the zero value; on a
    non-empty slice [Max] returns an item that no item exceeds and [Min]
    an item that exceeds no item. *)
Theorem Max_Min_extremal :
  Slices.Max (@nil T) = zero ∧ Slices.Min (@nil T) = zero
  ∧ ∀ items : list T, items ≠ [] →
      (In (Slices.Max items) items ∧ ∀ x, In x items → lt (Slices.Max items) x = false)
      ∧ (In (Slices.Min items) items ∧ ∀ x, In x items → lt x (Slices.Min items) = false).
Proof.
  split; [done|]. split; [done|]. intros items Hne. split.
  - apply (extremum_spec Maths.GreaterThan); [| |done]; unfold Maths.GreaterThan.
    + apply lt_irrefl.
    + intros a b c Hab Hbc. by apply (lt_trans c b a).
  - apply (extremum_spec Maths.LessThan); [| |done]; unfold Maths.LessThan.
    + apply lt_irrefl.
    + apply lt_trans.
Qed.

End Extremum.

Lemma Max_Min_extremal_witness :
  [3; 1; 2] ≠ []
  ∧ (In (Slices.Max [3; 1; 2]) [3; 1; 2]
     ∧ ∀ x, In x [3; 1; 2] → lt (Slices.Max [3; 1; 2]) x = false)
  ∧ (In (Slices.Min [3; 1; 2]) [3; 1; 2]
     ∧ ∀ x, In x [3; 1; 2] → lt x (Slices.Min [3; 1; 2]) = false).
Proof.
  split; [discriminate|].
  apply (proj2 (proj2 (@Max_Min_extremal Z _)) [3; 1; 2]). discriminate.
Defined.

Example Max_sample : Slices.Max [3; 1; 2] = 3 ∧ Slices.Min [3; 1; 2] = 1.
Proof. split; reflexivity. Qed.

Example Max_strings :
  Slices.Max ["pear"; "apple"; "plum"]%string = "plum"%string
  ∧ Slices.Min ["pear"; "apple"; "plum"]%string = "apple"%string
  ∧ Slices.Max (@nil string) = ""%string.
Proof. repeat split; reflexivity. Qed.

(** ** Title parsing *)

Section StarLemmas.
Context {R : Type} (p : ascii → bool) (k : list ascii → nat → option R).

Lemma star_then_None (s : list ascii) (pos : nat) :
  (∀ a rest, s = a ++ rest → k rest (pos + length a)%nat = None) →
  Regexp.star_then p k s pos = None.
Proof.
  revert pos. induction s as [|c s IH]; intros pos Hk; simpl.
  - rewrite <- (Hk [] []); [f_equal; simpl; lia|done].
  - assert (k (c :: s) pos = None) as Hhere.
    { rewrite <- (Hk [] (c :: s)); [f_equal; simpl; lia|done]. }
    destruct (p c); [|done]. rewrite IH; [done|].
    intros a rest ->. rewrite <- (Hk (c :: a) rest); [f_equal; simpl; lia|done].
Qed.

Lemma star_then_Some_inv (s : list ascii) (pos : nat) (r : R) :
  Regexp.star_then p k s pos = Some r →
  ∃ a rest, s = a ++ rest ∧ Forall (λ c, p c = true) a
            ∧ k rest (pos + length a)%nat = Some r.
Proof.
  revert pos. induction s as [|c s IH]; intros pos; simpl.
  - intros Hk. exists [], []. simpl. by rewrite Nat.add_0_r.
  - assert (k (c :: s) pos = Some r →
            ∃ a rest, c :: s = a ++ rest ∧ Forall (λ c, p c = true) a
                      ∧ k rest (pos + length a)%nat = Some r) as Hhere.
    { intros Hk. exists [], (c :: s). simpl. by rewrite Nat.add_0_r. }
    destruct (p c) eqn:Hp; [|done].
    destruct (Regexp.star_then p k s (S pos)) eqn:Hs; [|done].
    intros [= ->]. destruct (IH _ Hs) as (a & rest & -> & Ha & Hk).
    exists (c :: a), rest. split; [done|]. split; [by constructor|].
    rewrite <- Hk. f_equal. simpl. lia.
Qed.

(** Greedy: once the repetition succeeds after a run of bytes of the class,
    it succeeds the same way from before the run. *)
Lemma star_then_prefix (a rest : list ascii) (pos : nat) (r : R) :
  Forall (λ c, p c = true) a →
  Regexp.star_then p k rest (pos + length a)%nat = Some r →
  Regexp.star_then p k (a ++ rest) pos = Some r.
Proof.
  intros Ha. revert pos. induction Ha as [|c a Hc Ha IH]; intros pos Hk; simpl.
  - by rewrite Nat.add_0_r in Hk.
  - rewrite Hc, IH; [done|]. rewrite <- Hk. f_equal. simpl. lia.
Qed.

(** At a byte outside the class (or at the end) the repetition is empty. *)
Lemma star_then_stop (rest : list ascii) (pos : nat) :
  match rest with [] => True | c :: _ => p c = false end →
  Regexp.star_then p k rest pos = k rest pos.
Proof. destruct rest as [|c rest]; simpl; [done|]. by intros ->. Qed.

End StarLemmas.

Lemma mrTitleRegex_unfold :
  mrTitleRegex = Regexp.Open 1 :: Regexp.Star Regexp.dot :: mrTitleTail.
Proof. reflexivity. Qed.

(** Whenever the tail of the pattern matches at the beginning of [v], [v]
    begins (after white space) with a bracketed token. *)
Lemma mrTitleTail_inv (v : list ascii) (pos : nat) opens caps r :
  Regexp.matchHere mrTitleTail v pos opens caps = Some r → contains_token v.
Proof.
  unfold mrTitleTail. simpl. intros Hm.
  apply star_then_Some_inv in Hm as (ws & v1 & -> & _ & Hm).
  destruct v1 as [|c1 v1]; [done|]. simpl in Hm.
  destruct (Regexp.lit "[" c1) eqn:Hc1; [|done].
  apply Ascii.eqb_eq in Hc1 as ->.
  destruct v1 as [|a0 v1]; [done|].
  destruct (Regexp.upper_alnum a0) eqn:Ha0; [|done].
  apply star_then_Some_inv in Hm as (a & v2 & -> & Ha & Hm).
  destruct v2 as [|c2 v2]; [done|]. simpl in Hm.
  destruct (Regexp.lit "-" c2) eqn:Hc2; [|done].
  apply Ascii.eqb_eq in Hc2 as ->.
  destruct v2 as [|d0 v2]; [done|].
  destruct (Regexp.digit d0) eqn:Hd0; [|done].
  apply star_then_Some_inv in Hm as (d & v3 & -> & Hd & Hm).
  destruct v3 as [|c3 v3]; [done|]. simpl in Hm.
  destruct (Regexp.lit "]" c3) eqn:Hc3; [|done].
  apply Ascii.eqb_eq in Hc3 as ->.
  exists ws, ((a0 :: a) ++ "-"%char :: d0 :: d), v3. split.
  - by rewrite <- !app_assoc.
  - exists (a0 :: a), (d0 :: d). repeat split; try done; by constructor.
Qed.

Lemma contains_token_app_l (x s : list ascii) :
  contains_token s → contains_token (x ++ s).
Proof.
  intros (x' & tok & y & -> & Htok). exists (x ++ x'), tok, y.
  by rewrite <- app_assoc.
Qed.

(** The whole pattern only matches where a token follows. *)
Lemma mrTitleRegex_inv (s : list ascii) (pos : nat) r :
  Regexp.matchHere mrTitleRegex s pos [] [] = Some r → contains_token s.
Proof.
  rewrite mrTitleRegex_unfold. cbn [Regexp.matchHere]. intros Hm.
  apply star_then_Some_inv in Hm as (a & rest & -> & _ & Hm).
  apply contains_token_app_l. by eapply mrTitleTail_inv.
Qed.

Lemma findFrom_no_token (s : list ascii) (pos : nat) :
  ¬ contains_token s → Regexp.findFrom mrTitleRegex s pos = None.
Proof.
  revert pos. induction s as [|c s IH]; intros pos Hno.
  - simpl Regexp.findFrom.
    destruct (Regexp.matchHere mrTitleRegex [] pos [] []) eqn:Hm; [|done].
    destruct Hno. by eapply mrTitleRegex_inv.
  - cbn [Regexp.findFrom].
    destruct (Regexp.matchHere mrTitleRegex (c :: s) pos [] []) eqn:Hm.
    + destruct Hno. by eapply mrTitleRegex_inv.
    + apply IH. intros Hs. apply Hno. by apply (contains_token_app_l [c]).
Qed.

(** At a bracketed token the tail of the pattern matches, and records
    group 1 as ending here and group 2 as the token. *)
Lemma mrTitleTail_at_token (tok post : list ascii) (pos : nat) opens caps :
  is_token tok →
  Regexp.matchHere mrTitleTail ("["%char :: tok ++ "]"%char :: post) pos opens caps
  = Some ((pos + 2 + length tok)%nat,
          (2, (S pos, (S pos + length tok))) :: (1, (Regexp.start_of 1 opens, pos)) :: caps)%nat.
Proof.
  intros (a & d & -> & Ha0 & Ha & Hd0 & Hd).
  destruct a as [|a0 a]; [done|]. destruct d as [|d0 d]; [done|].
  apply Forall_cons in Ha as [Ha0' Ha]. apply Forall_cons in Hd as [Hd0' Hd].
  unfold mrTitleTail. cbn [skipn mrTitleRegex Regexp.matchHere].
  rewrite star_then_stop by reflexivity.
  cbn [Regexp.matchHere app]. change (Regexp.lit "[" "[") with true. cbv iota.
  rewrite Ha0'.
  rewrite <- app_assoc.
  erewrite star_then_prefix; [reflexivity|exact Ha|].
  rewrite star_then_stop by reflexivity.
  cbn [Regexp.matchHere app]. change (Regexp.lit "-" "-") with true. cbv iota.
  rewrite Hd0'.
  erewrite star_then_prefix; [reflexivity|exact Hd|].
  rewrite star_then_stop by reflexivity.
  cbn [Regexp.matchHere]. change (Regexp.lit "]" "]") with true. cbv iota.
  unfold Regexp.start_of. cbn [find fst snd Nat.eqb length].
  rewrite length_app. cbn [length].
  f_equal. f_equal; [lia|]. f_equal. f_equal. f_equal. lia.
Qed.

Lemma split_at_bracket (a post x z : list ascii) :
  Forall (λ c, c ≠ "["%char) a →
  a ++ post = x ++ "["%char :: z →
  ∃ x', x = a ++ x' ∧ post = x' ++ "["%char :: z.
Proof.
  intros Ha. revert x. induction Ha as [|c a Hc Ha IH]; intros x Heq; simpl in *.
  - by exists x.
  - destruct x as [|c' x]; simplify_eq/=.
    destruct (IH x) as (x' & -> & ->); [done|]. by exists x'.
Qed.

Lemma token_no_bracket (tok : list ascii) :
  is_token tok → Forall (λ c, c ≠ "["%char) tok.
Proof.
  intros (a & d & -> & _ & Ha & _ & Hd).
  apply Forall_app. split; [|constructor].
  - eapply Forall_impl; [exact Ha|]. by intros c Hc ->.
  - done.
  - eapply Forall_impl; [exact Hd|]. by intros c Hc ->.
Qed.

(** A token occurring in what follows an opening bracket and a token starts
    after that token's closing bracket. *)
Lemma contains_token_after (tok post : list ascii) :
  is_token tok → contains_token (tok ++ "]"%char :: post) → contains_token post.
Proof.
  intros Htok (x & tok' & y & Heq & Htok').
  destruct (split_at_bracket (tok ++ ["]"%char]) post x (tok' ++ "]"%char :: y))
    as (x' & _ & ->).
  - apply Forall_app. split; [by apply token_no_bracket|]. by constructor.
  - by rewrite <- app_assoc.
  - by exists x', tok', y.
Qed.

(** On a title whose last bracketed token is [tok], preceded on its line by
    [pre], the pattern matches from the start: group 1 is [pre], group 2 is
    the token. *)
Lemma mrTitleRegex_last_token (pre tok post : list ascii) :
  Forall (λ c, Regexp.dot c = true) pre →
  is_token tok →
  ¬ contains_token post →
  Regexp.matchHere mrTitleRegex (pre ++ "["%char :: tok ++ "]"%char :: post) 0 [] []
  = Some ((length pre + 2 + length tok)%nat,
          [(2, (S (length pre), S (length pre) + length tok)); (1, (0, length pre))])%nat.
Proof.
  intros Hpre Htok Hlast.
  rewrite mrTitleRegex_unfold. cbn [Regexp.matchHere].
  apply star_then_prefix; [done|].
  cbn [Regexp.star_then]. change (Regexp.dot "[") with true. cbv iota.
  rewrite star_then_None.
  - by rewrite mrTitleTail_at_token.
  - intros a rest Heq.
    destruct (Regexp.matchHere mrTitleTail rest _ _ _) eqn:Hm; [|done].
    destruct Hlast. apply (contains_token_after tok); [done|].
    rewrite Heq. apply contains_token_app_l. by eapply mrTitleTail_inv.
Qed.

Lemma slice_middle (x y z : list ascii) :
  Regexp.slice (x ++ y ++ z) (length x) (length x + length y) = y.
Proof.
  unfold Regexp.slice. rewrite drop_app_length.
  replace (length x + length y - length x)%nat with (length y) by lia.
  by rewrite take_app_length.
Qed.

Lemma slice_front (y z : list ascii) :
  Regexp.slice (y ++ z) 0 (length y) = y.
Proof. apply (slice_middle [] y z). Qed.

Lemma findFrom_hit (re : Regexp.Regexp) (s : list ascii) (pos : nat) r :
  Regexp.matchHere re s pos [] [] = Some r →
  Regexp.findFrom re s pos = Some (pos, r).
Proof. intros Hm. destruct s; simpl; by rewrite Hm. Qed.

Lemma FindStringSubmatch_last_token (pre tok post : list ascii) :
  Forall (λ c, Regexp.dot c = true) pre →
  is_token tok →
  ¬ contains_token post →
  Regexp.FindStringSubmatch mrTitleRegex
    (string_of_list_ascii (pre ++ "["%char :: tok ++ "]"%char :: post))
  = [ string_of_list_ascii (pre ++ "["%char :: tok ++ ["]"%char]);
      string_of_list_ascii pre;
      string_of_list_ascii tok ].
Proof.
  intros Hpre Htok Hlast. unfold Regexp.FindStringSubmatch.
  rewrite list_ascii_of_string_of_list_ascii.
  rewrite (findFrom_hit _ _ _ _ (mrTitleRegex_last_token pre tok post Hpre Htok Hlast)).
  cbn [Regexp.NumSubexp mrTitleRegex List.filter length seq map Regexp.group find fst
       Nat.eqb].
  f_equal; [|f_equal; [|f_equal]]; f_equal.
  - replace (pre ++ "["%char :: tok ++ "]"%char :: post)
      with ((pre ++ "["%char :: tok ++ ["]"%char]) ++ post)
      by (by rewrite <- !app_assoc; simpl; rewrite <- app_assoc).
    replace (length pre + 2 + length tok)%nat
      with (length (pre ++ "["%char :: tok ++ ["]"%char])).
    + apply slice_front.
    + rewrite length_app. simpl. rewrite length_app. simpl. lia.
  - apply slice_front.
  - replace (pre ++ "["%char :: tok ++ "]"%char :: post)
      with ((pre ++ ["["%char]) ++ tok ++ "]"%char :: post)
      by (by rewrite <- app_assoc).
    replace (S (length pre)) with (length (pre ++ ["["%char]))
      by (rewrite length_app; simpl; lia).
    apply slice_middle.
Qed.

Lemma FindStringSubmatch_no_token (title : string) :
  ¬ contains_token (list_ascii_of_string title) →
  Regexp.FindStringSubmatch mrTitleRegex title = [].
Proof.
  intros Hno. unfold Regexp.FindStringSubmatch. by rewrite findFrom_no_token.
Qed.

(** What the code does: the last bracketed token of the title is the issue
    reference, and the display title is exactly what precedes its bracket. *)
Lemma parse_last_token (pre tok post : list ascii) :
  Forall (λ c, Regexp.dot c = true) pre →
  is_token tok →
  ¬ contains_token post →
  let title := string_of_list_ascii (pre ++ "["%char :: tok ++ "]"%char :: post) in
  getJiraIssueID title = string_of_list_ascii tok
  ∧ fst (parseMRTitle title) = string_of_list_ascii pre.
Proof.
  intros Hpre Htok Hlast title. unfold getJiraIssueID, parseMRTitle, title.
  by rewrite FindStringSubmatch_last_token.
Qed.

Lemma parse_no_token (title : string) :
  ¬ contains_token (list_ascii_of_string title) →
  parseMRTitle title = (title, "") ∧ getJiraIssueID title = "".
Proof.
  intros Hno. unfold getJiraIssueID, parseMRTitle.
  by rewrite FindStringSubmatch_no_token.
Qed.

Lemma contains_token_bracket (s : list ascii) :
  contains_token s → In "["%char s.
Proof. intros (x & tok & y & -> & _). apply in_app_iff. right. by left. Qed.

(** C3 (as amended): when the last bracketed token of a title is [tok] and
    the text [pre] before it has no newline, the issue reference is [tok]
    (wherever the token stands, text after it is dropped) and the display
    title is [pre], leading white space included, up to white space right
    before the bracket; a title with no bracketed token anywhere is
    returned whole with an empty issue reference. *)
Theorem title_parsing_last_token (title : string) :
  (∀ pre tok post,
      list_ascii_of_string title = pre ++ "["%char :: tok ++ "]"%char :: post →
      Forall (λ c, Regexp.dot c = true) pre →
      is_token tok →
      ¬ contains_token post →
      getJiraIssueID title = string_of_list_ascii tok
      ∧ ∃ ws, Forall (λ c, Regexp.space c = true) ws
              ∧ pre = list_ascii_of_string (fst (parseMRTitle title)) ++ ws)
  ∧ (¬ contains_token (list_ascii_of_string title) →
     parseMRTitle title = (title, "") ∧ getJiraIssueID title = "").
Proof.
  split; [|apply parse_no_token].
  intros pre tok post Heq Hpre Htok Hlast.
  rewrite <- (string_of_list_ascii_of_string title), Heq.
  destruct (parse_last_token pre tok post Hpre Htok Hlast) as [-> ->].
  split; [done|]. exists []. split; [constructor|].
  by rewrite list_ascii_of_string_of_list_ascii, app_nil_r.
Qed.

Lemma title_parsing_last_token_witness :
  getJiraIssueID "Fix [AB-1] tail" = "AB-1"
  ∧ (∃ ws, Forall (λ c, Regexp.space c = true) ws
           ∧ list_ascii_of_string "Fix "
             = list_ascii_of_string (fst (parseMRTitle "Fix [AB-1] tail")) ++ ws)
  ∧ parseMRTitle "plain title" = ("plain title", "")
  ∧ getJiraIssueID "plain title" = "".
Proof.
  split; [|split].
  - apply (proj1 (title_parsing_last_token "Fix [AB-1] tail")
             (list_ascii_of_string "Fix ") (list_ascii_of_string "AB-1")
             (list_ascii_of_string " tail")).
    + reflexivity.
    + repeat constructor.
    + exists (list_ascii_of_string "AB"), (list_ascii_of_string "1").
      repeat split; try discriminate; repeat constructor.
    + intros Hc. apply contains_token_bracket in Hc. simpl in Hc.
      intuition discriminate.
  - apply (proj1 (title_parsing_last_token "Fix [AB-1] tail")
             (list_ascii_of_string "Fix ") (list_ascii_of_string "AB-1")
             (list_ascii_of_string " tail")).
    + reflexivity.
    + repeat constructor.
    + exists (list_ascii_of_string "AB"), (list_ascii_of_string "1").
      repeat split; try discriminate; repeat constructor.
    + intros Hc. apply contains_token_bracket in Hc. simpl in Hc.
      intuition discriminate.
  - apply (proj2 (title_parsing_last_token "plain title")).
    intros Hc. apply contains_token_bracket in Hc. simpl in Hc.
    intuition discriminate.
Defined.

(** The title "Fix [AB-1] tail" does not end in a token, yet its issue
    reference is AB-1 and its display title is "Fix ": the rule as
    specified does not hold. *)
Lemma title_rule_counterexample :
  (¬ ∃ pre tok,
       list_ascii_of_string "Fix [AB-1] tail" = pre ++ "["%char :: tok ++ ["]"%char]
       ∧ is_token tok)
  ∧ getJiraIssueID "Fix [AB-1] tail" = "AB-1"
  ∧ parseMRTitle "Fix [AB-1] tail"
    = ("Fix ", "[<https://jira.YOURDOMAIN.com/browse/AB-1|AB-1>]")
  ∧ ¬ title_rule_as_specified.
Proof.
  assert (¬ ∃ pre tok,
            list_ascii_of_string "Fix [AB-1] tail" = pre ++ "["%char :: tok ++ ["]"%char]
            ∧ is_token tok) as Hend.
  { intros (pre & tok & Heq & _).
    apply (f_equal (@rev ascii)) in Heq.
    rewrite app_comm_cons, app_assoc, rev_app_distr in Heq. simpl in Heq.
    discriminate. }
  split; [exact Hend|]. split; [reflexivity|]. split; [reflexivity|].
  intros Hrule. destruct (Hrule "Fix [AB-1] tail") as [_ Hnone].
  destruct (Hnone Hend) as [_ Hid]. vm_compute in Hid. discriminate.
Qed.

(** On the format the scripts assume, the white space before the bracket
    stays in the display title: the greedy first group takes it, so the
    white-space repetition after it always matches the empty string. *)
Example parseMRTitle_keeps_space :
  parseMRTitle "Title [ISSUE-1234]"
  = ("Title ", "[<https://jira.YOURDOMAIN.com/browse/ISSUE-1234|ISSUE-1234>]").
Proof. reflexivity. Qed.

(** ** Running computations *)

Lemma outcome_bind {A B} (m : M A) (f : A → M B) :
  outcome (m ≫= f)
  = match outcome m with
    | Returned a => outcome (f a)
    | Failed err => Failed err
    | Exited code => Exited code
    | Diverged => Diverged
    end.
Proof.
  destruct m as [t [a|err|code|]]; try reflexivity.
  unfold mbind, M_bind, outcome. simpl. by destruct (f a).
Qed.

Lemma trace_bind {A B} (m : M A) (f : A → M B) :
  trace (m ≫= f)
  = trace m ++ match outcome m with
               | Returned a => trace (f a)
               | _ => []
               end.
Proof.
  destruct m as [t [a|err|code|]]; unfold mbind, M_bind, trace; simpl;
    rewrite ?app_nil_r; try reflexivity.
  by destruct (f a).
Qed.

Lemma outcome_try {A} (m : M A) (handler : string → M A) :
  outcome (try m handler)
  = match outcome m with
    | Failed err => outcome (handler err)
    | o => o
    end.
Proof.
  destruct m as [t [a|err|code|]]; try reflexivity.
  unfold try, outcome. simpl. by destruct (handler err).
Qed.

Lemma trace_try {A} (m : M A) (handler : string → M A) :
  trace (try m handler)
  = trace m ++ match outcome m with
               | Failed err => trace (handler err)
               | _ => []
               end.
Proof.
  destruct m as [t [a|err|code|]]; unfold try, trace; simpl;
    rewrite ?app_nil_r; try reflexivity.
  by destruct (handler err).
Qed.

(** ** Fetch stage: pagination *)

Lemma concat_drop_nth {A} (pages : list (list A)) (i : nat) :
  nth i pages [] ++ concat (drop (S i) pages) = concat (drop i pages).
Proof.
  revert i. induction pages as [|pg pages IH]; intros i.
  - by destruct i.
  - destruct i as [|i]; [done|]. simpl. apply IH.
Qed.

Section Pagination.
Context (w : World).

Lemma getBranchesLoop_all (pages : list (list Branch)) (pid : string) :
  serves_branches w pages →
  ∀ (fuel : nat) (page perPage : Z) (branches : list Branch),
    0 <= page →
    (length pages - Z.to_nat (Z.max page 1 - 1) < fuel)%nat →
    outcome (BranchCleanup.getBranchesLoop w fuel pid
               {| Page := page; PerPage := perPage |} branches)
    = Returned (branches ++ concat (drop (Z.to_nat (Z.max page 1 - 1)) pages)).
Proof.
  intros Hw. induction fuel as [|fuel IH]; intros page perPage branches Hpage Hfuel;
    [lia|].
  cbn [BranchCleanup.getBranchesLoop]. unfold callListBranches.
  rewrite !outcome_bind. cbn [emit outcome snd mret M_ret].
  rewrite Hw. unfold pagedReply. cbn [StatusCode NextPage Page PerPage].
  change (400 <=? 200) with false. cbv iota.
  set (p := Z.max page 1) in *.
  destruct (p <? lenZ pages) eqn:Hlt.
  - apply Z.ltb_lt in Hlt. unfold lenZ in Hlt.
    replace (p + 1 =? 0) with false by (symmetry; apply Z.eqb_neq; lia).
    rewrite IH; [|lia|].
    + f_equal. rewrite <- app_assoc. f_equal.
      replace (Z.to_nat (Z.max (p + 1) 1 - 1)) with (S (Z.to_nat (p - 1))) by lia.
      apply concat_drop_nth.
    + replace (Z.to_nat (Z.max (p + 1) 1 - 1)) with (S (Z.to_nat (p - 1))) by lia.
      lia.
  - apply Z.ltb_ge in Hlt. unfold lenZ in Hlt.
    change (0 =? 0) with true. cbv iota. cbn [mret M_ret outcome snd].
    f_equal. f_equal.
    rewrite <- (concat_drop_nth pages (Z.to_nat (p - 1))).
    rewrite (drop_ge pages (S _)) by lia. simpl. by rewrite app_nil_r.
Qed.

Lemma getMergeRequestsLoop_all (pages : list (list MergeRequest)) (pid : string) :
  serves_merge_requests w pages →
  ∀ (fuel : nat) (state : string) (page perPage : Z) (mergeRequests : list MergeRequest),
    0 <= page →
    (length pages - Z.to_nat (Z.max page 1 - 1) < fuel)%nat →
    outcome (BranchCleanup.getMergeRequestsLoop w fuel pid
               {| State := state; MRListOptions := {| Page := page; PerPage := perPage |} |}
               mergeRequests)
    = Returned (mergeRequests ++ concat (drop (Z.to_nat (Z.max page 1 - 1)) pages)).
Proof.
  intros Hw. induction fuel as [|fuel IH];
    intros state page perPage mergeRequests Hpage Hfuel; [lia|].
  cbn [BranchCleanup.getMergeRequestsLoop]. unfold callListProjectMergeRequests.
  rewrite !outcome_bind. cbn [emit outcome snd mret M_ret].
  rewrite Hw. unfold pagedReply. cbn [StatusCode NextPage Page PerPage MRListOptions State].
  change (400 <=? 200) with false. cbv iota.
  set (p := Z.max page 1) in *.
  destruct (p <? lenZ pages) eqn:Hlt.
  - apply Z.ltb_lt in Hlt. unfold lenZ in Hlt.
    replace (p + 1 =? 0) with false by (symmetry; apply Z.eqb_neq; lia).
    rewrite IH; [|lia|].
    + f_equal. rewrite <- app_assoc. f_equal.
      replace (Z.to_nat (Z.max (p + 1) 1 - 1)) with (S (Z.to_nat (p - 1))) by lia.
      apply concat_drop_nth.
    + replace (Z.to_nat (Z.max (p + 1) 1 - 1)) with (S (Z.to_nat (p - 1))) by lia.
      lia.
  - apply Z.ltb_ge in Hlt. unfold lenZ in Hlt.
    change (0 =? 0) with true. cbv iota. cbn [mret M_ret outcome snd].
    f_equal. f_equal.
    rewrite <- (concat_drop_nth pages (Z.to_nat (p - 1))).
    rewrite (drop_ge pages (S _)) by lia. simpl. by rewrite app_nil_r.
Qed.

End Pagination.

(** C4 (as amended): with enough fuel for one request per page, the second
    script's [getBranches] and [getMergeRequests] return the concatenation
    of all the pages GitLab exposes; the first script's [getMergeRequests]
    returns the first page only. *)
Theorem fetch_all_pages (w : World) (branchPages : list (list Branch))
        (mrPages : list (list MergeRequest)) (pid : string) (fuel : nat) :
  serves_branches w branchPages →
  serves_merge_requests w mrPages →
  (length branchPages < fuel)%nat →
  (length mrPages < fuel)%nat →
  outcome (BranchCleanup.getBranches w fuel pid) = Returned (concat branchPages)
  ∧ outcome (BranchCleanup.getMergeRequests w fuel pid) = Returned (concat mrPages)
  ∧ outcome (MRCleanup.getMergeRequests w) = Returned (nth 0 mrPages []).
Proof.
  intros Hb Hm Hfb Hfm. split; [|split].
  - unfold BranchCleanup.getBranches. rewrite outcome_bind.
    rewrite (getBranchesLoop_all w branchPages pid Hb); [|lia|simpl; lia].
    by rewrite !outcome_bind.
  - unfold BranchCleanup.getMergeRequests. rewrite outcome_bind.
    rewrite (getMergeRequestsLoop_all w mrPages pid Hm); [|lia|simpl; lia].
    by rewrite !outcome_bind.
  - unfold MRCleanup.getMergeRequests, callListProjectMergeRequests.
    rewrite !outcome_bind. cbn [emit outcome snd mret M_ret].
    rewrite Hm. unfold pagedReply. cbn [StatusCode].
    change (400 <? 200) with false. cbv iota.
    by rewrite !outcome_bind.
Qed.

Lemma fetch_all_pages_witness :
  outcome (BranchCleanup.getBranches twoPageWorld 3 "42") = Returned []
  ∧ outcome (BranchCleanup.getMergeRequests twoPageWorld 3 "42")
    = Returned [mrOld; mrFresh]
  ∧ outcome (MRCleanup.getMergeRequests twoPageWorld) = Returned [mrOld].
Proof.
  apply (fetch_all_pages twoPageWorld [] [[mrOld]; [mrFresh]] "42" 3).
  - intros pid opt. reflexivity.
  - intros pid opt. reflexivity.
  - simpl. lia.
  - simpl. lia.
Defined.

(** GitLab exposes two pages of one merge request each; the first script
    returns the first page, not the concatenation of both. *)
Lemma first_script_one_page_counterexample :
  serves_merge_requests twoPageWorld [[mrOld]; [mrFresh]]
  ∧ outcome (MRCleanup.getMergeRequests twoPageWorld) = Returned [mrOld]
  ∧ outcome (MRCleanup.getMergeRequests twoPageWorld)
    ≠ Returned (concat [[mrOld]; [mrFresh]]).
Proof.
  split; [by intros pid opt|]. split; [reflexivity|]. vm_compute. discriminate.
Qed.

(** ** Filter stage *)

Lemma fold_left_select {A} (keep : A → bool) (items acc : list A) :
  fold_left (λ acc x, if keep x then acc ++ [x] else acc) items acc
  = acc ++ List.filter keep items.
Proof.
  revert acc. induction items as [|x items IH]; intros acc; simpl.
  - by rewrite app_nil_r.
  - rewrite IH. destruct (keep x); [|done]. by rewrite <- app_assoc.
Qed.

Section FilterStage.
Context (w : World).

Lemma filterStaleMergeRequests_outcome (now : Time) (mrs : list MergeRequest) :
  outcome (BranchCleanup.filterStaleMergeRequests now mrs)
  = Returned (List.filter (is_stale now) mrs).
Proof.
  unfold BranchCleanup.filterStaleMergeRequests. rewrite !outcome_bind.
  cbn [Printf emit outcome snd mret M_ret]. by rewrite fold_left_select.
Qed.

Lemma getStaleMergeRequests_outcome (now : Time) (mrs : list MergeRequest) :
  outcome (MRCleanup.getStaleMergeRequests now mrs)
  = Returned (List.filter (is_stale now) mrs).
Proof.
  unfold MRCleanup.getStaleMergeRequests. rewrite !outcome_bind.
  cbn [Printf emit outcome snd mret M_ret]. by rewrite fold_left_select.
Qed.

Lemma filterStaleNonProtectedBranches_outcome (now : Time) (branches : list Branch) :
  outcome (BranchCleanup.filterStaleNonProtectedBranches now branches)
  = Returned (List.filter (is_stale_branch now) branches).
Proof.
  unfold BranchCleanup.filterStaleNonProtectedBranches. rewrite !outcome_bind.
  cbn [Printf emit outcome snd mret M_ret]. by rewrite fold_left_select.
Qed.

(** The first loop of [closeExpiredMergeRequests] either fails or returns
    the expired merge requests, in order. *)
Lemma collectExpired_outcome (now : Time) (mrs expiredMRs : list MergeRequest) :
  outcome (BranchCleanup.collectExpired w (AddDate now 0 (-3) 0) mrs expiredMRs)
  = Returned (expiredMRs ++ List.filter (is_expired w now) mrs)
  ∨ ∃ err, outcome (BranchCleanup.collectExpired w (AddDate now 0 (-3) 0) mrs expiredMRs)
           = Failed err.
Proof.
  revert expiredMRs. induction mrs as [|mr mrs IH]; intros expiredMRs.
  - left. simpl. by rewrite app_nil_r.
  - cbn [BranchCleanup.collectExpired List.filter]. unfold is_expired at 1, issue_closed.
    destruct (Before (UpdatedAt mr) (AddDate now 0 (-3) 0)) eqn:Hold; cbn [orb].
    { destruct (IH (expiredMRs ++ [mr])) as [->|[err ->]]; [left|right; by exists err].
      by rewrite <- app_assoc. }
    destruct (String.eqb (getJiraIssueID (Title mr)) "") eqn:Hid; cbn [negb andb].
    { rewrite outcome_bind. cbn [Printf emit outcome snd]. apply IH. }
    unfold callIssueGet. rewrite !outcome_bind. cbn [emit outcome snd mret M_ret].
    destruct (jiraIssueGet w (getJiraIssueID (Title mr))) as [resp err|statusName].
    + destruct resp as [resp|]; [|right; by eexists].
      destruct (StatusCode resp =? 404).
      * rewrite outcome_bind. cbn [Printf emit outcome snd]. apply IH.
      * destruct (400 <=? StatusCode resp); right; by eexists.
    + destruct (String.eqb statusName "Closed").
      * destruct (IH (expiredMRs ++ [mr])) as [->|[err ->]]; [left|right; by exists err].
        by rewrite <- app_assoc.
      * apply IH.
Qed.

Lemma collectExpired_outcome_A (now : Time) (mrs expiredMRs : list MergeRequest) :
  outcome (MRCleanup.collectExpired w (AddDate now 0 (-3) 0) mrs expiredMRs)
  = Returned (expiredMRs ++ List.filter (is_expired w now) mrs)
  ∨ ∃ err, outcome (MRCleanup.collectExpired w (AddDate now 0 (-3) 0) mrs expiredMRs)
           = Failed err.
Proof.
  revert expiredMRs. induction mrs as [|mr mrs IH]; intros expiredMRs.
  - left. simpl. by rewrite app_nil_r.
  - cbn [MRCleanup.collectExpired List.filter]. unfold is_expired at 1, issue_closed.
    destruct (Before (UpdatedAt mr) (AddDate now 0 (-3) 0)) eqn:Hold; cbn [orb].
    { destruct (IH (expiredMRs ++ [mr])) as [->|[err ->]]; [left|right; by exists err].
      by rewrite <- app_assoc. }
    destruct (String.eqb (getJiraIssueID (Title mr)) "") eqn:Hid; cbn [negb andb].
    { rewrite outcome_bind. cbn [Printf emit outcome snd]. apply IH. }
    unfold callIssueGet. rewrite !outcome_bind. cbn [emit outcome snd mret M_ret].
    destruct (jiraIssueGet w (getJiraIssueID (Title mr))) as [resp err|statusName].
    + destruct resp as [resp|]; [|right; by eexists].
      destruct (StatusCode resp =? 404).
      * rewrite outcome_bind. cbn [Printf emit outcome snd]. apply IH.
      * destruct (400 <? StatusCode resp); right; by eexists.
    + destruct (String.eqb statusName "Closed").
      * destruct (IH (expiredMRs ++ [mr])) as [->|[err ->]]; [left|right; by exists err].
        by rewrite <- app_assoc.
      * apply IH.
Qed.

End FilterStage.

(** ** Which events a stage performs *)

Section Only.
Context (ks : list Kind).

Lemma only_ret {A} (a : A) : only ks (mret a).
Proof. constructor. Qed.

Lemma only_fail {A} (err : string) : only ks (@fail A err).
Proof. constructor. Qed.

Lemma only_diverge {A} : only ks (@diverge A).
Proof. constructor. Qed.

Lemma only_emit (e : Event) : In (kind_of e) ks → only ks (emit e).
Proof. intros He. by repeat constructor. Qed.

Lemma only_Printf (text : string) : In KPrint ks → only ks (Printf text).
Proof. apply (only_emit (Print text)). Qed.

Lemma only_outputErrorAndExit {A} (err : string) :
  In KPrint ks → only ks (@outputErrorAndExit A err).
Proof. intros He. by repeat constructor. Qed.

Lemma only_bind {A B} (m : M A) (f : A → M B) :
  only ks m → (∀ a, outcome m = Returned a → only ks (f a)) → only ks (m ≫= f).
Proof.
  unfold only. intros Hm Hf. rewrite trace_bind. apply Forall_app. split; [done|].
  destruct (outcome m); [by apply Hf|constructor..].
Qed.

Lemma only_try {A} (m : M A) (handler : string → M A) :
  only ks m → (∀ err, only ks (handler err)) → only ks (try m handler).
Proof.
  unfold only. intros Hm Hh. rewrite trace_try. apply Forall_app. split; [done|].
  destruct (outcome m); try constructor. apply Hh.
Qed.

End Only.

Lemma only_weaken {A} (ks ks' : list Kind) (m : M A) :
  (∀ k, In k ks → In k ks') → only ks m → only ks' m.
Proof.
  intros Hsub Hm. eapply Forall_impl; [exact Hm|]. intros e. apply Hsub.
Qed.

(** Structural proof of an [only] goal: walk through binds, handlers,
    conditionals and matches down to the single events. *)
Ltac only_step :=
  lazymatch goal with
  | |- only _ (mbind _ _) => apply only_bind; [|intros]
  | |- only _ (try _ _) => apply only_try; [|intros]
  | |- only _ (mret _) => apply only_ret
  | |- only _ (fail _) => apply only_fail
  | |- only _ diverge => apply only_diverge
  | |- only _ (Printf _) => apply only_Printf; simpl; tauto
  | |- only _ (outputErrorAndExit _) => apply only_outputErrorAndExit; simpl; tauto
  | |- only _ (emit _) => apply only_emit; simpl; tauto
  | |- only _ (if ?b then _ else _) => destruct b
  | |- only _ (match ?x with _ => _ end) => destruct x
  | |- only _ (let '(_, _) := ?x in _) => destruct x
  end.

Ltac only_tac := repeat only_step.

Section StageKinds.
Context (w : World).

Lemma only_call_ListBranches ks pid opt :
  In KList ks → only ks (callListBranches w pid opt).
Proof. intros. unfold callListBranches. only_tac. Qed.

Lemma only_call_ListProjectMergeRequests ks pid opt :
  In KList ks → only ks (callListProjectMergeRequests w pid opt).
Proof. intros. unfold callListProjectMergeRequests. only_tac. Qed.

Lemma only_call_DeleteBranch ks pid name :
  In KDelete ks → only ks (callDeleteBranch w pid name).
Proof. intros. unfold callDeleteBranch. only_tac. Qed.

Lemma only_call_UpdateMergeRequest ks pid iid opt :
  In KUpdate ks → only ks (callUpdateMergeRequest w pid iid opt).
Proof. intros. unfold callUpdateMergeRequest. only_tac. Qed.

Lemma only_call_IssueGet ks id : In KIssueGet ks → only ks (callIssueGet w id).
Proof. intros. unfold callIssueGet. only_tac. Qed.

Lemma only_call_GetUserByEmail ks email :
  In KUserLookup ks → only ks (callGetUserByEmail w email).
Proof. intros. unfold callGetUserByEmail. only_tac. Qed.

Lemma only_call_Invite ks channel users :
  In KInvite ks → only ks (callInviteUsersToConversation w channel users).
Proof. intros. unfold callInviteUsersToConversation. only_tac. Qed.

Lemma only_call_PostMessage ks channel blocks :
  In KPost ks → only ks (callPostMessage w channel blocks).
Proof. intros. unfold callPostMessage. only_tac. Qed.

End StageKinds.

Ltac only_call :=
  lazymatch goal with
  | |- only _ (callListBranches _ _ _) => apply only_call_ListBranches
  | |- only _ (callListProjectMergeRequests _ _ _) =>
      apply only_call_ListProjectMergeRequests
  | |- only _ (callDeleteBranch _ _ _) => apply only_call_DeleteBranch
  | |- only _ (callUpdateMergeRequest _ _ _ _) => apply only_call_UpdateMergeRequest
  | |- only _ (callIssueGet _ _) => apply only_call_IssueGet
  | |- only _ (callGetUserByEmail _ _) => apply only_call_GetUserByEmail
  | |- only _ (callInviteUsersToConversation _ _ _) => apply only_call_Invite
  | |- only _ (callPostMessage _ _ _) => apply only_call_PostMessage
  end; simpl; tauto.

Ltac stage_tac := repeat first [only_call | only_step].

Section SharedStageKinds.
Context (w : World).

Lemma only_lookupSlackUsers mrs m :
  only [KUserLookup; KPrint] (lookupSlackUsers w mrs m).
Proof.
  revert m. induction mrs as [|mr mrs IH]; intros m; cbn [lookupSlackUsers];
    stage_tac; apply IH.
Qed.

Lemma only_getSlackUserIDs staleMRs expiredMRs :
  only [KUserLookup; KPrint] (getSlackUserIDsFromGitLabUserIDs w staleMRs expiredMRs).
Proof.
  unfold getSlackUserIDsFromGitLabUserIDs.
  stage_tac; apply only_lookupSlackUsers.
Qed.

Lemma only_invite m channel (isDryRun : bool) :
  only (if isDryRun then [] else [KInvite; KPrint])
       (inviteUsersToSlackChannel w m channel isDryRun).
Proof. unfold inviteUsersToSlackChannel. destruct isDryRun; stage_tac. Qed.

Lemma only_post staleMRs expiredMRs m channel (isDryRun : bool) :
  only (if isDryRun then [] else [KPost])
       (buildAndPostSlackMessage w staleMRs expiredMRs m channel isDryRun).
Proof. unfold buildAndPostSlackMessage. destruct isDryRun; stage_tac. Qed.

End SharedStageKinds.

Section BranchCleanupKinds.
Context (w : World).

Lemma only_parseArgs_B args : only [KPrint] (BranchCleanup.parseArgs args).
Proof. unfold BranchCleanup.parseArgs. stage_tac. Qed.

Lemma only_getBranchesLoop fuel pid opt branches :
  only [KList; KPrint] (BranchCleanup.getBranchesLoop w fuel pid opt branches).
Proof.
  revert opt branches. induction fuel as [|fuel IH]; intros opt branches;
    cbn [BranchCleanup.getBranchesLoop]; stage_tac; apply IH.
Qed.

Lemma only_getBranches fuel pid :
  only [KList; KPrint] (BranchCleanup.getBranches w fuel pid).
Proof.
  unfold BranchCleanup.getBranches. stage_tac. apply only_getBranchesLoop.
Qed.

Lemma only_filterStaleNonProtectedBranches now branches :
  only [KPrint] (BranchCleanup.filterStaleNonProtectedBranches now branches).
Proof. unfold BranchCleanup.filterStaleNonProtectedBranches. stage_tac. Qed.

Lemma only_deleteEach pid staleBranches :
  only [KDelete] (BranchCleanup.deleteEach w pid staleBranches).
Proof.
  induction staleBranches as [|b rest IH]; cbn [BranchCleanup.deleteEach];
    stage_tac; apply IH.
Qed.

Lemma only_deleteStaleBranches staleBranches pid (isDryRun : bool) :
  only (if isDryRun then [] else [KDelete; KPrint])
       (BranchCleanup.deleteStaleBranches w staleBranches pid isDryRun).
Proof.
  unfold BranchCleanup.deleteStaleBranches. destruct isDryRun; stage_tac.
  eapply only_weaken; [|apply only_deleteEach]. simpl. tauto.
Qed.

Lemma only_getMergeRequestsLoop_B fuel pid opt mrs :
  only [KList; KPrint] (BranchCleanup.getMergeRequestsLoop w fuel pid opt mrs).
Proof.
  revert opt mrs. induction fuel as [|fuel IH]; intros opt mrs;
    cbn [BranchCleanup.getMergeRequestsLoop]; stage_tac; apply IH.
Qed.

Lemma only_getMergeRequests_B fuel pid :
  only [KList; KPrint] (BranchCleanup.getMergeRequests w fuel pid).
Proof.
  unfold BranchCleanup.getMergeRequests. stage_tac. apply only_getMergeRequestsLoop_B.
Qed.

Lemma only_filterStaleMergeRequests now mrs :
  only [KPrint] (BranchCleanup.filterStaleMergeRequests now mrs).
Proof. unfold BranchCleanup.filterStaleMergeRequests. stage_tac. Qed.

Lemma only_collectExpired_B t mrs expiredMRs :
  only [KIssueGet; KPrint] (BranchCleanup.collectExpired w t mrs expiredMRs).
Proof.
  revert expiredMRs. induction mrs as [|mr mrs IH]; intros expiredMRs;
    cbn [BranchCleanup.collectExpired]; stage_tac; apply IH.
Qed.

Lemma only_closeEach_B pid expiredMRs :
  only [KUpdate] (BranchCleanup.closeEach w pid expiredMRs).
Proof.
  induction expiredMRs as [|mr rest IH]; cbn [BranchCleanup.closeEach];
    stage_tac; apply IH.
Qed.

Lemma only_closeExpiredMergeRequests_B now mrs pid (isDryRun : bool) :
  only (if isDryRun then [KIssueGet; KPrint] else [KIssueGet; KPrint; KUpdate])
       (BranchCleanup.closeExpiredMergeRequests w now mrs pid isDryRun).
Proof.
  unfold BranchCleanup.closeExpiredMergeRequests. destruct isDryRun; stage_tac.
  - apply only_collectExpired_B.
  - eapply only_weaken; [|apply only_collectExpired_B]. simpl. tauto.
  - eapply only_weaken; [|apply only_closeEach_B]. simpl. tauto.
Qed.

End BranchCleanupKinds.

Section MRCleanupKinds.
Context (w : World).

Lemma only_parseArgs_A args : only [KPrint] (MRCleanup.parseArgs args).
Proof. unfold MRCleanup.parseArgs. stage_tac. Qed.

Lemma only_getMergeRequests_A : only [KList; KPrint] (MRCleanup.getMergeRequests w).
Proof. unfold MRCleanup.getMergeRequests. stage_tac. Qed.

Lemma only_getStaleMergeRequests now mrs :
  only [KPrint] (MRCleanup.getStaleMergeRequests now mrs).
Proof. unfold MRCleanup.getStaleMergeRequests. stage_tac. Qed.

Lemma only_collectExpired_A t mrs expiredMRs :
  only [KIssueGet; KPrint] (MRCleanup.collectExpired w t mrs expiredMRs).
Proof.
  revert expiredMRs. induction mrs as [|mr mrs IH]; intros expiredMRs;
    cbn [MRCleanup.collectExpired]; stage_tac; apply IH.
Qed.

Lemma only_closeEach_A expiredMRs : only [KUpdate] (MRCleanup.closeEach w expiredMRs).
Proof.
  induction expiredMRs as [|mr rest IH]; cbn [MRCleanup.closeEach];
    stage_tac; apply IH.
Qed.

Lemma only_closeExpiredMergeRequests_A now mrs (isDryRun : bool) :
  only (if isDryRun then [KIssueGet; KPrint] else [KIssueGet; KPrint; KUpdate])
       (MRCleanup.closeExpiredMergeRequests w now mrs isDryRun).
Proof.
  unfold MRCleanup.closeExpiredMergeRequests. destruct isDryRun; stage_tac.
  - apply only_collectExpired_A.
  - eapply only_weaken; [|apply only_collectExpired_A]. simpl. tauto.
  - eapply only_weaken; [|apply only_closeEach_A]. simpl. tauto.
Qed.

End MRCleanupKinds.

Lemma only_In {A} (ks : list Kind) (m : M A) (e : Event) :
  only ks m → In e (trace m) → In (kind_of e) ks.
Proof. unfold only. rewrite Forall_forall. intros Hm He. apply Hm. by apply list_elem_of_In. Qed.

Lemma In_trace_bind {A B} (m : M A) (f : A → M B) (e : Event) :
  In e (trace (m ≫= f)) →
  In e (trace m) ∨ ∃ a, outcome m = Returned a ∧ In e (trace (f a)).
Proof.
  rewrite trace_bind, in_app_iff. intros [He|He]; [by left|].
  destruct (outcome m) as [a| | |]; try done. right. by exists a.
Qed.

(** ** Cross-reference and mutation stage: which merge requests are closed *)

Lemma is_expired_spec (w : World) (now : Time) (mr : MergeRequest) :
  is_expired w now mr = true
  ↔ Before (UpdatedAt mr) (AddDate now 0 (-3) 0) = true
    ∨ (getJiraIssueID (Title mr) ≠ ""
       ∧ jiraIssueGet w (getJiraIssueID (Title mr)) = JiraIssue "Closed").
Proof.
  unfold is_expired, issue_closed. rewrite orb_true_iff, andb_true_iff, negb_true_iff.
  rewrite String.eqb_neq.
  destruct (jiraIssueGet w (getJiraIssueID (Title mr))) as [resp err|statusName].
  - split; (intros [?|[? ?]]; [by left|done]).
  - rewrite String.eqb_eq. split; (intros [?|[? Hs]]; [by left|right]).
    + by rewrite Hs.
    + split; [done|]. by injection Hs.
Qed.

Section CloseExpired.
Context (w : World).

Lemma closeEach_In_B pid expiredMRs e :
  In e (trace (BranchCleanup.closeEach w pid expiredMRs)) →
  ∃ mr, In mr expiredMRs
        ∧ e = UpdateMergeRequest (PidString pid) (IID mr) {| StateEvent := "close" |}.
Proof.
  induction expiredMRs as [|mr rest IH]; cbn [BranchCleanup.closeEach]; [done|].
  unfold callUpdateMergeRequest. intros He.
  apply In_trace_bind in He as [He|(r & _ & He)].
  - apply In_trace_bind in He as [[<-|[]]|(? & _ & [])]. exists mr. split; [by left|done].
  - destruct r as [err|resp]; [done|]. destruct (400 <=? StatusCode resp); [done|].
    destruct (IH He) as (mr' & Hin & ->). exists mr'. split; [by right|done].
Qed.

Lemma closeEach_In_A expiredMRs e :
  In e (trace (MRCleanup.closeEach w expiredMRs)) →
  ∃ mr, In mr expiredMRs
        ∧ e = UpdateMergeRequest (PidInt MRCleanup.gitLabSupplyProjectID) (IID mr)
                {| StateEvent := "close" |}.
Proof.
  induction expiredMRs as [|mr rest IH]; cbn [MRCleanup.closeEach]; [done|].
  unfold callUpdateMergeRequest. intros He.
  apply In_trace_bind in He as [He|(r & _ & He)].
  - apply In_trace_bind in He as [[<-|[]]|(? & _ & [])]. exists mr. split; [by left|done].
  - destruct r as [err|resp]; [done|]. destruct (400 <? StatusCode resp); [done|].
    destruct (IH He) as (mr' & Hin & ->). exists mr'. split; [by right|done].
Qed.

Lemma closeExpired_outcome_B now mrs pid isDryRun L :
  outcome (BranchCleanup.closeExpiredMergeRequests w now mrs pid isDryRun) = Returned L →
  L = List.filter (is_expired w now) mrs.
Proof.
  unfold BranchCleanup.closeExpiredMergeRequests. rewrite outcome_bind.
  destruct (collectExpired_outcome w now mrs []) as [->|[err ->]]; [|done].
  rewrite !outcome_bind. cbn [Printf emit outcome snd].
  destruct isDryRun.
  - by intros [= <-].
  - rewrite outcome_bind. destruct (outcome (BranchCleanup.closeEach _ _ _)); try done.
    by intros [= <-].
Qed.

Lemma closeExpired_outcome_A now mrs isDryRun L :
  outcome (MRCleanup.closeExpiredMergeRequests w now mrs isDryRun) = Returned L →
  L = List.filter (is_expired w now) mrs.
Proof.
  unfold MRCleanup.closeExpiredMergeRequests. rewrite outcome_bind.
  destruct (collectExpired_outcome_A w now mrs []) as [->|[err ->]]; [|done].
  rewrite !outcome_bind. cbn [Printf emit outcome snd].
  destruct isDryRun.
  - by intros [= <-].
  - rewrite outcome_bind. destruct (outcome (MRCleanup.closeEach _ _)); try done.
    by intros [= <-].
Qed.

Lemma collectExpired_returns_B now mrs expiredMRs :
  forallb (jira_answers w) mrs = true →
  outcome (BranchCleanup.collectExpired w (AddDate now 0 (-3) 0) mrs expiredMRs)
  = Returned (expiredMRs ++ List.filter (is_expired w now) mrs).
Proof.
  intros Hj. destruct (collectExpired_outcome w now mrs expiredMRs) as [H|[err H]]; [done|].
  exfalso. revert expiredMRs err H.
  induction mrs as [|mr mrs IH]; intros expiredMRs err; [done|].
  cbn [forallb] in Hj. apply andb_prop in Hj as [Hmr Hj]. specialize (IH Hj).
  unfold jira_answers, fatal_failure in Hmr.
  cbn [BranchCleanup.collectExpired].
  destruct (Before (UpdatedAt mr) (AddDate now 0 (-3) 0)); [by apply IH|].
  destruct (String.eqb (getJiraIssueID (Title mr)) "").
  { rewrite outcome_bind. cbn [Printf emit outcome snd]. apply IH. }
  unfold callIssueGet. rewrite !outcome_bind. cbn [emit outcome snd mret M_ret].
  destruct (jiraIssueGet w (getJiraIssueID (Title mr))) as [resp e|statusName].
  - destruct resp as [resp|]; [|done].
    destruct (StatusCode resp =? 404); [|done].
    rewrite outcome_bind. cbn [Printf emit outcome snd]. apply IH.
  - destruct (String.eqb statusName "Closed"); apply IH.
Qed.

Lemma collectExpired_returns_A now mrs expiredMRs :
  forallb (jira_answers w) mrs = true →
  outcome (MRCleanup.collectExpired w (AddDate now 0 (-3) 0) mrs expiredMRs)
  = Returned (expiredMRs ++ List.filter (is_expired w now) mrs).
Proof.
  intros Hj. destruct (collectExpired_outcome_A w now mrs expiredMRs) as [H|[err H]]; [done|].
  exfalso. revert expiredMRs err H.
  induction mrs as [|mr mrs IH]; intros expiredMRs err; [done|].
  cbn [forallb] in Hj. apply andb_prop in Hj as [Hmr Hj]. specialize (IH Hj).
  unfold jira_answers, fatal_failure in Hmr.
  cbn [MRCleanup.collectExpired].
  destruct (Before (UpdatedAt mr) (AddDate now 0 (-3) 0)); [by apply IH|].
  destruct (String.eqb (getJiraIssueID (Title mr)) "").
  { rewrite outcome_bind. cbn [Printf emit outcome snd]. apply IH. }
  unfold callIssueGet. rewrite !outcome_bind. cbn [emit outcome snd mret M_ret].
  destruct (jiraIssueGet w (getJiraIssueID (Title mr))) as [resp e|statusName].
  - destruct resp as [resp|]; [|done].
    destruct (StatusCode resp =? 404); [|done].
    rewrite outcome_bind. cbn [Printf emit outcome snd]. apply IH.
  - destruct (String.eqb statusName "Closed"); apply IH.
Qed.

Lemma closeEach_returns_B pid expiredMRs :
  forallb (close_accepted bad_status_B w (PidString pid)) expiredMRs = true →
  outcome (BranchCleanup.closeEach w pid expiredMRs) = Returned tt.
Proof.
  induction expiredMRs as [|mr rest IH]; cbn [forallb BranchCleanup.closeEach]; [done|].
  intros [Hmr Hrest]%andb_prop. unfold close_accepted, fatal_failure, bad_status_B in Hmr.
  unfold callUpdateMergeRequest. rewrite !outcome_bind. cbn [emit outcome snd mret M_ret].
  destruct (gitlabUpdateMergeRequest w _ _ _) as [err|resp]; [done|].
  destruct (400 <=? StatusCode resp); [done|]. by apply IH.
Qed.

Lemma closeEach_returns_A expiredMRs :
  forallb (close_accepted bad_status_A w (PidInt MRCleanup.gitLabSupplyProjectID))
          expiredMRs = true →
  outcome (MRCleanup.closeEach w expiredMRs) = Returned tt.
Proof.
  induction expiredMRs as [|mr rest IH]; cbn [forallb MRCleanup.closeEach]; [done|].
  intros [Hmr Hrest]%andb_prop. unfold close_accepted, fatal_failure, bad_status_A in Hmr.
  unfold callUpdateMergeRequest. rewrite !outcome_bind. cbn [emit outcome snd mret M_ret].
  destruct (gitlabUpdateMergeRequest w _ _ _) as [err|resp]; [done|].
  destruct (400 <? StatusCode resp); [done|]. by apply IH.
Qed.

Lemma closeExpired_returns_B now mrs pid isDryRun :
  closing_answered bad_status_B w now (PidString pid) mrs isDryRun = true →
  outcome (BranchCleanup.closeExpiredMergeRequests w now mrs pid isDryRun)
  = Returned (List.filter (is_expired w now) mrs).
Proof.
  intros [Hj Hc]%andb_prop.
  unfold BranchCleanup.closeExpiredMergeRequests. rewrite outcome_bind.
  rewrite (collectExpired_returns_B now mrs [] Hj). cbn [app].
  rewrite !outcome_bind. cbn [Printf emit outcome snd].
  destruct isDryRun; [done|]. cbn [orb] in Hc.
  rewrite outcome_bind. by rewrite (closeEach_returns_B pid _ Hc).
Qed.

Lemma closeExpired_returns_A now mrs isDryRun :
  closing_answered bad_status_A w now (PidInt MRCleanup.gitLabSupplyProjectID) mrs isDryRun
  = true →
  outcome (MRCleanup.closeExpiredMergeRequests w now mrs isDryRun)
  = Returned (List.filter (is_expired w now) mrs).
Proof.
  intros [Hj Hc]%andb_prop.
  unfold MRCleanup.closeExpiredMergeRequests. rewrite outcome_bind.
  rewrite (collectExpired_returns_A now mrs [] Hj). cbn [app].
  rewrite !outcome_bind. cbn [Printf emit outcome snd].
  destruct isDryRun; [done|]. cbn [orb] in Hc.
  rewrite outcome_bind. by rewrite (closeEach_returns_A _ Hc).
Qed.

Lemma closeExpired_updates_B now mrs pid isDryRun p iid o :
  In (UpdateMergeRequest p iid o)
     (trace (BranchCleanup.closeExpiredMergeRequests w now mrs pid isDryRun)) →
  isDryRun = false
  ∧ ∃ mr, In mr (List.filter (is_expired w now) mrs) ∧ IID mr = iid.
Proof.
  unfold BranchCleanup.closeExpiredMergeRequests. intros He.
  apply In_trace_bind in He as [He|(L & HL & He)].
  { apply (only_In _ _ _ (only_collectExpired_B w _ _ _)) in He. simpl in He.
    intuition discriminate. }
  destruct (collectExpired_outcome w now mrs []) as [HL'|[err HL']];
    rewrite HL' in HL; [|done]. injection HL as <-.
  apply In_trace_bind in He as [[He|[]]|(_ & _ & He)]; [done|].
  apply In_trace_bind in He as [[He|[]]|(_ & _ & He)]; [done|].
  destruct isDryRun; [done|]. split; [done|].
  apply In_trace_bind in He as [He|(_ & _ & [])].
  apply closeEach_In_B in He as (mr & Hin & [= _ -> _]). by exists mr.
Qed.

Lemma closeExpired_updates_A now mrs isDryRun p iid o :
  In (UpdateMergeRequest p iid o)
     (trace (MRCleanup.closeExpiredMergeRequests w now mrs isDryRun)) →
  isDryRun = false
  ∧ ∃ mr, In mr (List.filter (is_expired w now) mrs) ∧ IID mr = iid.
Proof.
  unfold MRCleanup.closeExpiredMergeRequests. intros He.
  apply In_trace_bind in He as [He|(L & HL & He)].
  { apply (only_In _ _ _ (only_collectExpired_A w _ _ _)) in He. simpl in He.
    intuition discriminate. }
  destruct (collectExpired_outcome_A w now mrs []) as [HL'|[err HL']];
    rewrite HL' in HL; [|done]. injection HL as <-.
  apply In_trace_bind in He as [[He|[]]|(_ & _ & He)]; [done|].
  destruct isDryRun; [done|]. split; [done|].
  apply In_trace_bind in He as [He|(_ & _ & [])].
  apply closeEach_In_A in He as (mr & Hin & [= _ -> _]). by exists mr.
Qed.

End CloseExpired.

Lemma In_expired (w : World) (now : Time) (mrs : list MergeRequest) (mr : MergeRequest) :
  In mr (List.filter (is_expired w now) mrs)
  ↔ In mr mrs ∧ (older_than_months 3 now mr ∨ linked_issue_closed w mr).
Proof. rewrite filter_In, is_expired_spec. reflexivity. Qed.

Lemma In_stale (now : Time) (mrs : list MergeRequest) (mr : MergeRequest) :
  In mr (List.filter (is_stale now) mrs) ↔ In mr mrs ∧ older_than_months 2 now mr.
Proof. rewrite filter_In. reflexivity. Qed.

(** C2: in both scripts, when [closeExpiredMergeRequests] returns its list,
    a merge request is in it exactly when it was last updated before three
    months before now or its linked JIRA issue is closed; every
    [UpdateMergeRequest] call the function makes is for such a merge
    request; and the function does return that list, in the order of its
    input, whenever JIRA answers its lookups and, outside a dry run, GitLab
    accepts the closings. *)
Theorem expired_classification (w : World) (now : Time) (mrs : list MergeRequest)
        (pid : string) (isDryRun : bool) :
  (∀ expiredMRs,
      outcome (BranchCleanup.closeExpiredMergeRequests w now mrs pid isDryRun)
      = Returned expiredMRs →
      ∀ mr, In mr expiredMRs
            ↔ In mr mrs ∧ (older_than_months 3 now mr ∨ linked_issue_closed w mr))
  ∧ (∀ p iid o,
        In (UpdateMergeRequest p iid o)
           (trace (BranchCleanup.closeExpiredMergeRequests w now mrs pid isDryRun)) →
        ∃ mr, IID mr = iid ∧ In mr mrs
              ∧ (older_than_months 3 now mr ∨ linked_issue_closed w mr))
  ∧ (∀ expiredMRs,
        outcome (MRCleanup.closeExpiredMergeRequests w now mrs isDryRun)
        = Returned expiredMRs →
        ∀ mr, In mr expiredMRs
              ↔ In mr mrs ∧ (older_than_months 3 now mr ∨ linked_issue_closed w mr))
  ∧ (∀ p iid o,
        In (UpdateMergeRequest p iid o)
           (trace (MRCleanup.closeExpiredMergeRequests w now mrs isDryRun)) →
        ∃ mr, IID mr = iid ∧ In mr mrs
              ∧ (older_than_months 3 now mr ∨ linked_issue_closed w mr))
  ∧ (closing_answered bad_status_B w now (PidString pid) mrs isDryRun = true →
     outcome (BranchCleanup.closeExpiredMergeRequests w now mrs pid isDryRun)
     = Returned (List.filter (is_expired w now) mrs))
  ∧ (closing_answered bad_status_A w now (PidInt MRCleanup.gitLabSupplyProjectID)
                      mrs isDryRun = true →
     outcome (MRCleanup.closeExpiredMergeRequests w now mrs isDryRun)
     = Returned (List.filter (is_expired w now) mrs)).
Proof.
  split; [|split; [|split; [|split; [|split]]]].
  - intros L HL mr. apply closeExpired_outcome_B in HL as ->. apply In_expired.
  - intros p iid o He. apply closeExpired_updates_B in He as (_ & mr & Hin & Hiid).
    apply In_expired in Hin as [? ?]. by exists mr.
  - intros L HL mr. apply closeExpired_outcome_A in HL as ->. apply In_expired.
  - intros p iid o He. apply closeExpired_updates_A in He as (_ & mr & Hin & Hiid).
    apply In_expired in Hin as [? ?]. by exists mr.
  - apply closeExpired_returns_B.
  - apply closeExpired_returns_A.
Qed.

Lemma expired_classification_witness :
  (∀ mr, In mr [mrOld; mrClosedIssue]
         ↔ In mr [mrOld; mrFresh; mrClosedIssue]
           ∧ (older_than_months 3 sampleNow mr ∨ linked_issue_closed sampleMRWorld mr))
  ∧ (∀ mr, In mr [mrOld; mrClosedIssue]
           ↔ In mr [mrOld; mrFresh; mrClosedIssue]
             ∧ (older_than_months 3 sampleNow mr ∨ linked_issue_closed sampleMRWorld mr))
  ∧ outcome (BranchCleanup.closeExpiredMergeRequests sampleMRWorld sampleNow
               [mrOld; mrFresh; mrClosedIssue] "42" false)
    = Returned [mrOld; mrClosedIssue]
  ∧ outcome (MRCleanup.closeExpiredMergeRequests sampleMRWorld sampleNow
               [mrOld; mrFresh; mrClosedIssue] false)
    = Returned [mrOld; mrClosedIssue].
Proof.
  split; [|split; [|split]].
  - apply (proj1 (expired_classification sampleMRWorld sampleNow
                    [mrOld; mrFresh; mrClosedIssue] "42" false)).
    vm_compute. reflexivity.
  - apply (proj1 (proj2 (proj2 (expired_classification sampleMRWorld sampleNow
                    [mrOld; mrFresh; mrClosedIssue] "42" true)))).
    vm_compute. reflexivity.
  - apply (proj1 (proj2 (proj2 (proj2 (proj2 (expired_classification sampleMRWorld
                    sampleNow [mrOld; mrFresh; mrClosedIssue] "42" false)))))).
    vm_compute. reflexivity.
  - apply (proj2 (proj2 (proj2 (proj2 (proj2 (expired_classification sampleMRWorld
                    sampleNow [mrOld; mrFresh; mrClosedIssue] "42" false)))))).
    vm_compute. reflexivity.
Defined.

Example closeExpired_sample_trace :
  trace (BranchCleanup.closeExpiredMergeRequests sampleMRWorld sampleNow
           [mrOld; mrFresh; mrClosedIssue] "42" false)
  = [ Print (Sprintf ["no JIRA issue ID attached to MR: 2. Skipping status check."; nl]);
      IssueGet "CD-7";
      Print (Sprintf ["expired MRs found: 2"; nl]);
      Print (Sprintf ["internal ID of expired MRs: 1,3"; nl]);
      UpdateMergeRequest (PidString "42") 1 {| StateEvent := "close" |};
      UpdateMergeRequest (PidString "42") 3 {| StateEvent := "close" |} ].
Proof. vm_compute. reflexivity. Qed.

(** ** Stale and expired lists overlap *)

(** C5 (as amended): in both scripts the stale list holds the merge requests
    last updated before two months before now, the expired list those last
    updated before three months before now or with a closed linked issue;
    the lists are selected independently from all merge requests, so a
    merge request is in both exactly when it meets both conditions. *)
Theorem stale_expired_lists (w : World) (now1 now2 : Time) (mrs : list MergeRequest)
        (pid : string) (isDryRun : bool) :
  (∀ staleMRs expiredMRs,
      outcome (BranchCleanup.filterStaleMergeRequests now1 mrs) = Returned staleMRs →
      outcome (BranchCleanup.closeExpiredMergeRequests w now2 mrs pid isDryRun)
      = Returned expiredMRs →
      ∀ mr, (In mr staleMRs ↔ In mr mrs ∧ older_than_months 2 now1 mr)
            ∧ (In mr expiredMRs
               ↔ In mr mrs ∧ (older_than_months 3 now2 mr ∨ linked_issue_closed w mr))
            ∧ (In mr staleMRs ∧ In mr expiredMRs
               ↔ In mr mrs ∧ older_than_months 2 now1 mr
                 ∧ (older_than_months 3 now2 mr ∨ linked_issue_closed w mr)))
  ∧ (∀ staleMRs expiredMRs,
        outcome (MRCleanup.getStaleMergeRequests now1 mrs) = Returned staleMRs →
        outcome (MRCleanup.closeExpiredMergeRequests w now2 mrs isDryRun)
        = Returned expiredMRs →
        ∀ mr, (In mr staleMRs ↔ In mr mrs ∧ older_than_months 2 now1 mr)
              ∧ (In mr expiredMRs
                 ↔ In mr mrs ∧ (older_than_months 3 now2 mr ∨ linked_issue_closed w mr))
              ∧ (In mr staleMRs ∧ In mr expiredMRs
                 ↔ In mr mrs ∧ older_than_months 2 now1 mr
                   ∧ (older_than_months 3 now2 mr ∨ linked_issue_closed w mr))).
Proof.
  split.
  - intros staleMRs expiredMRs Hs He mr.
    rewrite filterStaleMergeRequests_outcome in Hs. injection Hs as <-.
    apply closeExpired_outcome_B in He as ->.
    rewrite In_stale, In_expired. tauto.
  - intros staleMRs expiredMRs Hs He mr.
    rewrite getStaleMergeRequests_outcome in Hs. injection Hs as <-.
    apply closeExpired_outcome_A in He as ->.
    rewrite In_stale, In_expired. tauto.
Qed.

Lemma stale_expired_lists_witness :
  (∀ mr, (In mr [mrOld] ↔ In mr [mrOld; mrFresh; mrClosedIssue]
                           ∧ older_than_months 2 sampleNow mr)
         ∧ (In mr [mrOld; mrClosedIssue]
            ↔ In mr [mrOld; mrFresh; mrClosedIssue]
              ∧ (older_than_months 3 sampleNow mr ∨ linked_issue_closed sampleMRWorld mr))
         ∧ (In mr [mrOld] ∧ In mr [mrOld; mrClosedIssue]
            ↔ In mr [mrOld; mrFresh; mrClosedIssue] ∧ older_than_months 2 sampleNow mr
              ∧ (older_than_months 3 sampleNow mr ∨ linked_issue_closed sampleMRWorld mr)))
  ∧ (∀ mr, (In mr [mrOld] ↔ In mr [mrOld; mrFresh; mrClosedIssue]
                             ∧ older_than_months 2 sampleNow mr)
           ∧ (In mr [mrOld; mrClosedIssue]
              ↔ In mr [mrOld; mrFresh; mrClosedIssue]
                ∧ (older_than_months 3 sampleNow mr ∨ linked_issue_closed sampleMRWorld mr))
           ∧ (In mr [mrOld] ∧ In mr [mrOld; mrClosedIssue]
              ↔ In mr [mrOld; mrFresh; mrClosedIssue] ∧ older_than_months 2 sampleNow mr
                ∧ (older_than_months 3 sampleNow mr ∨ linked_issue_closed sampleMRWorld mr))).
Proof.
  split.
  - apply (proj1 (stale_expired_lists sampleMRWorld sampleNow sampleNow
                    [mrOld; mrFresh; mrClosedIssue] "42" true)).
    + vm_compute. reflexivity.
    + vm_compute. reflexivity.
  - apply (proj2 (stale_expired_lists sampleMRWorld sampleNow sampleNow
                    [mrOld; mrFresh; mrClosedIssue] "42" true)).
    + vm_compute. reflexivity.
    + vm_compute. reflexivity.
Defined.

(** A merge request last updated five months ago is in the stale list and
    in the expired list of the same run. *)
Lemma stale_and_expired_counterexample :
  outcome (BranchCleanup.filterStaleMergeRequests sampleNow [mrOld; mrFresh; mrClosedIssue])
  = Returned [mrOld]
  ∧ outcome (BranchCleanup.closeExpiredMergeRequests sampleMRWorld sampleNow
               [mrOld; mrFresh; mrClosedIssue] "42" true)
    = Returned [mrOld; mrClosedIssue]
  ∧ In mrOld [mrOld] ∧ In mrOld [mrOld; mrClosedIssue].
Proof.
  split; [vm_compute; reflexivity|]. split; [vm_compute; reflexivity|].
  split; by left.
Qed.

(** ** Branch deletion *)

Lemma through_first_failure_all {A} (ok : A → bool) (items : list A) :
  forallb ok items = true → through_first_failure ok items = items.
Proof.
  induction items as [|x rest IH]; simpl; [done|].
  intros [-> Hrest]%andb_true_iff. by rewrite IH.
Qed.

Lemma through_first_failure_prefix {A} (ok : A → bool) (items : list A) :
  through_first_failure ok items `prefix_of` items.
Proof.
  induction items as [|x rest IH]; simpl; [done|].
  apply prefix_cons. destruct (ok x); [done|]. apply prefix_nil.
Qed.

Lemma deletedBranches_app (tr1 tr2 : list Event) :
  deletedBranches (tr1 ++ tr2) = deletedBranches tr1 ++ deletedBranches tr2.
Proof. apply flat_map_app. Qed.

Lemma deletedBranches_none (ks : list Kind) (tr : list Event) :
  ¬ In KDelete ks → Forall (λ e, In (kind_of e) ks) tr → deletedBranches tr = [].
Proof.
  intros Hks. induction 1 as [|e tr He _ IH]; simpl; [done|].
  rewrite IH. destruct e; simpl in *; done.
Qed.

Section DeleteStage.
Context (w : World).

Lemma deleteEach_deleted (pid : string) (staleBranches : list Branch) :
  deletedBranches (trace (BranchCleanup.deleteEach w pid staleBranches))
  = map Name (through_first_failure (delete_ok w pid) staleBranches)
  ∧ (outcome (BranchCleanup.deleteEach w pid staleBranches) = Returned tt
     ↔ forallb (delete_ok w pid) staleBranches = true).
Proof.
  induction staleBranches as [|b rest [IHt IHo]]; [done|].
  cbn [BranchCleanup.deleteEach through_first_failure forallb map].
  unfold callDeleteBranch, delete_ok at 1 3.
  rewrite !trace_bind, !outcome_bind. cbn [emit trace outcome fst snd mret M_ret app].
  destruct (gitlabDeleteBranch w (PidString pid) (Name b)) as [err|resp]; [done|].
  destruct (400 <=? StatusCode resp); [done|].
  cbn [negb andb deletedBranches flat_map app]. split; [|done].
  f_equal. apply IHt.
Qed.

Lemma deleteStaleBranches_deleted (pid : string) (staleBranches : list Branch) :
  deletedBranches (trace (BranchCleanup.deleteStaleBranches w staleBranches pid false))
  = map Name (through_first_failure (delete_ok w pid) staleBranches).
Proof.
  unfold BranchCleanup.deleteStaleBranches. rewrite trace_bind, deletedBranches_app.
  destruct (deleteEach_deleted pid staleBranches) as [-> _].
  destruct (outcome _); by rewrite app_nil_r.
Qed.

End DeleteStage.

Ltac known_stage :=
  eapply only_weaken;
  [|first [ apply only_parseArgs_B | apply only_getBranches
          | apply only_filterStaleNonProtectedBranches | apply only_deleteStaleBranches
          | apply only_getMergeRequests_B | apply only_filterStaleMergeRequests
          | apply only_closeExpiredMergeRequests_B | apply only_getSlackUserIDs
          | apply only_invite | apply only_post | apply only_parseArgs_A
          | apply only_getMergeRequests_A | apply only_getStaleMergeRequests
          | apply only_closeExpiredMergeRequests_A ]];
  [simpl; tauto].

Ltac main_tac := repeat first [known_stage | only_step].

Lemma deletedBranches_only {A} (ks : list Kind) (m : M A) :
  ¬ In KDelete ks → only ks m → deletedBranches (trace m) = [].
Proof. intros Hks Hm. by eapply deletedBranches_none. Qed.

Lemma not_delete_ok : ¬ In KDelete not_delete.
Proof. simpl. intuition discriminate. Qed.

(** What [main] of the second script deletes in a run that is not a dry
    run and in which the branches were fetched. *)
Lemma main_deletedBranches (w : World) (fuel : nat) (args : list string)
      (a : BranchCleanup.Args) (branches : list Branch) :
  outcome (BranchCleanup.parseArgs args) = Returned a →
  BranchCleanup.isDryRun a = false →
  outcome (BranchCleanup.getBranches w fuel (BranchCleanup.gitLabProjectID a))
  = Returned branches →
  deletedBranches (trace (BranchCleanup.main w fuel args))
  = map Name (through_first_failure (delete_ok w (BranchCleanup.gitLabProjectID a))
                (List.filter (is_stale_branch (timeNow w 0)) branches)).
Proof.
  intros Hparse Hdry Hget. unfold BranchCleanup.main.
  rewrite trace_bind, outcome_try, Hparse, deletedBranches_app.
  rewrite (deletedBranches_only not_delete) by (apply not_delete_ok || main_tac).
  rewrite trace_bind, outcome_try, Hget, deletedBranches_app.
  rewrite (deletedBranches_only not_delete) by (apply not_delete_ok || main_tac).
  rewrite trace_bind, filterStaleNonProtectedBranches_outcome, deletedBranches_app.
  rewrite (deletedBranches_only not_delete) by (apply not_delete_ok || main_tac).
  rewrite trace_bind, trace_try, !deletedBranches_app, Hdry.
  rewrite deleteStaleBranches_deleted. cbn [app].
  set (rest := match outcome (try _ _) with Returned _ => _ | _ => [] end).
  set (report := match outcome (BranchCleanup.deleteStaleBranches _ _ _ _) with
                 | Failed _ => _ | _ => [] end).
  assert (deletedBranches report = []) as ->.
  { subst report.
    destruct (outcome (BranchCleanup.deleteStaleBranches _ _ _ _)); reflexivity. }
  assert (deletedBranches rest = []) as ->.
  { subst rest. destruct (outcome (try _ _)); try reflexivity.
    apply (deletedBranches_only not_delete); [apply not_delete_ok|]. main_tac. }
  by rewrite !app_nil_r.
Qed.

(** C7 (as amended): in a run of the second script that is not a dry run,
    [DeleteBranch] is invoked, in list order, for the fetched branches that
    are not protected and whose last commit is before six months before
    now, up to and including the first one whose deletion fails: for all
    of them when no deletion fails, and never for a protected branch. *)
Theorem branch_deletion (w : World) (fuel : nat) (args : list string)
        (a : BranchCleanup.Args) (branches : list Branch) :
  outcome (BranchCleanup.parseArgs args) = Returned a →
  BranchCleanup.isDryRun a = false →
  outcome (BranchCleanup.getBranches w fuel (BranchCleanup.gitLabProjectID a))
  = Returned branches →
  let stale := List.filter (is_stale_branch (timeNow w 0)) branches in
  let deleted := deletedBranches (trace (BranchCleanup.main w fuel args)) in
  deleted = map Name (through_first_failure
                        (delete_ok w (BranchCleanup.gitLabProjectID a)) stale)
  ∧ deleted `prefix_of` map Name stale
  ∧ (forallb (delete_ok w (BranchCleanup.gitLabProjectID a)) stale = true →
     deleted = map Name stale)
  ∧ (∀ name, In name deleted →
             ∃ b, In b branches ∧ Name b = name ∧ Protected b = false
                  ∧ Before (CommittedDate b) (AddDate (timeNow w 0) 0 (-6) 0) = true).
Proof.
  intros Hparse Hdry Hget stale deleted.
  assert (deleted = map Name (through_first_failure
                                (delete_ok w (BranchCleanup.gitLabProjectID a)) stale))
    as Hdel by (by apply main_deletedBranches).
  assert (deleted `prefix_of` map Name stale) as Hpre.
  { rewrite Hdel. destruct (through_first_failure_prefix
                              (delete_ok w (BranchCleanup.gitLabProjectID a)) stale)
      as [k Hk].
    exists (map Name k). by rewrite <- map_app, <- Hk. }
  split; [done|]. split; [done|]. split.
  - intros Hall. by rewrite Hdel, through_first_failure_all.
  - intros name Hin. destruct Hpre as [k Hk].
    assert (In name (map Name stale)) as Hs by (rewrite Hk; apply in_app_iff; by left).
    apply in_map_iff in Hs as (b & <- & Hb). subst stale.
    apply filter_In in Hb as [Hb Hst]. unfold is_stale_branch in Hst.
    apply andb_true_iff in Hst as [Hp Hc]. apply negb_true_iff in Hp.
    by exists b.
Qed.

Lemma branch_deletion_witness :
  deletedBranches (trace (BranchCleanup.main branchWorld 5 sampleArgs))
  = ["feature/old-1"; "feature/old-2"].
Proof.
  apply (proj1 (proj2 (proj2
    (branch_deletion branchWorld 5 sampleArgs
       {| BranchCleanup.gitLabToken := "gitlab-token";
          BranchCleanup.gitLabProjectID := "42";
          BranchCleanup.slackToken := "slack-token";
          BranchCleanup.slackChannelID := "C123";
          BranchCleanup.jiraToken := "jira-token";
          BranchCleanup.isDryRun := false |}
       [bStale1; bProtected; bFresh; bStale2]
       ltac:(reflexivity) ltac:(reflexivity) ltac:(vm_compute; reflexivity))))).
  reflexivity.
Defined.

(** Two branches are unprotected and older than six months; deleting the
    first one fails, the script stops, and [DeleteBranch] is never invoked
    for the second. *)
Lemma branch_deletion_counterexample :
  outcome (BranchCleanup.getBranches failingDeleteWorld 5 "42")
  = Returned [bStale1; bProtected; bFresh; bStale2]
  ∧ map Name (List.filter (is_stale_branch (timeNow failingDeleteWorld 0))
                [bStale1; bProtected; bFresh; bStale2])
    = ["feature/old-1"; "feature/old-2"]
  ∧ deletedBranches (trace (BranchCleanup.main failingDeleteWorld 5 sampleArgs))
    = ["feature/old-1"]
  ∧ outcome (BranchCleanup.main failingDeleteWorld 5 sampleArgs) = Exited 1.
Proof. repeat split; vm_compute; reflexivity. Qed.

(** ** Dry run *)










Section DryRunStages.
Context (w : World).






End DryRunStages.




Section DryRunMain.
Context (w : World).





End DryRunMain.




Example dry_run_sample_reads :
  reads (trace (BranchCleanup.main branchWorld 5 (sampleArgs ++ ["true"])))
  = [ ListBranches (PidString "42") {| Page := 0; PerPage := 100 |};
      ListBranches (PidString "42") {| Page := 2; PerPage := 100 |};
      ListProjectMergeRequests (PidString "42")
        {| State := "opened"; MRListOptions := {| Page := 0; PerPage := 100 |} |};
      IssueGet "CD-7";
      GetUserByEmail "ann.lee@YOURDOMAIN.com";
      GetUserByEmail "ann.lee@YOURDOMAIN.com";
      GetUserByEmail "cy.doe@YOURDOMAIN.com" ].
Proof. vm_compute. reflexivity. Qed.

(** ** Failing calls *)

Section Reported.
Context (R : Event → option string) (R_print : ∀ e, is_print e → R e = None).

Lemma reported_quiet tail stop tr :
  Forall (λ e, R e = None) tr → reported R tail stop tr.
Proof.
  induction 1 as [|e tr He _ IH]; constructor; [|done].
  intros err Herr. by rewrite He in Herr.
Qed.

Lemma reported_none tail stop tr :
  (∀ err, ¬ stop err) → reported R tail stop tr → Forall (λ e, R e = None) tr.
Proof.
  intros Hstop. induction 1 as [|e tr He _ IH]; constructor; [|done].
  destruct (R e) as [err|] eqn:HR; [|done].
  destruct (He err eq_refl) as [_ Hs]. by destruct (Hstop err).
Qed.

Lemma reported_mono tail (stop stop' : string → Prop) tr :
  (∀ err, stop err → stop' err) → reported R tail stop tr → reported R tail stop' tr.
Proof.
  intros Hstop. induction 1 as [|e tr He _ IH]; constructor; [|done].
  intros err Herr. destruct (He err Herr). auto.
Qed.

Lemma reported_app tail stop tr1 tr2 :
  Forall (λ e, R e = None) tr1 → reported R tail stop tr2 →
  reported R tail stop (tr1 ++ tr2).
Proof.
  induction 1 as [|e tr He _ IH]; intros H2; [done|].
  simpl. constructor; [|by apply IH]. intros err Herr. by rewrite He in Herr.
Qed.

Lemma reported_split tail stop pre e post err :
  reported R tail stop (pre ++ e :: post) → R e = Some err →
  post = tail err ∧ stop err.
Proof.
  induction pre as [|e' pre IH]; simpl; inversion 1; subst; auto.
Qed.

Lemma reported_only (ks : list Kind) tail stop tr :
  (∀ e, In (kind_of e) ks → R e = None) →
  Forall (λ e, In (kind_of e) ks) tr → reported R tail stop tr.
Proof.
  intros Hks Htr. apply reported_quiet. eapply Forall_impl; [exact Htr|]. apply Hks.
Qed.

Lemma stage_reports_ret {A} (a : A) : stage_reports R (mret a).
Proof. split; [constructor|done]. Qed.

Lemma stage_reports_fail {A} (err : string) : stage_reports R (@fail A err).
Proof. split; [constructor|done]. Qed.

Lemma stage_reports_diverge {A} : stage_reports R (@diverge A).
Proof. split; [constructor|done]. Qed.

Lemma stage_reports_Printf (text : string) : stage_reports R (Printf text).
Proof.
  split; [|done]. apply reported_quiet. repeat constructor. by apply R_print.
Qed.

Lemma stage_reports_bind {A B} (m : M A) (f : A → M B) :
  stage_reports R m → (∀ a, outcome m = Returned a → stage_reports R (f a)) →
  stage_reports R (m ≫= f).
Proof.
  intros [Hm Hx] Hf. unfold stage_reports. rewrite trace_bind, outcome_bind.
  destruct (outcome m) as [a|err|code|] eqn:Ho; cbv beta iota.
  - destruct (Hf a eq_refl) as [Hfa Hfx]. split; [|done].
    apply reported_app; [|done]. eapply reported_none; [|exact Hm]. done.
  - rewrite app_nil_r. split; [|done].
    eapply reported_mono; [|exact Hm]. by intros err' [= ->].
  - by destruct (Hx code).
  - rewrite app_nil_r. split; [|done].
    eapply reported_mono; [|exact Hm]. done.
Qed.

(** A call followed by the handling of its answer: if the call has an
    error report, the handling is the immediate return of that error. *)
Lemma stage_reports_call {A B} (e : Event) (r : A) (k : A → M B) :
  (∀ err, R e = Some err → k r = fail err) →
  (R e = None → stage_reports R (k r)) →
  stage_reports R ((emit e;; mret r) ≫= k).
Proof.
  intros Hfatal Hok. unfold stage_reports.
  rewrite !trace_bind, !outcome_bind. cbn [emit trace outcome fst snd mret M_ret app].
  destruct (R e) as [err|] eqn:HR.
  - rewrite (Hfatal err eq_refl). cbn [fail trace outcome fst snd].
    split; [|done]. constructor; [|constructor].
    intros err' Herr'. rewrite HR in Herr'. by injection Herr' as ->.
  - destruct (Hok eq_refl) as [Hk Hx]. split; [|done].
    constructor; [|done]. intros err Herr. by rewrite HR in Herr.
Qed.

Lemma main_reports_try {A} (m : M A) :
  stage_reports R m → main_reports R (try m outputErrorAndExit).
Proof.
  intros [Hm Hx]. unfold main_reports. rewrite trace_try, outcome_try.
  destruct (outcome m) as [a|err0|code|] eqn:Ho; cbv beta iota.
  - rewrite app_nil_r. split; [|done].
    apply reported_quiet. eapply reported_none; [|exact Hm]. done.
  - cbn [outputErrorAndExit trace outcome fst snd]. split; [|done].
    clear Hx Ho. induction Hm as [|e tr He _ IH]; simpl.
    + constructor; [|constructor]. intros err Herr.
      by rewrite R_print in Herr.
    + constructor; [|done]. intros err Herr.
      destruct (He err Herr) as [-> Herr0]. injection Herr0 as ->. done.
  - by destruct (Hx code).
  - rewrite app_nil_r. split; [|done].
    apply reported_quiet. eapply reported_none; [|exact Hm]. done.
Qed.

Lemma main_reports_bind {A B} (m : M A) (f : A → M B) :
  main_reports R m → (∀ a, outcome m = Returned a → main_reports R (f a)) →
  main_reports R (m ≫= f).
Proof.
  intros [Hm Hx] Hf. unfold main_reports. rewrite trace_bind, outcome_bind.
  destruct (outcome m) as [a|err|code|] eqn:Ho; cbv beta iota.
  - destruct (Hf a eq_refl) as [Hfa Hfx]. split; [|done].
    apply reported_app; [|done]. eapply reported_none; [|exact Hm]. done.
  - by destruct (Hx err).
  - rewrite app_nil_r. split; [|done].
    eapply reported_mono; [|exact Hm]. by intros _ [= ->].
  - rewrite app_nil_r. split; [|done].
    eapply reported_mono; [|exact Hm]. done.
Qed.

(** A stage that always returns and makes no call with an error report. *)
Lemma main_reports_quiet {A} (ks : list Kind) (m : M A) :
  (∀ e, In (kind_of e) ks → R e = None) →
  only ks m → has_returned m → main_reports R m.
Proof.
  intros Hks Hm [a Ho]. split; [|by rewrite Ho]. by eapply reported_only.
Qed.

End Reported.

(** The Slack stages before the message always return. *)
Section SlackStagesReturn.
Context (w : World).

Lemma lookupSlackUsers_returns mrs m :
  ∃ m', outcome (lookupSlackUsers w mrs m) = Returned m'.
Proof.
  revert m. induction mrs as [|mr mrs IH]; intros m; cbn [lookupSlackUsers].
  - by exists m.
  - unfold callGetUserByEmail. rewrite !outcome_bind. cbn [emit outcome snd mret M_ret].
    destruct (slackGetUserByEmail w _) as [err|uid]; [|apply IH].
    rewrite !outcome_bind. cbn [Printf emit outcome snd]. apply IH.
Qed.

Lemma getSlackUserIDs_returns staleMRs expiredMRs :
  ∃ m, outcome (getSlackUserIDsFromGitLabUserIDs w staleMRs expiredMRs) = Returned m.
Proof.
  unfold getSlackUserIDsFromGitLabUserIDs. rewrite outcome_bind.
  destruct (lookupSlackUsers_returns staleMRs ∅) as [m1 ->]. rewrite outcome_bind.
  destruct (lookupSlackUsers_returns expiredMRs m1) as [m2 ->]. by exists m2.
Qed.

Lemma invite_returns m channel isDryRun :
  ∃ a, outcome (inviteUsersToSlackChannel w m channel isDryRun) = Returned a.
Proof.
  unfold inviteUsersToSlackChannel, callInviteUsersToConversation.
  destruct isDryRun; [by exists tt|].
  rewrite !outcome_bind. cbn [emit outcome snd mret M_ret].
  destruct (slackInviteUsersToConversation w _ _); [|by exists tt].
  rewrite !outcome_bind. by exists tt.
Qed.

End SlackStagesReturn.

Lemma error_report_print (bad : Z → bool) (w : World) (e : Event) :
  is_print e → error_report bad w e = None.
Proof. by destruct e. Qed.

Lemma error_report_kind (bad : Z → bool) (w : World) (e : Event) :
  In (kind_of e) [KUserLookup; KInvite; KPrint] → error_report bad w e = None.
Proof. destruct e; simpl; intuition discriminate. Qed.

Ltac report_iff :=
  split; [intros ?; first [done | eauto] | intros [? ?]; first [done | reflexivity]].

(** The calls that stop the script are the calls that have an error
    report. *)
Lemma fatal_failure_report (bad : Z → bool) (w : World) (e : Event) :
  fatal_failure bad w e = true ↔ ∃ err, error_report bad w e = Some err.
Proof.
  destruct e; cbn [fatal_failure error_report].
  - destruct (gitlabListProjectMergeRequests w pid opt) as [err|[items resp]];
      cbn [response_of gitlab_report]; [|destruct (bad (StatusCode resp))]; report_iff.
  - destruct (gitlabListBranches w pid opt) as [err|[items resp]];
      cbn [response_of gitlab_report]; [|destruct (bad (StatusCode resp))]; report_iff.
  - destruct (gitlabDeleteBranch w pid branch) as [err|resp];
      cbn [gitlab_report]; [|destruct (bad (StatusCode resp))]; report_iff.
  - destruct (gitlabUpdateMergeRequest w pid iid opt) as [err|resp];
      cbn [gitlab_report]; [|destruct (bad (StatusCode resp))]; report_iff.
  - destruct (jiraIssueGet w issueID) as [[resp|] err|statusName];
      [destruct (StatusCode resp =? 404); [|destruct (bad (StatusCode resp))]| |];
      cbn [negb]; report_iff.
  - report_iff.
  - report_iff.
  - destruct (slackPostMessage w channelID blocks) as [err|]; report_iff.
  - report_iff.
Qed.

Ltac stage_reports_step :=
  lazymatch goal with
  | |- stage_reports _ (mret _) => apply stage_reports_ret
  | |- stage_reports _ (fail _) => apply stage_reports_fail
  | |- stage_reports _ diverge => apply stage_reports_diverge
  | |- stage_reports _ (Printf _) => apply stage_reports_Printf, error_report_print
  | |- stage_reports _ (mbind _ (Printf _)) =>
      apply stage_reports_bind; [|intros]
  | |- stage_reports _ (mbind _ (if _ then _ else _)) =>
      apply stage_reports_bind; [|intros]
  | |- stage_reports _ (if ?b then _ else _) => destruct b eqn:?
  end.

Section StageReports.
Context (w : World) (bad : Z → bool).
Local Abbreviation R := (error_report bad w).

(** The GitLab calls: the continuation returns the error at once on a
    client error and on a bad status. *)
Lemma stage_reports_gitlab_list_branches {B} pid opt
      (k : string + list Branch * Response → M B) :
  (∀ err, k (inl err) = fail (Sprintf ["gitlab - http client error: "; err])) →
  (∀ items resp, bad (StatusCode resp) = true →
                 k (inr (items, resp))
                 = fail (Sprintf ["gitlab - invalid request. Status code: "; Status resp;
                                  ". Body: "; Body resp])) →
  (∀ items resp, bad (StatusCode resp) = false → stage_reports R (k (inr (items, resp)))) →
  stage_reports R (callListBranches w pid opt ≫= k).
Proof.
  intros Herr Hbad Hok. unfold callListBranches.
  apply stage_reports_call; cbn [error_report];
    destruct (gitlabListBranches w pid opt) as [err|[items resp]];
    cbn [response_of gitlab_report]; try done.
  - by intros ? [= <-].
  - destruct (bad (StatusCode resp)) eqn:Hb; [|done]. intros ? [= <-]. auto.
  - destruct (bad (StatusCode resp)) eqn:Hb; [done|]. auto.
Qed.

Lemma stage_reports_gitlab_list_mrs {B} pid opt
      (k : string + list MergeRequest * Response → M B) :
  (∀ err, k (inl err) = fail (Sprintf ["gitlab - http client error: "; err])) →
  (∀ items resp, bad (StatusCode resp) = true →
                 k (inr (items, resp))
                 = fail (Sprintf ["gitlab - invalid request. Status code: "; Status resp;
                                  ". Body: "; Body resp])) →
  (∀ items resp, bad (StatusCode resp) = false → stage_reports R (k (inr (items, resp)))) →
  stage_reports R (callListProjectMergeRequests w pid opt ≫= k).
Proof.
  intros Herr Hbad Hok. unfold callListProjectMergeRequests.
  apply stage_reports_call; cbn [error_report];
    destruct (gitlabListProjectMergeRequests w pid opt) as [err|[items resp]];
    cbn [response_of gitlab_report]; try done.
  - by intros ? [= <-].
  - destruct (bad (StatusCode resp)) eqn:Hb; [|done]. intros ? [= <-]. auto.
  - destruct (bad (StatusCode resp)) eqn:Hb; [done|]. auto.
Qed.

Lemma stage_reports_gitlab_delete {B} pid name (k : string + Response → M B) :
  (∀ err, k (inl err) = fail (Sprintf ["gitlab - http client error: "; err])) →
  (∀ resp, bad (StatusCode resp) = true →
           k (inr resp)
           = fail (Sprintf ["gitlab - invalid request. Status code: "; Status resp;
                            ". Body: "; Body resp])) →
  (∀ resp, bad (StatusCode resp) = false → stage_reports R (k (inr resp))) →
  stage_reports R (callDeleteBranch w pid name ≫= k).
Proof.
  intros Herr Hbad Hok. unfold callDeleteBranch.
  apply stage_reports_call; cbn [error_report];
    destruct (gitlabDeleteBranch w pid name) as [err|resp];
    cbn [gitlab_report]; try done.
  - by intros ? [= <-].
  - destruct (bad (StatusCode resp)) eqn:Hb; [|done]. intros ? [= <-]. auto.
  - destruct (bad (StatusCode resp)) eqn:Hb; [done|]. auto.
Qed.

Lemma stage_reports_gitlab_update {B} pid iid opt (k : string + Response → M B) :
  (∀ err, k (inl err) = fail (Sprintf ["gitlab - http client error: "; err])) →
  (∀ resp, bad (StatusCode resp) = true →
           k (inr resp)
           = fail (Sprintf ["gitlab - invalid request. Status code: "; Status resp;
                            ". Body: "; Body resp])) →
  (∀ resp, bad (StatusCode resp) = false → stage_reports R (k (inr resp))) →
  stage_reports R (callUpdateMergeRequest w pid iid opt ≫= k).
Proof.
  intros Herr Hbad Hok. unfold callUpdateMergeRequest.
  apply stage_reports_call; cbn [error_report];
    destruct (gitlabUpdateMergeRequest w pid iid opt) as [err|resp];
    cbn [gitlab_report]; try done.
  - by intros ? [= <-].
  - destruct (bad (StatusCode resp)) eqn:Hb; [|done]. intros ? [= <-]. auto.
  - destruct (bad (StatusCode resp)) eqn:Hb; [done|]. auto.
Qed.

Lemma stage_reports_jira_get {B} id (k : JiraReply → M B) :
  (∀ err, k (JiraError None err) = fail (Sprintf ["jira - http client error: "; err])) →
  (∀ resp err, (StatusCode resp =? 404) = false →
               k (JiraError (Some resp) err)
               = fail (if bad (StatusCode resp)
                       then Sprintf ["jira - invalid request. Status code: "; Status resp;
                                     ". Body: "; Body resp]
                       else Sprintf ["jira - http client error: "; err])) →
  (∀ resp err, (StatusCode resp =? 404) = true →
               stage_reports R (k (JiraError (Some resp) err))) →
  (∀ statusName, stage_reports R (k (JiraIssue statusName))) →
  stage_reports R (callIssueGet w id ≫= k).
Proof.
  intros Herr Hbad H404 Hok. unfold callIssueGet.
  apply stage_reports_call; cbn [error_report];
    destruct (jiraIssueGet w id) as [[resp|] err|statusName]; try done.
  - destruct (StatusCode resp =? 404) eqn:H4; [done|]. rewrite (Hbad _ _ H4).
    destruct (bad (StatusCode resp)); by intros ? [= <-].
  - by intros ? [= <-].
  - destruct (StatusCode resp =? 404) eqn:H4; [auto|]. by destruct (bad (StatusCode resp)).
Qed.

Lemma stage_reports_slack_post {B} channel blocks (k : option string → M B) :
  (∀ err, k (Some err)
          = fail (Sprintf ["slack - error posting message to channel <"; channel;
                           ">: "; err])) →
  stage_reports R (k None) →
  stage_reports R (callPostMessage w channel blocks ≫= k).
Proof.
  intros Herr Hok. unfold callPostMessage.
  apply stage_reports_call; cbn [error_report];
    destruct (slackPostMessage w channel blocks) as [err|]; try done.
  by intros ? [= <-].
Qed.

Lemma stage_reports_post staleMRs expiredMRs m channel isDryRun :
  stage_reports R (buildAndPostSlackMessage w staleMRs expiredMRs m channel isDryRun).
Proof.
  unfold buildAndPostSlackMessage. destruct isDryRun; [apply stage_reports_ret|].
  apply stage_reports_slack_post; [done|apply stage_reports_ret].
Qed.

End StageReports.

Section BranchCleanupReports.
Context (w : World).
Local Abbreviation R := (error_report bad_status_B w).

Lemma stage_reports_parseArgs_B args : stage_reports R (BranchCleanup.parseArgs args).
Proof. unfold BranchCleanup.parseArgs. repeat stage_reports_step. Qed.

Lemma stage_reports_getBranchesLoop fuel pid opt branches :
  stage_reports R (BranchCleanup.getBranchesLoop w fuel pid opt branches).
Proof.
  revert opt branches. induction fuel as [|fuel IH]; intros opt branches;
    cbn [BranchCleanup.getBranchesLoop]; [apply stage_reports_diverge|].
  apply stage_reports_gitlab_list_branches.
  - done.
  - intros items resp Hbad. unfold bad_status_B in Hbad. by rewrite Hbad.
  - intros items resp Hbad. unfold bad_status_B in Hbad. rewrite Hbad.
    destruct (NextPage resp =? 0); [apply stage_reports_ret|apply IH].
Qed.

Lemma stage_reports_getBranches fuel pid :
  stage_reports R (BranchCleanup.getBranches w fuel pid).
Proof.
  unfold BranchCleanup.getBranches.
  apply stage_reports_bind; [apply stage_reports_getBranchesLoop|].
  intros. repeat stage_reports_step.
Qed.

Lemma stage_reports_deleteEach pid staleBranches :
  stage_reports R (BranchCleanup.deleteEach w pid staleBranches).
Proof.
  induction staleBranches as [|b rest IH]; cbn [BranchCleanup.deleteEach];
    [apply stage_reports_ret|].
  apply stage_reports_gitlab_delete.
  - done.
  - intros resp Hbad. unfold bad_status_B in Hbad. by rewrite Hbad.
  - intros resp Hbad. unfold bad_status_B in Hbad. by rewrite Hbad.
Qed.

Lemma stage_reports_deleteStaleBranches staleBranches pid isDryRun :
  stage_reports R (BranchCleanup.deleteStaleBranches w staleBranches pid isDryRun).
Proof.
  unfold BranchCleanup.deleteStaleBranches. destruct isDryRun; [apply stage_reports_ret|].
  apply stage_reports_bind; [apply stage_reports_deleteEach|].
  intros. repeat stage_reports_step.
Qed.

Lemma stage_reports_getMergeRequestsLoop_B fuel pid opt mrs :
  stage_reports R (BranchCleanup.getMergeRequestsLoop w fuel pid opt mrs).
Proof.
  revert opt mrs. induction fuel as [|fuel IH]; intros opt mrs;
    cbn [BranchCleanup.getMergeRequestsLoop]; [apply stage_reports_diverge|].
  apply stage_reports_gitlab_list_mrs.
  - done.
  - intros items resp Hbad. unfold bad_status_B in Hbad. by rewrite Hbad.
  - intros items resp Hbad. unfold bad_status_B in Hbad. rewrite Hbad.
    destruct (NextPage resp =? 0); [apply stage_reports_ret|apply IH].
Qed.

Lemma stage_reports_getMergeRequests_B fuel pid :
  stage_reports R (BranchCleanup.getMergeRequests w fuel pid).
Proof.
  unfold BranchCleanup.getMergeRequests.
  apply stage_reports_bind; [apply stage_reports_getMergeRequestsLoop_B|].
  intros. repeat stage_reports_step.
Qed.

Lemma stage_reports_collectExpired_B t mrs expiredMRs :
  stage_reports R (BranchCleanup.collectExpired w t mrs expiredMRs).
Proof.
  revert expiredMRs. induction mrs as [|mr mrs IH]; intros expiredMRs;
    cbn [BranchCleanup.collectExpired]; [apply stage_reports_ret|].
  destruct (Before (UpdatedAt mr) t); [apply IH|].
  destruct (String.eqb (getJiraIssueID (Title mr)) "").
  { apply stage_reports_bind; [repeat stage_reports_step|].
    intros. apply IH. }
  apply stage_reports_jira_get.
  - done.
  - intros resp err H404. rewrite H404. unfold bad_status_B.
    by destruct (400 <=? StatusCode resp).
  - intros resp err H404. rewrite H404.
    apply stage_reports_bind; [repeat stage_reports_step|].
    intros. apply IH.
  - intros statusName. destruct (String.eqb statusName "Closed"); apply IH.
Qed.

Lemma stage_reports_closeEach_B pid expiredMRs :
  stage_reports R (BranchCleanup.closeEach w pid expiredMRs).
Proof.
  induction expiredMRs as [|mr rest IH]; cbn [BranchCleanup.closeEach];
    [apply stage_reports_ret|].
  apply stage_reports_gitlab_update.
  - done.
  - intros resp Hbad. unfold bad_status_B in Hbad. by rewrite Hbad.
  - intros resp Hbad. unfold bad_status_B in Hbad. by rewrite Hbad.
Qed.

Lemma stage_reports_closeExpired_B now mrs pid isDryRun :
  stage_reports R (BranchCleanup.closeExpiredMergeRequests w now mrs pid isDryRun).
Proof.
  unfold BranchCleanup.closeExpiredMergeRequests.
  apply stage_reports_bind; [apply stage_reports_collectExpired_B|]. intros.
  repeat stage_reports_step.
  apply stage_reports_bind; [apply stage_reports_closeEach_B|].
  intros. apply stage_reports_ret.
Qed.

End BranchCleanupReports.

Section MRCleanupReports.
Context (w : World).
Local Abbreviation R := (error_report bad_status_A w).

Lemma stage_reports_parseArgs_A args : stage_reports R (MRCleanup.parseArgs args).
Proof. unfold MRCleanup.parseArgs. repeat stage_reports_step. Qed.

Lemma stage_reports_getMergeRequests_A : stage_reports R (MRCleanup.getMergeRequests w).
Proof.
  unfold MRCleanup.getMergeRequests. apply stage_reports_gitlab_list_mrs.
  - done.
  - intros items resp Hbad. unfold bad_status_A in Hbad. by rewrite Hbad.
  - intros items resp Hbad. unfold bad_status_A in Hbad. rewrite Hbad.
    repeat stage_reports_step.
Qed.

Lemma stage_reports_collectExpired_A t mrs expiredMRs :
  stage_reports R (MRCleanup.collectExpired w t mrs expiredMRs).
Proof.
  revert expiredMRs. induction mrs as [|mr mrs IH]; intros expiredMRs;
    cbn [MRCleanup.collectExpired]; [apply stage_reports_ret|].
  destruct (Before (UpdatedAt mr) t); [apply IH|].
  destruct (String.eqb (getJiraIssueID (Title mr)) "").
  { apply stage_reports_bind; [repeat stage_reports_step|].
    intros. apply IH. }
  apply stage_reports_jira_get.
  - done.
  - intros resp err H404. rewrite H404. unfold bad_status_A.
    by destruct (400 <? StatusCode resp).
  - intros resp err H404. rewrite H404.
    apply stage_reports_bind; [repeat stage_reports_step|].
    intros. apply IH.
  - intros statusName. destruct (String.eqb statusName "Closed"); apply IH.
Qed.

Lemma stage_reports_closeEach_A expiredMRs :
  stage_reports R (MRCleanup.closeEach w expiredMRs).
Proof.
  induction expiredMRs as [|mr rest IH]; cbn [MRCleanup.closeEach];
    [apply stage_reports_ret|].
  apply stage_reports_gitlab_update.
  - done.
  - intros resp Hbad. unfold bad_status_A in Hbad. by rewrite Hbad.
  - intros resp Hbad. unfold bad_status_A in Hbad. by rewrite Hbad.
Qed.

Lemma stage_reports_closeExpired_A now mrs isDryRun :
  stage_reports R (MRCleanup.closeExpiredMergeRequests w now mrs isDryRun).
Proof.
  unfold MRCleanup.closeExpiredMergeRequests.
  apply stage_reports_bind; [apply stage_reports_collectExpired_A|]. intros.
  repeat stage_reports_step.
  apply stage_reports_bind; [apply stage_reports_closeEach_A|].
  intros. apply stage_reports_ret.
Qed.

End MRCleanupReports.

(** The stages of [main]: the ones whose error makes [main] exit, and the
    ones that always return and make no call with an error report. *)
Ltac main_reports_step :=
  lazymatch goal with
  | |- main_reports _ (mbind _ _) => apply main_reports_bind; [|intros]
  | |- main_reports _ (if ?b then _ else _) => destruct b
  | |- main_reports _ (try _ _) =>
      apply main_reports_try;
      [ apply error_report_print
      | first [ apply stage_reports_parseArgs_B | apply stage_reports_getBranches
              | apply stage_reports_deleteStaleBranches
              | apply stage_reports_getMergeRequests_B
              | apply stage_reports_closeExpired_B | apply stage_reports_post
              | apply stage_reports_parseArgs_A | apply stage_reports_getMergeRequests_A
              | apply stage_reports_closeExpired_A ] ]
  | |- main_reports _ (Printf _) =>
      apply (main_reports_quiet _ [KPrint]);
      [ intros ? ?; apply error_report_kind; simpl in *; tauto
      | main_tac | by eexists ]
  | |- main_reports _ (BranchCleanup.filterStaleNonProtectedBranches _ _) =>
      apply (main_reports_quiet _ [KPrint]);
      [ intros ? ?; apply error_report_kind; simpl in *; tauto
      | main_tac | eexists; apply filterStaleNonProtectedBranches_outcome ]
  | |- main_reports _ (BranchCleanup.filterStaleMergeRequests _ _) =>
      apply (main_reports_quiet _ [KPrint]);
      [ intros ? ?; apply error_report_kind; simpl in *; tauto
      | main_tac | eexists; apply filterStaleMergeRequests_outcome ]
  | |- main_reports _ (MRCleanup.getStaleMergeRequests _ _) =>
      apply (main_reports_quiet _ [KPrint]);
      [ intros ? ?; apply error_report_kind; simpl in *; tauto
      | main_tac | eexists; apply getStaleMergeRequests_outcome ]
  | |- main_reports _ (getSlackUserIDsFromGitLabUserIDs _ _ _) =>
      apply (main_reports_quiet _ [KUserLookup; KPrint]);
      [ intros ? ?; apply error_report_kind; simpl in *; tauto
      | main_tac | apply getSlackUserIDs_returns ]
  | |- main_reports _ (inviteUsersToSlackChannel _ _ _ _) =>
      apply (main_reports_quiet _ [KInvite; KPrint]);
      [ intros ? ?; apply error_report_kind; simpl in *; tauto
      | eapply only_weaken; [|apply only_invite];
        match goal with |- context [if ?b then _ else _] => destruct b end;
        simpl; tauto
      | apply invite_returns ]
  end.

Lemma main_reports_B (w : World) (fuel : nat) (args : list string) :
  main_reports (error_report bad_status_B w) (BranchCleanup.main w fuel args).
Proof. unfold BranchCleanup.main. repeat main_reports_step. Qed.

Lemma main_reports_A (w : World) (args : list string) :
  main_reports (error_report bad_status_A w) (MRCleanup.main w args).
Proof. unfold MRCleanup.main. repeat main_reports_step. Qed.

(** ** Failures that are reported and passed over *)

Section Continues.
Context (T F : Event → bool) (S : Event → list Event → Prop).
Context (T_print : ∀ e, is_print e → T e = false).

Lemma continues_quiet returned tr :
  Forall (λ e, T e = false) tr → continues T F S returned tr.
Proof.
  induction 1 as [|e tr He _ IH]; constructor; [|done].
  intros HT. by rewrite He in HT.
Qed.

Lemma continues_app (returned1 returned : Prop) tr1 tr2 :
  continues T F S returned1 tr1 → continues T F S returned tr2 →
  (returned1 → returned ∨ Exists (λ e, F e = true) tr2) →
  continues T F S returned (tr1 ++ tr2).
Proof.
  intros H1 H2 Hret. induction H1 as [|e tr He _ IH]; [done|].
  simpl. constructor; [|done]. intros HT.
  destruct (He HT) as [(report & rest & HS & ->) Hend]. split.
  - exists report, (rest ++ tr2). by rewrite app_assoc.
  - destruct Hend as [Hr|Hex].
    + destruct (Hret Hr) as [?|Hex]; [by left|]. right. apply Exists_app. by right.
    + right. apply Exists_app. by left.
Qed.

Lemma continues_split returned pre e post :
  continues T F S returned (pre ++ e :: post) → T e = true →
  (∃ report rest, S e report ∧ post = report ++ rest)
  ∧ (returned ∨ Exists (λ e', F e' = true) post).
Proof.
  induction pre as [|e' pre IH]; simpl; inversion 1; subst; auto.
Qed.

Lemma carries_on_passes {A} (m : M A) : carries_on T F S m → passes_over T F S m.
Proof. by intros [? _]. Qed.

Lemma carries_on_ret {A} (a : A) : carries_on T F S (mret a).
Proof. split; [constructor|]. left. by exists a. Qed.

Lemma carries_on_Printf (text : string) : carries_on T F S (Printf text).
Proof.
  split; [|left; by exists tt]. apply continues_quiet.
  repeat constructor. by apply T_print.
Qed.

Lemma has_returned_bind {A B} (m : M A) (f : A → M B) (a : A) :
  outcome m = Returned a → has_returned (m ≫= f) ↔ has_returned (f a).
Proof. intros Ho. unfold has_returned. by rewrite outcome_bind, Ho. Qed.

Lemma carries_on_bind {A B} (m : M A) (f : A → M B) :
  carries_on T F S m → (∀ a, outcome m = Returned a → carries_on T F S (f a)) →
  carries_on T F S (m ≫= f).
Proof.
  intros [Hm Hend] Hf. unfold carries_on, passes_over in *. rewrite trace_bind.
  destruct (outcome m) as [a|err|code|] eqn:Ho.
  - destruct (Hf a eq_refl) as [Hfa Hfend].
    assert (has_returned (m ≫= f) ∨ Exists (λ e, F e = true) (trace (f a))) as Hend'.
    { destruct Hfend as [Hr|?]; [left|by right]. by apply (has_returned_bind m f a). }
    split.
    + eapply continues_app; [exact Hm| |done].
      eapply (continues_app _ _ _ []) in Hfa; [by rewrite app_nil_r in Hfa|constructor|].
      intros Hr. left. by apply (has_returned_bind m f a).
    + destruct Hend' as [?|?]; [by left|]. right. apply Exists_app. by right.
  - assert (¬ has_returned m) as Hn by (intros [a Ha]; congruence).
    destruct Hend as [?|Hex]; [done|]. split; [|right; by rewrite app_nil_r].
    eapply continues_app; [exact Hm|constructor|done].
  - assert (¬ has_returned m) as Hn by (intros [a Ha]; congruence).
    destruct Hend as [?|Hex]; [done|]. split; [|right; by rewrite app_nil_r].
    eapply continues_app; [exact Hm|constructor|done].
  - assert (¬ has_returned m) as Hn by (intros [a Ha]; congruence).
    destruct Hend as [?|Hex]; [done|]. split; [|right; by rewrite app_nil_r].
    eapply continues_app; [exact Hm|constructor|done].
Qed.

(** After a computation that makes no call of the kinds passed over. *)
Lemma passes_over_bind_quiet {A B} (m : M A) (f : A → M B) :
  Forall (λ e, T e = false) (trace m) →
  (∀ a, outcome m = Returned a → passes_over T F S (f a)) →
  passes_over T F S (m ≫= f).
Proof.
  intros Hm Hf. unfold passes_over. rewrite trace_bind.
  eapply continues_app; [by apply (continues_quiet False)| |done].
  destruct (outcome m) as [a|err|code|] eqn:Ho; [|constructor..].
  specialize (Hf a eq_refl). unfold passes_over in Hf.
  eapply (continues_app _ _ _ []) in Hf; [by rewrite app_nil_r in Hf|constructor|].
  intros Hr. left. by apply (has_returned_bind m f a).
Qed.

(** A call followed by the handling of its answer. *)
Lemma carries_on_call {A B} (e : Event) (r : A) (k : A → M B) :
  (F e = true → T e = false ∧ ∃ err, k r = fail err) →
  (T e = true → ∃ report rest, S e report ∧ trace (k r) = report ++ rest) →
  (F e = false → carries_on T F S (k r)) →
  carries_on T F S ((emit e;; mret r) ≫= k).
Proof.
  intros Hfatal Hskip Hok. unfold carries_on, passes_over, has_returned.
  rewrite !trace_bind, !outcome_bind. cbn [emit trace outcome fst snd mret M_ret app].
  destruct (F e) eqn:HF.
  - destruct (Hfatal eq_refl) as [HT [err ->]]. cbn [fail trace outcome fst snd].
    split; [|right; by constructor]. constructor; [|constructor].
    intros HT'. by rewrite HT in HT'.
  - destruct (Hok eq_refl) as [Hk Hend]. split.
    + constructor; [|done]. intros HT. split; [by apply Hskip|done].
    + destruct Hend as [?|?]; [by left|]. right. by apply Exists_cons_tl.
Qed.

Lemma carries_on_try {A} (m : M A) :
  carries_on T F S m → carries_on T F S (try m outputErrorAndExit).
Proof.
  intros [Hm Hend]. unfold carries_on, passes_over, has_returned in *.
  rewrite trace_try, outcome_try.
  destruct (outcome m) as [a|err|code|] eqn:Ho; rewrite ?app_nil_r; [done| |done..].
  cbn [outputErrorAndExit trace outcome fst snd].
  destruct Hend as [[a Ha]|Hex]; [done|]. split.
  - eapply continues_app; [exact Hm| |by intros [? ?]].
    apply continues_quiet. repeat constructor. by apply T_print.
  - right. apply Exists_app. by left.
Qed.

End Continues.

Lemma skipped_failure_print (w : World) (e : Event) :
  is_print e → skipped_failure w e = false.
Proof. by destruct e. Qed.

Lemma skipped_failure_kind (w : World) (e : Event) :
  In (kind_of e) [KList; KDelete; KUpdate; KPost; KPrint] → skipped_failure w e = false.
Proof. destruct e; simpl; intuition discriminate. Qed.

Ltac carries_on_step :=
  lazymatch goal with
  | |- carries_on _ _ _ (mret _) => apply carries_on_ret
  | |- carries_on _ _ _ (Printf _) => apply carries_on_Printf, skipped_failure_print
  | |- carries_on _ _ _ (mbind _ (Printf _)) => apply carries_on_bind; [|intros]
  | |- carries_on _ _ _ (mbind _ (if _ then _ else _)) => apply carries_on_bind; [|intros]
  | |- carries_on _ _ _ (if ?b then _ else _) => destruct b eqn:?
  | |- ∃ err, fail _ = fail err => eexists; reflexivity
  end.

Section StageContinues.
Context (w : World) (bad : Z → bool).
Local Abbreviation T := (skipped_failure w).
Local Abbreviation F := (fatal_failure bad w).
Local Abbreviation S := (skip_report w).

Lemma carries_on_gitlab_update {B} pid iid opt (k : string + Response → M B) :
  (∀ err, ∃ err', k (inl err) = fail err') →
  (∀ resp, bad (StatusCode resp) = true → ∃ err', k (inr resp) = fail err') →
  (∀ resp, bad (StatusCode resp) = false → carries_on T F S (k (inr resp))) →
  carries_on T F S (callUpdateMergeRequest w pid iid opt ≫= k).
Proof.
  intros Herr Hbad Hok. unfold callUpdateMergeRequest.
  apply carries_on_call; cbn [fatal_failure skipped_failure]; [| done |];
    destruct (gitlabUpdateMergeRequest w pid iid opt) as [err|resp]; auto; done.
Qed.

Lemma carries_on_jira_get {B} id (k : JiraReply → M B) :
  (∀ err, ∃ err', k (JiraError None err) = fail err') →
  (∀ resp err, (StatusCode resp =? 404) = false →
               ∃ err', k (JiraError (Some resp) err) = fail err') →
  (∀ resp err, (StatusCode resp =? 404) = true →
               (∃ report rest, S (IssueGet id) report
                               ∧ trace (k (JiraError (Some resp) err)) = report ++ rest)
               ∧ carries_on T F S (k (JiraError (Some resp) err))) →
  (∀ statusName, carries_on T F S (k (JiraIssue statusName))) →
  carries_on T F S (callIssueGet w id ≫= k).
Proof.
  intros Herr Hbad H404 Hok. unfold callIssueGet.
  apply carries_on_call; cbn [fatal_failure skipped_failure];
    destruct (jiraIssueGet w id) as [[resp|] err|statusName]; auto; try done.
  - intros Hf%negb_true_iff. auto.
  - intros H4. by destruct (H404 resp err H4).
  - intros Hf%negb_false_iff. by destruct (H404 resp err Hf).
Qed.

Lemma carries_on_slack_lookup {B} email (k : string + string → M B) :
  (∀ err, (∃ rest, trace (k (inl err))
                   = [Print (Sprintf ["slack - error looking up user id associated to email ";
                                      email; ": "; err; nl]);
                      Print (Sprintf ["continuing..."; nl])] ++ rest)
          ∧ carries_on T F S (k (inl err))) →
  (∀ slackUserID, carries_on T F S (k (inr slackUserID))) →
  carries_on T F S (callGetUserByEmail w email ≫= k).
Proof.
  intros Herr Hok. unfold callGetUserByEmail.
  apply carries_on_call; cbn [fatal_failure skipped_failure skip_report]; [done| |];
    destruct (slackGetUserByEmail w email) as [err|slackUserID]; try done.
  - intros _. destruct (Herr err) as [[rest Hrest] _]. eauto.
  - intros _. by destruct (Herr err).
Qed.

Lemma carries_on_slack_invite {B} channel users (k : option string → M B) :
  (∀ err, (∃ rest, trace (k (Some err))
                   = [Print (Sprintf ["slack - error inviting user IDs <"; Join users ",";
                                      "> to channel <"; channel; ">: "; err; nl]);
                      Print (Sprintf ["continuing..."; nl])] ++ rest)
          ∧ carries_on T F S (k (Some err))) →
  carries_on T F S (k None) →
  carries_on T F S (callInviteUsersToConversation w channel users ≫= k).
Proof.
  intros Herr Hok. unfold callInviteUsersToConversation.
  apply carries_on_call; cbn [fatal_failure skipped_failure skip_report]; [done| |];
    destruct (slackInviteUsersToConversation w channel users) as [err|]; try done.
  - intros _. destruct (Herr err) as [[rest Hrest] _]. eauto.
  - intros _. by destruct (Herr err).
Qed.

Lemma carries_on_slack_post {B} channel blocks (k : option string → M B) :
  (∀ err, ∃ err', k (Some err) = fail err') →
  carries_on T F S (k None) →
  carries_on T F S (callPostMessage w channel blocks ≫= k).
Proof.
  intros Herr Hok. unfold callPostMessage.
  apply carries_on_call; cbn [fatal_failure skipped_failure]; [|done|];
    destruct (slackPostMessage w channel blocks) as [err|]; auto; done.
Qed.

Lemma carries_on_lookupSlackUsers mrs m : carries_on T F S (lookupSlackUsers w mrs m).
Proof.
  revert m. induction mrs as [|mr mrs IH]; intros m; cbn [lookupSlackUsers];
    [apply carries_on_ret|].
  apply carries_on_slack_lookup; [|intros; apply IH].
  intros err. split.
  - eexists. rewrite !trace_bind. cbn [Printf emit trace outcome fst snd]. reflexivity.
  - apply carries_on_bind; [repeat carries_on_step|]. intros.
    apply carries_on_bind; [repeat carries_on_step|]. intros. apply IH.
Qed.

Lemma carries_on_getSlackUserIDs staleMRs expiredMRs :
  carries_on T F S (getSlackUserIDsFromGitLabUserIDs w staleMRs expiredMRs).
Proof.
  unfold getSlackUserIDsFromGitLabUserIDs.
  apply carries_on_bind; [apply carries_on_lookupSlackUsers|]. intros.
  apply carries_on_bind; [apply carries_on_lookupSlackUsers|]. intros.
  apply carries_on_ret.
Qed.

Lemma carries_on_invite m channel isDryRun :
  carries_on T F S (inviteUsersToSlackChannel w m channel isDryRun).
Proof.
  unfold inviteUsersToSlackChannel. destruct isDryRun; [apply carries_on_ret|].
  apply carries_on_slack_invite; [|apply carries_on_ret].
  intros err. split.
  - eexists. rewrite !trace_bind. cbn [Printf emit trace outcome fst snd].
    rewrite app_nil_r. reflexivity.
  - apply carries_on_bind; [repeat carries_on_step|]. intros. repeat carries_on_step.
Qed.

Lemma carries_on_post staleMRs expiredMRs m channel isDryRun :
  carries_on T F S (buildAndPostSlackMessage w staleMRs expiredMRs m channel isDryRun).
Proof.
  unfold buildAndPostSlackMessage. destruct isDryRun; [apply carries_on_ret|].
  apply carries_on_slack_post; [intros err; eexists; reflexivity|apply carries_on_ret].
Qed.

End StageContinues.

Section BranchCleanupContinues.
Context (w : World).
Local Abbreviation T := (skipped_failure w).
Local Abbreviation F := (fatal_failure bad_status_B w).
Local Abbreviation S := (skip_report w).

Lemma carries_on_collectExpired_B t mrs expiredMRs :
  carries_on T F S (BranchCleanup.collectExpired w t mrs expiredMRs).
Proof.
  revert expiredMRs. induction mrs as [|mr mrs IH]; intros expiredMRs;
    cbn [BranchCleanup.collectExpired]; [apply carries_on_ret|].
  destruct (Before (UpdatedAt mr) t); [apply IH|].
  destruct (String.eqb (getJiraIssueID (Title mr)) "").
  { apply carries_on_bind; [repeat carries_on_step|]. intros. apply IH. }
  apply carries_on_jira_get.
  - intros err. eexists. reflexivity.
  - intros resp err H404. rewrite H404. destruct (400 <=? StatusCode resp); eexists; reflexivity.
  - intros resp err H404. rewrite H404. split.
    + eexists _, _. split; [by exists (IID mr)|].
      rewrite !trace_bind. cbn [Printf emit trace outcome fst snd]. reflexivity.
    + apply carries_on_bind; [repeat carries_on_step|]. intros. apply IH.
  - intros statusName. destruct (String.eqb statusName "Closed"); apply IH.
Qed.

Lemma carries_on_closeEach_B pid expiredMRs :
  carries_on T F S (BranchCleanup.closeEach w pid expiredMRs).
Proof.
  induction expiredMRs as [|mr rest IH]; cbn [BranchCleanup.closeEach];
    [apply carries_on_ret|].
  apply carries_on_gitlab_update.
  - intros err. eexists. reflexivity.
  - intros resp Hbad. unfold bad_status_B in Hbad. rewrite Hbad. eexists. reflexivity.
  - intros resp Hbad. unfold bad_status_B in Hbad. by rewrite Hbad.
Qed.

Lemma carries_on_closeExpired_B now mrs pid isDryRun :
  carries_on T F S (BranchCleanup.closeExpiredMergeRequests w now mrs pid isDryRun).
Proof.
  unfold BranchCleanup.closeExpiredMergeRequests.
  apply carries_on_bind; [apply carries_on_collectExpired_B|]. intros.
  repeat carries_on_step.
  apply carries_on_bind; [apply carries_on_closeEach_B|]. intros. apply carries_on_ret.
Qed.

End BranchCleanupContinues.

Section MRCleanupContinues.
Context (w : World).
Local Abbreviation T := (skipped_failure w).
Local Abbreviation F := (fatal_failure bad_status_A w).
Local Abbreviation S := (skip_report w).

Lemma carries_on_collectExpired_A t mrs expiredMRs :
  carries_on T F S (MRCleanup.collectExpired w t mrs expiredMRs).
Proof.
  revert expiredMRs. induction mrs as [|mr mrs IH]; intros expiredMRs;
    cbn [MRCleanup.collectExpired]; [apply carries_on_ret|].
  destruct (Before (UpdatedAt mr) t); [apply IH|].
  destruct (String.eqb (getJiraIssueID (Title mr)) "").
  { apply carries_on_bind; [repeat carries_on_step|]. intros. apply IH. }
  apply carries_on_jira_get.
  - intros err. eexists. reflexivity.
  - intros resp err H404. rewrite H404. destruct (400 <? StatusCode resp); eexists; reflexivity.
  - intros resp err H404. rewrite H404. split.
    + eexists _, _. split; [by exists (IID mr)|].
      rewrite !trace_bind. cbn [Printf emit trace outcome fst snd]. reflexivity.
    + apply carries_on_bind; [repeat carries_on_step|]. intros. apply IH.
  - intros statusName. destruct (String.eqb statusName "Closed"); apply IH.
Qed.

Lemma carries_on_closeEach_A expiredMRs :
  carries_on T F S (MRCleanup.closeEach w expiredMRs).
Proof.
  induction expiredMRs as [|mr rest IH]; cbn [MRCleanup.closeEach];
    [apply carries_on_ret|].
  apply carries_on_gitlab_update.
  - intros err. eexists. reflexivity.
  - intros resp Hbad. unfold bad_status_A in Hbad. rewrite Hbad. eexists. reflexivity.
  - intros resp Hbad. unfold bad_status_A in Hbad. by rewrite Hbad.
Qed.

Lemma carries_on_closeExpired_A now mrs isDryRun :
  carries_on T F S (MRCleanup.closeExpiredMergeRequests w now mrs isDryRun).
Proof.
  unfold MRCleanup.closeExpiredMergeRequests.
  apply carries_on_bind; [apply carries_on_collectExpired_A|]. intros.
  repeat carries_on_step.
  apply carries_on_bind; [apply carries_on_closeEach_A|]. intros. apply carries_on_ret.
Qed.

End MRCleanupContinues.

(** The stages of [main] before the closing of merge requests make no call
    of the kinds passed over; the ones from there on carry on. *)
Ltac quiet_stage :=
  apply passes_over_bind_quiet;
  [ eapply Forall_impl; [|intros ?; apply skipped_failure_kind];
    match goal with
    | |- Forall _ (trace ?m) => change (only [KList; KDelete; KUpdate; KPost; KPrint] m)
    end;
    try match goal with
        | |- context [BranchCleanup.isDryRun ?a] => destruct (BranchCleanup.isDryRun a)
        end;
    main_tac
  | intros ].

Ltac carries_on_main :=
  lazymatch goal with
  | |- carries_on _ _ _ (mbind _ _) => apply carries_on_bind; [|intros]
  | |- carries_on _ _ _ (if ?b then _ else _) => destruct b
  | |- carries_on _ _ _ (try _ _) =>
      apply carries_on_try;
      [ apply skipped_failure_print
      | first [ apply carries_on_closeExpired_B | apply carries_on_closeExpired_A
              | apply carries_on_post ] ]
  | |- carries_on _ _ _ (Printf _) => apply carries_on_Printf, skipped_failure_print
  | |- carries_on _ _ _ (getSlackUserIDsFromGitLabUserIDs _ _ _) =>
      apply carries_on_getSlackUserIDs
  | |- carries_on _ _ _ (inviteUsersToSlackChannel _ _ _ _) => apply carries_on_invite
  end.

Lemma passes_over_main_B (w : World) (fuel : nat) (args : list string) :
  passes_over (skipped_failure w) (fatal_failure bad_status_B w) (skip_report w)
              (BranchCleanup.main w fuel args).
Proof.
  unfold BranchCleanup.main. do 6 quiet_stage.
  apply carries_on_passes.
  repeat carries_on_main.
Qed.

Lemma passes_over_main_A (w : World) (args : list string) :
  passes_over (skipped_failure w) (fatal_failure bad_status_A w) (skip_report w)
              (MRCleanup.main w args).
Proof.
  unfold MRCleanup.main. do 3 quiet_stage.
  apply carries_on_passes.
  repeat carries_on_main.
Qed.

(** ** After a Slack failure the message is still posted *)

Lemma later_event {E} (Q : E → Prop) (t r pre post : list E) (e : E) :
  Forall Q t → ¬ Q e → t ++ r = pre ++ e :: post → ∃ pre', r = pre' ++ e :: post.
Proof.
  intros Ht He. revert pre. induction Ht as [|x t Hx _ IH]; intros pre Heq.
  - by exists pre.
  - destruct pre as [|y pre]; simpl in Heq; injection Heq as -> Heq; [done|].
    by apply (IH pre).
Qed.

(** An event of a kind that a computation does not make is an event of
    what runs after it. *)
Lemma after_quiet_bind {A B} (ks : list Kind) (m : M A) (f : A → M B) pre e post :
  trace (m ≫= f) = pre ++ e :: post → only ks m → ¬ In (kind_of e) ks →
  ∃ a pre', outcome m = Returned a ∧ trace (f a) = pre' ++ e :: post.
Proof.
  rewrite trace_bind. intros Htr Hm He.
  destruct (later_event _ _ _ _ _ _ Hm He Htr) as [pre' Hr].
  destruct (outcome m) as [a| | |]; [eauto|by destruct pre'..].
Qed.

Lemma post_follows (l r pre post : list Event) (x e : Event) :
  kind_of x = KPost → In (kind_of e) [KUserLookup; KInvite] → Forall is_print r →
  l ++ x :: r = pre ++ e :: post → Exists (λ e', kind_of e' = KPost) post.
Proof.
  intros Hx He Hr. revert pre. induction l as [|y l IH]; intros pre Heq.
  - destruct pre as [|z pre]; simpl in Heq; injection Heq as -> Heq.
    + rewrite Hx in He. simpl in He. intuition discriminate.
    + subst r. apply Forall_app in Hr as [_ Hr]. apply Forall_cons in Hr as [Hp _].
      unfold is_print in Hp. rewrite Hp in He. simpl in He. intuition discriminate.
  - destruct pre as [|z pre]; simpl in Heq; injection Heq as -> Heq.
    + subst post. apply Exists_app. right. by constructor.
    + by apply (IH pre).
Qed.

Lemma trace_post_live (w : World) staleMRs expiredMRs m channel :
  ∃ blocks r,
    trace (try (buildAndPostSlackMessage w staleMRs expiredMRs m channel false)
               outputErrorAndExit)
    = PostMessage channel blocks :: r
    ∧ Forall is_print r.
Proof.
  unfold buildAndPostSlackMessage, callPostMessage.
  rewrite trace_try, !outcome_bind, !trace_bind.
  cbn [emit trace outcome fst snd mret M_ret app].
  destruct (slackPostMessage w channel _) as [err|];
    cbn [fail outputErrorAndExit trace outcome fst snd mret M_ret app];
    eexists _, _; (split; [reflexivity|]); by repeat constructor.
Qed.

(** What runs after the closing of merge requests, in a run that is not
    a dry run. *)
Lemma notification_posts (w : World) staleMRs expiredMRs channel pre e post :
  trace (slackUserIDByGitLabUserID ← getSlackUserIDsFromGitLabUserIDs w staleMRs expiredMRs;
         inviteUsersToSlackChannel w slackUserIDByGitLabUserID channel false;;
         try (buildAndPostSlackMessage w staleMRs expiredMRs slackUserIDByGitLabUserID
                channel false) outputErrorAndExit)
  = pre ++ e :: post →
  In (kind_of e) [KUserLookup; KInvite] →
  Exists (λ e', kind_of e' = KPost) post.
Proof.
  intros Htr He. rewrite trace_bind in Htr.
  destruct (getSlackUserIDs_returns w staleMRs expiredMRs) as [m Hm]. rewrite Hm in Htr.
  rewrite trace_bind in Htr.
  destruct (invite_returns w m channel false) as [u Hu]. rewrite Hu in Htr.
  destruct (trace_post_live w staleMRs expiredMRs m channel) as (blocks & r & Hpost & Hr).
  rewrite Hpost, app_assoc in Htr.
  by eapply post_follows; [| |exact Hr|exact Htr].
Qed.

Ltac past_quiet_stage H :=
  apply (after_quiet_bind quiet_kinds) in H;
  [ destruct H as (? & ? & ? & H)
  | try match goal with
        | |- context [BranchCleanup.isDryRun ?a] => destruct (BranchCleanup.isDryRun a)
        | |- context [MRCleanup.isDryRun ?a] => destruct (MRCleanup.isDryRun a)
        end;
    main_tac
  | simpl in *; intuition congruence ].

Lemma main_posts_B (w : World) (fuel : nat) (args : list string) (a : BranchCleanup.Args)
      pre e post :
  outcome (BranchCleanup.parseArgs args) = Returned a →
  BranchCleanup.isDryRun a = false →
  trace (BranchCleanup.main w fuel args) = pre ++ e :: post →
  In (kind_of e) [KUserLookup; KInvite] →
  Exists (λ e', kind_of e' = KPost) post.
Proof.
  intros Hparse Hlive Htr He. unfold BranchCleanup.main in Htr.
  past_quiet_stage Htr.
  match goal with
  | H : outcome (try (BranchCleanup.parseArgs args) _) = Returned ?a' |- _ =>
      rewrite outcome_try, Hparse in H; injection H as <-
  end.
  rewrite Hlive in Htr.
  do 6 past_quiet_stage Htr.
  destruct (_ && _) in Htr.
  - match type of Htr with _ = ?p ++ _ => destruct p as [|? [|? ?]] end;
      simpl in Htr; try done.
    injection Htr as <- _. simpl in He. intuition discriminate.
  - by eapply notification_posts.
Qed.

Lemma main_posts_A (w : World) (args : list string) (a : MRCleanup.Args) pre e post :
  outcome (MRCleanup.parseArgs args) = Returned a →
  MRCleanup.isDryRun a = false →
  trace (MRCleanup.main w args) = pre ++ e :: post →
  In (kind_of e) [KUserLookup; KInvite] →
  Exists (λ e', kind_of e' = KPost) post.
Proof.
  intros Hparse Hlive Htr He. unfold MRCleanup.main in Htr.
  past_quiet_stage Htr.
  match goal with
  | H : outcome (try (MRCleanup.parseArgs args) _) = Returned ?a' |- _ =>
      rewrite outcome_try, Hparse in H; injection H as <-
  end.
  rewrite Hlive in Htr.
  do 3 past_quiet_stage Htr.
  destruct (_ && _) in Htr.
  - match type of Htr with _ = ?p ++ _ => destruct p as [|? [|? ?]] end;
      simpl in Htr; try done.
    injection Htr as <- _. simpl in He. intuition discriminate.
  - by eapply notification_posts.
Qed.

(** C6 (as amended): in both scripts, when a GitLab call (listing,
    deleting a branch, closing a merge request) fails with a client error
    or with a status that the script takes as an error (400 and above in
    the second script, above 400 in the first), a JIRA lookup fails with
    anything but a 404 response, or posting the Slack message fails, the
    script prints that error and exits with status 1, and nothing else
    follows the failed call.  A failed Slack user lookup, a failed Slack
    invitation and a JIRA 404 response are printed (with "continuing..."
    after the two Slack reports) and do not stop the script: the run ends
    normally unless a later call fails in one of the ways above, and after
    a failed lookup or invitation in a run that is not a dry run the
    posting of the Slack message is still attempted. *)
Theorem fatal_failure_exits (w : World) :
  (∀ fuel args pre e post,
      trace (BranchCleanup.main w fuel args) = pre ++ e :: post →
      (fatal_failure bad_status_B w e = true →
       ∃ err, error_report bad_status_B w e = Some err
              ∧ post = [Print (err ++ nl)]
              ∧ outcome (BranchCleanup.main w fuel args) = Exited 1)
      ∧ (skipped_failure w e = true →
         (∃ report rest, skip_report w e report ∧ post = report ++ rest)
         ∧ (outcome (BranchCleanup.main w fuel args) = Returned tt
            ∨ outcome (BranchCleanup.main w fuel args) = Exited 1
              ∧ Exists (λ e', fatal_failure bad_status_B w e' = true) post)
         ∧ (∀ a, outcome (BranchCleanup.parseArgs args) = Returned a →
                 BranchCleanup.isDryRun a = false →
                 In (kind_of e) [KUserLookup; KInvite] →
                 Exists (λ e', kind_of e' = KPost) post)))
  ∧ (∀ args pre e post,
        trace (MRCleanup.main w args) = pre ++ e :: post →
        (fatal_failure bad_status_A w e = true →
         ∃ err, error_report bad_status_A w e = Some err
                ∧ post = [Print (err ++ nl)]
                ∧ outcome (MRCleanup.main w args) = Exited 1)
        ∧ (skipped_failure w e = true →
           (∃ report rest, skip_report w e report ∧ post = report ++ rest)
           ∧ (outcome (MRCleanup.main w args) = Returned tt
              ∨ outcome (MRCleanup.main w args) = Exited 1
                ∧ Exists (λ e', fatal_failure bad_status_A w e' = true) post)
           ∧ (∀ a, outcome (MRCleanup.parseArgs args) = Returned a →
                   MRCleanup.isDryRun a = false →
                   In (kind_of e) [KUserLookup; KInvite] →
                   Exists (λ e', kind_of e' = KPost) post))).
Proof.
  split.
  - intros fuel args pre e post Htr.
    destruct (main_reports_B w fuel args) as [Hrep _].
    pose proof (passes_over_main_B w fuel args) as Hpass.
    unfold passes_over in Hpass. rewrite Htr in Hrep, Hpass. split.
    + intros [err Herr]%fatal_failure_report. exists err.
      by destruct (reported_split _ _ _ _ _ _ _ Hrep Herr).
    + intros Hskip.
      destruct (continues_split _ _ _ _ _ _ _ Hpass Hskip) as [Hreport Hend].
      split; [done|]. split; [|intros a Hparse Hlive; by eapply main_posts_B].
      destruct Hend as [[[] Hret]|Hex]; [by left|]. right. split; [|done].
      apply List.Exists_exists in Hex as (e' & [post1 [post2 ->]]%in_split
                                            & [err Herr]%fatal_failure_report).
      assert (pre ++ e :: post1 ++ e' :: post2 = (pre ++ e :: post1) ++ e' :: post2)
        as Heq by (by rewrite <- app_assoc).
      rewrite Heq in Hrep.
      by destruct (reported_split _ _ _ _ _ _ _ Hrep Herr).
  - intros args pre e post Htr.
    destruct (main_reports_A w args) as [Hrep _].
    pose proof (passes_over_main_A w args) as Hpass.
    unfold passes_over in Hpass. rewrite Htr in Hrep, Hpass. split.
    + intros [err Herr]%fatal_failure_report. exists err.
      by destruct (reported_split _ _ _ _ _ _ _ Hrep Herr).
    + intros Hskip.
      destruct (continues_split _ _ _ _ _ _ _ Hpass Hskip) as [Hreport Hend].
      split; [done|]. split; [|intros a Hparse Hlive; by eapply main_posts_A].
      destruct Hend as [[[] Hret]|Hex]; [by left|]. right. split; [|done].
      apply List.Exists_exists in Hex as (e' & [post1 [post2 ->]]%in_split
                                            & [err Herr]%fatal_failure_report).
      assert (pre ++ e :: post1 ++ e' :: post2 = (pre ++ e :: post1) ++ e' :: post2)
        as Heq by (by rewrite <- app_assoc).
      rewrite Heq in Hrep.
      by destruct (reported_split _ _ _ _ _ _ _ Hrep Herr).
Qed.

Lemma fatal_failure_exits_witness :
  (∃ err, error_report bad_status_B failingDeleteWorld
                       (DeleteBranch (PidString "42") "feature/old-1") = Some err
          ∧ skipn 7 (trace (BranchCleanup.main failingDeleteWorld 5 sampleArgs))
            = [Print (err ++ nl)]
          ∧ outcome (BranchCleanup.main failingDeleteWorld 5 sampleArgs) = Exited 1)
  ∧ (∃ report rest,
        skip_report skipWorld (IssueGet "CD-7") report
        ∧ skipn 13 (trace (BranchCleanup.main skipWorld 5 sampleArgs)) = report ++ rest)
  ∧ (outcome (BranchCleanup.main skipWorld 5 sampleArgs) = Returned tt
     ∨ outcome (BranchCleanup.main skipWorld 5 sampleArgs) = Exited 1
       ∧ Exists (λ e', fatal_failure bad_status_B skipWorld e' = true)
                (skipn 13 (trace (BranchCleanup.main skipWorld 5 sampleArgs)))).
Proof.
  split.
  - assert (trace (BranchCleanup.main failingDeleteWorld 5 sampleArgs)
            = firstn 6 (trace (BranchCleanup.main failingDeleteWorld 5 sampleArgs))
              ++ DeleteBranch (PidString "42") "feature/old-1"
              :: skipn 7 (trace (BranchCleanup.main failingDeleteWorld 5 sampleArgs)))
      as Htr by (vm_compute; reflexivity).
    destruct (proj1 (fatal_failure_exits failingDeleteWorld) _ _ _ _ _ Htr) as [Hfatal _].
    apply Hfatal. reflexivity.
  - assert (trace (BranchCleanup.main skipWorld 5 sampleArgs)
            = firstn 12 (trace (BranchCleanup.main skipWorld 5 sampleArgs))
              ++ IssueGet "CD-7"
              :: skipn 13 (trace (BranchCleanup.main skipWorld 5 sampleArgs)))
      as Htr by (vm_compute; reflexivity).
    destruct (proj1 (fatal_failure_exits skipWorld) _ _ _ _ _ Htr) as [_ Hskip].
    destruct (Hskip eq_refl) as (Hreport & Hend & _). split; [exact Hreport|exact Hend].
Defined.

(** A run in which JIRA answers 404, both Slack lookups and the invitation
    fail: each failure is printed, the script goes on to close the expired
    merge request and to post the message, and ends normally. *)
Example skipped_failures_sample_run :
  let tr := trace (BranchCleanup.main skipWorld 5 sampleArgs) in
  map kind_of (skipn 12 tr)
  = [KIssueGet; KPrint; KPrint; KPrint; KUpdate;
     KUserLookup; KPrint; KPrint; KUserLookup; KPrint; KPrint;
     KInvite; KPrint; KPrint; KPost]
  ∧ Forall (λ e, call_failed skipWorld e = skipped_failure skipWorld e) tr
  ∧ outcome (BranchCleanup.main skipWorld 5 sampleArgs) = Returned tt.
Proof. split; [|split]; [vm_compute; reflexivity| |reflexivity]. vm_compute. repeat constructor. Qed.

(** Slack's lookup of ann.lee fails; the script prints the error and goes
    on: it still looks up the next author, invites and posts the message,
    and ends normally. *)
Lemma lookup_failure_counterexample :
  let tr := trace (BranchCleanup.main lookupFailWorld 5 sampleArgs) in
  tr = firstn 20 tr ++ GetUserByEmail "ann.lee@YOURDOMAIN.com" :: skipn 21 tr
  ∧ call_failed lookupFailWorld (GetUserByEmail "ann.lee@YOURDOMAIN.com") = true
  ∧ map kind_of (skipn 21 tr)
    = [KPrint; KPrint; KUserLookup; KPrint; KPrint; KUserLookup; KInvite; KPost]
  ∧ outcome (BranchCleanup.main lookupFailWorld 5 sampleArgs) = Returned tt.
Proof. repeat split; vm_compute; reflexivity. Qed.

Lemma fatal_failure_failed (w : World) (e : Event) :
  fatal_failure bad_status_B w e = true → call_failed w e = true.
Proof.
  destruct e; cbn [fatal_failure call_failed]; try done.
  destruct (jiraIssueGet w issueID) as [[resp|] err|statusName]; done.
Qed.

(** The first script compares the status with [> 400]: a 400 response
    without a client error is taken as a success. *)
Example first_script_status_400 :
  let w := {| timeNow := λ _, sampleNow;
              gitlabListProjectMergeRequests :=
                λ _ _, inr ([], {| StatusCode := 400; Status := "400 Bad Request";
                                   Body := ""; NextPage := 0 |});
              gitlabListBranches := λ _ _, inr ([], okResponse);
              gitlabDeleteBranch := λ _ _, inr okResponse;
              gitlabUpdateMergeRequest := λ _ _ _, inr okResponse;
              jiraIssueGet := sampleJira;
              slackGetUserByEmail := λ email, inr email;
              slackInviteUsersToConversation := λ _ _, None;
              slackPostMessage := λ _ _, None |} in
  outcome (MRCleanup.getMergeRequests w) = Returned []
  ∧ ∃ err, outcome (BranchCleanup.getMergeRequests w 3 "42") = Failed err.
Proof. split; [reflexivity|]. eexists. reflexivity. Qed.

(** ** The config-sort linter *)

Lemma dropSpaceRune_rune (r s : list ascii) :
  In r ConfigSort.spaceRunes →
  ConfigSort.dropSpaceRune ConfigSort.spaceRunes (r ++ s) = Some s.
Proof.
  unfold ConfigSort.spaceRunes. intros Hr.
  repeat (destruct Hr as [<-|Hr]; [reflexivity|]). destruct Hr.
Qed.

Lemma trimRunes_all_space (runes : list (list ascii)) (fuel : nat) :
  Forall (λ r, In r ConfigSort.spaceRunes) runes →
  (length runes <= fuel)%nat →
  ConfigSort.trimRunes ConfigSort.spaceRunes fuel (concat runes) = [].
Proof.
  intros Hr. revert fuel. induction Hr as [|r runes Hin _ IH]; intros fuel Hfuel.
  - by destruct fuel.
  - destruct fuel as [|fuel]; [simpl in Hfuel; lia|].
    cbn [concat ConfigSort.trimRunes]. rewrite dropSpaceRune_rune by done.
    apply IH. simpl in Hfuel. lia.
Qed.

Lemma length_concat_runes (runes : list (list ascii)) :
  Forall (λ r, In r ConfigSort.spaceRunes) runes →
  (length runes <= length (concat runes))%nat.
Proof.
  induction 1 as [|r runes Hin _ IH]; simpl; [lia|].
  rewrite length_app. assert (1 <= length r)%nat; [|lia].
  unfold ConfigSort.spaceRunes in Hin.
  repeat (destruct Hin as [<-|Hin]; [simpl; lia|]). destruct Hin.
Qed.

Lemma TrimSpace_all_space (line : string) :
  all_space line → ConfigSort.TrimSpace line = "".
Proof.
  intros (runes & Heq & Hr). unfold ConfigSort.TrimSpace, ConfigSort.TrimSpaceBytes.
  rewrite Heq, trimRunes_all_space; [done|done|]. by apply length_concat_runes.
Qed.

(** Scanning a list of lines followed by more lines: the first part decides
    unless it comes through in order, and then the rest is scanned from
    the state reached. *)
Lemma scan_app (pre : list string) :
  ∀ previousTable previousKey,
  ∃ table key, ∀ rest,
    ConfigSort.scan (pre ++ rest) previousTable previousKey
    = match ConfigSort.scan pre previousTable previousKey with
      | ConfigSort.Sorted => ConfigSort.scan rest table key
      | result => result
      end.
Proof.
  induction pre as [|line pre IH]; intros previousTable previousKey.
  - by exists previousTable, previousKey.
  - cbn [app ConfigSort.scan].
    destruct (String.eqb line ""); [apply IH|].
    destruct (ConfigSort.TrimSpace line) as [|c0 ?]; [by exists "", ""|].
    destruct (Ascii.eqb c0 "#"); [apply IH|].
    destruct (Regexp.MatchString ConfigSort.tableRegexp line).
    + destruct (String.ltb _ _); [by exists "", ""|apply IH].
    + destruct (String.ltb _ _); [by exists "", ""|apply IH].
Qed.

Lemma scan_blank (blank : string) (post : list string) previousTable previousKey :
  blank ≠ "" → all_space blank →
  ConfigSort.scan (blank :: post) previousTable previousKey = ConfigSort.Panicked.
Proof.
  intros Hne Hsp. cbn [ConfigSort.scan].
  apply String.eqb_neq in Hne. rewrite Hne. by rewrite TrimSpace_all_space.
Qed.

(** C10 (as amended): when the file has a non-empty line of white space
    only, the linter panics at that line, unless an earlier line already
    made it report a sort-order error and exit; it never skips the line
    and never reports the file as sorted. *)
Theorem blank_line_panics (contents : string) (pre : list string) (blank : string)
        (post : list string) :
  ConfigSort.ScanLines contents = pre ++ blank :: post →
  blank ≠ "" →
  all_space blank →
  ConfigSort.main contents
  = match ConfigSort.scan pre "" "" with
    | ConfigSort.NotSorted message => ConfigSort.NotSorted message
    | _ => ConfigSort.Panicked
    end.
Proof.
  intros Hlines Hne Hsp. unfold ConfigSort.main. rewrite Hlines.
  destruct (scan_app pre "" "") as (table & key & ->).
  destruct (ConfigSort.scan pre "" ""); [|done..]. by apply scan_blank.
Qed.

Lemma blank_line_panics_witness :
  ConfigSort.main (Sprintf ["a=1"; nl; "  "; nl; "b=2"; nl]) = ConfigSort.Panicked.
Proof.
  apply (blank_line_panics (Sprintf ["a=1"; nl; "  "; nl; "b=2"; nl])
           ["a=1"] "  " ["b=2"]).
  - reflexivity.
  - discriminate.
  - exists [[" "%char]; [" "%char]]. split; [reflexivity|].
    repeat constructor; simpl; tauto.
Defined.

(** The file has a line of two spaces, but its second line is out of
    order: the linter reports that and exits before reaching the blank
    line. *)
Lemma blank_line_counterexample :
  ConfigSort.ScanLines (Sprintf ["b=1"; nl; "a=2"; nl; "  "; nl]) = ["b=1"; "a=2"; "  "]
  ∧ all_space "  "
  ∧ ConfigSort.main (Sprintf ["b=1"; nl; "a=2"; nl; "  "; nl])
    = ConfigSort.NotSorted (Sprintf ["File is not sorted. Key a should be before key b"; nl])
  ∧ ConfigSort.main (Sprintf ["b=1"; nl; "a=2"; nl; "  "; nl]) ≠ ConfigSort.Panicked.
Proof.
  split; [reflexivity|]. split.
  - exists [[" "%char]; [" "%char]]. split; [reflexivity|].
    repeat constructor; simpl; tauto.
  - split; [reflexivity|]. vm_compute. discriminate.
Qed.

(* ===================================================================== *)
(** * Properties of the other functions *)
(* ===================================================================== *)

(** ** Package slices: the other functions *)
Lemma fold_left_snoc_map {A B} (f : A → B) (l : list A) (acc : list B) :
  fold_left (λ result item, result ++ [f item]) l acc = acc ++ List.map f l.
Proof.
  revert acc. induction l as [|x l IH]; intros acc; simpl.
  - by rewrite app_nil_r.
  - rewrite IH. by rewrite <- app_assoc.
Qed.

Lemma fold_left_snoc_filter {A} (p : A → bool) (l acc : list A) :
  fold_left (λ result item, if p item then result ++ [item] else result) l acc
  = acc ++ List.filter p l.
Proof.
  revert acc. induction l as [|x l IH]; intros acc; simpl.
  - by rewrite app_nil_r.
  - rewrite IH. destruct (p x); [|done]. by rewrite <- app_assoc.
Qed.

Lemma Slices_Map_map {T1 T2} (items : list T1) (fn : T1 → T2) :
  Slices.Map items fn = List.map fn items.
Proof. unfold Slices.Map. by rewrite fold_left_snoc_map. Qed.

Lemma Slices_Filter_filter {T} (items : list T) (p : T → bool) :
  Slices.Filter items p = List.filter p items.
Proof. unfold Slices.Filter. by rewrite fold_left_snoc_filter. Qed.

Lemma List_filter_sublist {A} (p : A → bool) (l : list A) :
  List.filter p l `sublist_of` l.
Proof.
  induction l as [|x l IH]; simpl; [constructor|].
  destruct (p x); by constructor.
Qed.

Lemma List_filter_filter {A} (p q : A → bool) (l : list A) :
  List.filter q (List.filter p l) = List.filter (λ x, p x && q x) l.
Proof.
  induction l as [|x l IH]; simpl; [done|].
  destruct (p x); simpl; [|done]. destruct (q x); by rewrite IH.
Qed.

(** X11: [slices.Filter] returns, in their original order and with
    their multiplicities, exactly the items that meet the predicate; and
    filtering twice is filtering by the conjunction. *)
Theorem Filter_keeps_matching {T} (items : list T) (p q : T → bool) :
  Slices.Filter items p = List.filter p items
  ∧ Slices.Filter items p `sublist_of` items
  ∧ (∀ x, x ∈ Slices.Filter items p ↔ x ∈ items ∧ p x = true)
  ∧ Slices.Filter (Slices.Filter items p) q = Slices.Filter items (λ x, p x && q x).
Proof.
  rewrite !Slices_Filter_filter. split; [done|]. split; [apply List_filter_sublist|].
  split.
  - intros x. rewrite !list_elem_of_In. apply filter_In.
  - apply List_filter_filter.
Qed.

(** X10: [slices.Map] keeps the length and applies [fn] position by
    position; mapping twice is mapping the composition, and filtering a
    mapped slice is mapping the slice filtered by the composed
    predicate. *)
Theorem Map_pointwise {T1 T2 T3} (items : list T1) (f : T1 → T2) (g : T2 → T3)
        (p : T2 → bool) :
  length (Slices.Map items f) = length items
  ∧ (∀ i : nat, Slices.Map items f !! i = f <$> items !! i)
  ∧ Slices.Map (Slices.Map items f) g = Slices.Map items (λ x, g (f x))
  ∧ Slices.Filter (Slices.Map items f) p
    = Slices.Map (Slices.Filter items (λ x, p (f x))) f.
Proof.
  rewrite !Slices_Map_map, !Slices_Filter_filter.
  split; [apply length_map|]. split; [intros i; apply list_lookup_fmap|].
  split; [apply map_map|].
  induction items as [|x items IH]; simpl; [done|].
  destruct (p (f x)); simpl; by rewrite IH.
Qed.

Lemma Any_Exists {T} (items : list T) (p : T → bool) :
  Slices.Any items p = true ↔ ∃ x, x ∈ items ∧ p x = true.
Proof.
  induction items as [|y items IH]; simpl.
  - split; [done|]. intros (x & Hx & _). by apply elem_of_nil in Hx.
  - destruct (p y) eqn:Hy.
    + split; [|done]. intros _. exists y. split; [left|done].
    + rewrite IH. split.
      * intros (x & Hx & Hp). exists x. split; [by right|done].
      * intros (x & Hx & Hp). apply elem_of_cons in Hx as [->|Hx]; [congruence|].
        by exists x.
Qed.

Lemma Contains_Any {T} `{EqDecision T} (items : list T) (target : T) :
  Slices.Contains items target = Slices.Any items (λ v, bool_decide (v = target)).
Proof. induction items as [|y items IH]; simpl; [done|]. by rewrite IH. Qed.

(** X7: [slices.Any] is true exactly when some item meets the
    predicate (so it is false on the empty slice, and true exactly when
    [slices.Filter] keeps something), and [slices.Contains] is true
    exactly when the target is an item: it is [Any] with equality to
    the target. *)
Theorem Any_Contains_membership {T} `{EqDecision T} (items : list T) (target : T)
        (predicate : T → bool) :
  (Slices.Any items predicate = true ↔ ∃ x, x ∈ items ∧ predicate x = true)
  ∧ (Slices.Any items predicate = false ↔ ∀ x, x ∈ items → predicate x = false)
  ∧ (Slices.Any items predicate = true ↔ Slices.Filter items predicate ≠ [])
  ∧ (Slices.Contains items target = true ↔ target ∈ items)
  ∧ Slices.Contains items target = Slices.Any items (λ v, bool_decide (v = target)).
Proof.
  split; [apply Any_Exists|]. split; [|split; [|split; [|apply Contains_Any]]].
  - rewrite <- not_true_iff_false, Any_Exists. split.
    + intros Hn x Hx. apply not_true_iff_false. intros Hp. apply Hn. by exists x.
    + intros Hall (x & Hx & Hp). rewrite (Hall x Hx) in Hp. done.
  - rewrite Any_Exists, Slices_Filter_filter. split.
    + intros (x & Hx & Hp) Hnil.
      assert (In x (List.filter predicate items)) as Hin
        by (apply filter_In; split; [by apply list_elem_of_In|done]).
      by rewrite Hnil in Hin.
    + intros Hne. destruct (List.filter predicate items) as [|x l] eqn:Hf; [done|].
      assert (In x (List.filter predicate items)) as Hin by (rewrite Hf; by left).
      apply filter_In in Hin as [Hin Hp]. exists x. split; [by apply list_elem_of_In|done].
  - rewrite Contains_Any, Any_Exists. split.
    + intros (x & Hx & Heq). by apply bool_decide_eq_true in Heq as <-.
    + intros Hin. exists target. split; [done|]. by apply bool_decide_eq_true.
Qed.

(** X8: [slices.NonZeroValues] returns the items in their original
    order with every zero value removed and nothing else: no zero
    remains, every other item stays, a slice without zero values comes
    back unchanged, and applying it twice changes nothing more. *)
Theorem NonZeroValues_drops_zero {T} `{EqDecision T} (zero : T) (items : list T) :
  (zero ∉ Slices.NonZeroValues zero items)
  ∧ Slices.NonZeroValues zero items `sublist_of` items
  ∧ (∀ x, x ≠ zero → x ∈ items → x ∈ Slices.NonZeroValues zero items)
  ∧ (zero ∉ items → Slices.NonZeroValues zero items = items)
  ∧ Slices.NonZeroValues zero (Slices.NonZeroValues zero items)
    = Slices.NonZeroValues zero items.
Proof.
  unfold Slices.NonZeroValues. rewrite !Slices_Filter_filter.
  split; [|split; [|split; [|split]]].
  - rewrite list_elem_of_In, filter_In. intros [_ Hz].
    by rewrite bool_decide_true in Hz.
  - apply List_filter_sublist.
  - intros x Hx Hin. apply list_elem_of_In, filter_In. split; [by apply list_elem_of_In|].
    by rewrite bool_decide_false.
  - induction items as [|x items IH]; simpl; [done|]. intros Hn.
    apply not_elem_of_cons in Hn as [Hx Hn]. rewrite bool_decide_false by done. simpl.
    by rewrite IH.
  - rewrite List_filter_filter. apply filter_ext. intros x. by destruct (negb _).
Qed.

Lemma NonZeroValues_drops_zero_witness :
  Slices.NonZeroValues "" ["a"; "b"] = ["a"; "b"].
Proof.
  destruct (NonZeroValues_drops_zero "" ["a"; "b"]) as (_ & _ & _ & Hid & _).
  apply Hid. exact (bool_decide_unpack ("" ∉ ["a"; "b"]) I).
Defined.

Lemma Unique_loop {T} `{Countable T} (items : list T) (seen : gset T) (result : list T) :
  snd (fold_left
         (λ '(seen, result) item,
            if bool_decide (item ∈ seen) then (seen, result)
            else ({[item]} ∪ seen, result ++ [item]))
         items (seen, result))
  = result ++ unseen seen items.
Proof.
  revert seen result. induction items as [|x items IH]; intros seen result; simpl.
  - by rewrite app_nil_r.
  - destruct (bool_decide (x ∈ seen)); rewrite IH; [done|]. by rewrite <- app_assoc.
Qed.

Lemma Unique_unseen {T} `{Countable T} (items : list T) :
  Slices.Unique items = unseen ∅ items.
Proof. unfold Slices.Unique. by rewrite Unique_loop. Qed.

Lemma unseen_elem {T} `{Countable T} (items : list T) (seen : gset T) (x : T) :
  x ∈ unseen seen items ↔ x ∈ items ∧ x ∉ seen.
Proof.
  revert seen. induction items as [|y items IH]; intros seen; simpl.
  - rewrite !elem_of_nil. tauto.
  - case_bool_decide as Hy.
    + rewrite IH, elem_of_cons. split; [tauto|]. intros [[->|?] ?]; tauto.
    + rewrite !elem_of_cons, IH. rewrite elem_of_union, elem_of_singleton.
      split.
      * intros [->|[? ?]]; [tauto|]. split; [tauto|]. tauto.
      * intros [[->|?] ?]; [tauto|]. destruct (decide (x = y)); tauto.
Qed.

Lemma unseen_NoDup {T} `{Countable T} (items : list T) (seen : gset T) :
  NoDup (unseen seen items).
Proof.
  revert seen. induction items as [|y items IH]; intros seen; simpl; [constructor|].
  case_bool_decide; [apply IH|]. constructor; [|apply IH].
  rewrite unseen_elem, elem_of_union, elem_of_singleton. tauto.
Qed.

Lemma unseen_sublist {T} `{Countable T} (items : list T) (seen : gset T) :
  unseen seen items `sublist_of` items.
Proof.
  revert seen. induction items as [|y items IH]; intros seen; simpl; [constructor|].
  case_bool_decide; by constructor.
Qed.

Lemma unseen_insert {T} `{Countable T} (items : list T) (seen : gset T) (x : T) :
  unseen ({[x]} ∪ seen) items
  = unseen seen (List.filter (λ y, negb (bool_decide (y = x))) items).
Proof.
  revert seen. induction items as [|y items IH]; intros seen; simpl; [done|].
  destruct (decide (y = x)) as [->|Hne].
  - rewrite bool_decide_true by (apply elem_of_union_l; by apply elem_of_singleton).
    rewrite (bool_decide_true (x = x)) by done. simpl. apply IH.
  - rewrite (bool_decide_false (y = x)) by done. simpl.
    destruct (decide (y ∈ seen)) as [Hin|Hnin].
    + rewrite (bool_decide_true (y ∈ {[x]} ∪ seen)) by (by apply elem_of_union_r).
      rewrite (bool_decide_true (y ∈ seen)) by done. apply IH.
    + rewrite (bool_decide_false (y ∈ {[x]} ∪ seen))
        by (rewrite elem_of_union, elem_of_singleton; tauto).
      rewrite (bool_decide_false (y ∈ seen)) by done. f_equal.
      rewrite <- IH. f_equal. rewrite !(assoc_L (∪)). f_equal. apply (comm_L (∪)).
Qed.

Lemma unseen_NoDup_id {T} `{Countable T} (items : list T) (seen : gset T) :
  NoDup items → (∀ x, x ∈ items → x ∉ seen) → unseen seen items = items.
Proof.
  revert seen. induction items as [|y items IH]; intros seen Hnd Hs; simpl; [done|].
  apply NoDup_cons in Hnd as [Hy Hnd].
  rewrite bool_decide_false by (apply Hs; left). f_equal. apply IH; [done|].
  intros x Hx. assert (x ∉ seen) by (apply Hs; by right).
  assert (x ≠ y) by (by intros ->). rewrite elem_of_union, elem_of_singleton. tauto.
Qed.

(** X9: [slices.Unique] has no repeated item and the same items as
    its argument, in the order of their first occurrences: the head is
    kept and its later copies dropped; a slice without repetition comes
    back unchanged, and so does the result of [Unique]. *)
Theorem Unique_first_occurrences {T} `{Countable T} (items : list T) :
  NoDup (Slices.Unique items)
  ∧ (∀ x, x ∈ Slices.Unique items ↔ x ∈ items)
  ∧ Slices.Unique items `sublist_of` items
  ∧ (∀ (x : T) (rest : list T),
       Slices.Unique (x :: rest)
       = x :: Slices.Unique (Slices.Filter rest (λ y, negb (bool_decide (y = x)))))
  ∧ (NoDup items → Slices.Unique items = items)
  ∧ Slices.Unique (Slices.Unique items) = Slices.Unique items.
Proof.
  rewrite !Unique_unseen. split; [apply unseen_NoDup|].
  split; [intros x; rewrite unseen_elem; split; [tauto|]; intros Hx; split; [done|apply not_elem_of_empty]|].
  split; [apply unseen_sublist|]. split; [|split].
  - intros x rest. rewrite !Unique_unseen, Slices_Filter_filter. simpl.
    rewrite bool_decide_false by apply not_elem_of_empty. f_equal. apply unseen_insert.
  - intros Hnd. apply unseen_NoDup_id; [done|]. intros x _. apply not_elem_of_empty.
  - apply unseen_NoDup_id; [apply unseen_NoDup|]. intros x _. apply not_elem_of_empty.
Qed.

Lemma Unique_first_occurrences_witness :
  Slices.Unique [3; 1; 2] = [3; 1; 2].
Proof.
  destruct (Unique_first_occurrences [3; 1; 2]) as (_ & _ & _ & _ & Hid & _).
  apply Hid. exact (bool_decide_unpack (NoDup [3; 1; 2]) I).
Defined.

Lemma fold_left_const_snoc {A B} (value : A) (l : list B) (acc : list A) :
  fold_left (λ result _, result ++ [value]) l acc = acc ++ replicate (length l) value.
Proof.
  revert acc. induction l as [|x l IH]; intros acc; simpl.
  - by rewrite app_nil_r.
  - rewrite IH. by rewrite <- app_assoc.
Qed.

(** X12: [slices.Repeat] panics in [make] when [times] is negative
    (or beyond what can be allocated), and otherwise returns [times]
    copies of the value. *)
Theorem Repeat_replicates {T} (maxCap : Z) (value : T) (times : Z) :
  Slices.Repeat maxCap value times
  = if decide (0 ≤ times ≤ maxCap) then Some (replicate (Z.to_nat times) value)
    else None.
Proof.
  unfold Slices.Repeat.
  destruct (Z.ltb_spec times 0), (Z.ltb_spec maxCap times); simpl;
    destruct (decide _); try lia; try done.
  by rewrite fold_left_const_snoc, length_seqZ.
Qed.

Lemma GroupBy_snoc {T} `{Countable K} (items : list T) (fn : T → K) (x : T) :
  Slices.GroupBy (items ++ [x]) fn
  = <[fn x := default [] (Slices.GroupBy items fn !! fn x) ++ [x]]>
      (Slices.GroupBy items fn).
Proof. unfold Slices.GroupBy. by rewrite fold_left_app. Qed.

Lemma List_filter_snoc {A} (p : A → bool) (l : list A) (x : A) :
  List.filter p (l ++ [x]) = List.filter p l ++ (if p x then [x] else []).
Proof. rewrite List.filter_app. simpl. by destruct (p x). Qed.

Lemma GroupBy_lookup {T} `{Countable K} (items : list T) (fn : T → K) (k : K) :
  Slices.GroupBy items fn !! k
  = match List.filter (λ x, bool_decide (fn x = k)) items with
    | [] => None
    | group => Some group
    end.
Proof.
  induction items as [|x items IH] using rev_ind; [done|].
  rewrite GroupBy_snoc, List_filter_snoc.
  destruct (decide (fn x = k)) as [<-|Hne].
  - rewrite lookup_insert_eq, IH. rewrite bool_decide_true by done.
    by destruct (List.filter _ items).
  - rewrite lookup_insert_ne by done. rewrite bool_decide_false by done.
    by rewrite IH, app_nil_r.
Qed.

Lemma groups_permutation {T} `{Countable K} (items : list T) (fn : T → K) :
  concat (map_to_list (Slices.GroupBy items fn)).*2 ≡ₚ items.
Proof.
  induction items as [|x items IH] using rev_ind.
  - unfold Slices.GroupBy. simpl. by rewrite map_to_list_empty.
  - rewrite GroupBy_snoc. generalize dependent (Slices.GroupBy items fn). intros G IH.
    destruct (G !! fn x) as [g|] eqn:Hg; simpl.
    + assert (map_to_list (<[fn x := g ++ [x]]> G)
              ≡ₚ (fn x, g ++ [x]) :: map_to_list (delete (fn x) G)) as ->.
      { rewrite <- insert_delete_eq. apply map_to_list_insert, lookup_delete_eq. }
      assert (g ++ concat (map_to_list (delete (fn x) G)).*2 ≡ₚ items) as IH'.
      { etrans; [|exact IH]. by rewrite <- (map_to_list_delete G (fn x) g). }
      simpl. etrans; [|apply Permutation_app_tail; exact IH'].
      rewrite <- !app_assoc. apply Permutation_app_head. apply Permutation_app_comm.
    + rewrite map_to_list_insert by done. simpl.
      etrans; [|apply Permutation_cons_append]. by constructor.
Qed.

Lemma ToSlice_map {K V T} (order : list (K * V)) (fn : K → V → T) :
  Maps.ToSlice order fn = List.map (λ kv, fn kv.1 kv.2) order.
Proof.
  unfold Maps.ToSlice.
  enough (∀ acc, fold_left (λ result '(k, v), result ++ [fn k v]) order acc
                 = acc ++ List.map (λ kv, fn kv.1 kv.2) order) as Hloop by apply Hloop.
  induction order as [|[k v] order IH]; intros acc; simpl.
  - by rewrite app_nil_r.
  - rewrite IH. by rewrite <- app_assoc.
Qed.

Lemma Flatten_concat {T} (items : list (list T)) :
  Slices.Flatten items = concat items.
Proof.
  unfold Slices.Flatten.
  enough (∀ acc, fold_left (λ result item, result ++ item) items acc
                 = acc ++ concat items) as Hloop by apply Hloop.
  induction items as [|l items IH]; intros acc; simpl.
  - by rewrite app_nil_r.
  - rewrite IH. by rewrite <- app_assoc.
Qed.

(** X13: in the result of [slices.GroupBy] the group of a key is the
    list, in original order, of the items that [fn] sends to that key,
    and a key that no item is sent to is absent (no group is empty);
    flattening the groups, in whatever order the map yields them, gives
    back the items up to order. *)
Theorem GroupBy_groups {T} `{Countable K} (items : list T) (fn : T → K) :
  (∀ k, Slices.GroupBy items fn !! k
        = match List.filter (λ x, bool_decide (fn x = k)) items with
          | [] => None
          | group => Some group
          end)
  ∧ (∀ order, Maps.visits order (Slices.GroupBy items fn) →
              Slices.Flatten (Maps.Values order) ≡ₚ items).
Proof.
  split; [apply GroupBy_lookup|]. intros order Hv.
  unfold Maps.Values. rewrite ToSlice_map, Flatten_concat.
  etrans; [|apply (groups_permutation items fn)].
  unfold Maps.visits in Hv. by rewrite <- Hv.
Qed.

Lemma GroupBy_groups_witness :
  Slices.Flatten (Maps.Values (map_to_list (Slices.GroupBy [1; 2; 3; 4] Z.even)))
  ≡ₚ [1; 2; 3; 4].
Proof.
  apply (proj2 (GroupBy_groups [1; 2; 3; 4] Z.even)). unfold Maps.visits. reflexivity.
Defined.

Lemma ToMap_list_to_map {T} `{Countable K} {V} (items : list T) (fn : T → K * V) :
  Slices.ToMap items fn = list_to_map (rev (List.map fn items)).
Proof.
  unfold Slices.ToMap.
  enough (∀ r0 : gmap K V,
             fold_left (λ result item, let '(k, v) := fn item in <[k:=v]> result) items r0
             = list_to_map (rev (List.map fn items)) ∪ r0) as Hloop.
  { rewrite Hloop. apply (right_id_L ∅ (∪)). }
  induction items as [|x items IH]; intros r0; simpl.
  - by rewrite (left_id_L ∅ (∪)).
  - rewrite IH, list_to_map_app. destruct (fn x) as [k v]. simpl.
    rewrite <- (assoc_L (∪)). f_equal.
    by rewrite insert_empty, <- insert_union_singleton_l.
Qed.

Lemma ToMap_lookup_Some {T} `{Countable K} {V} (items : list T) (fn : T → K * V) k v :
  Slices.ToMap items fn !! k = Some v → ∃ x, x ∈ items ∧ fn x = (k, v).
Proof.
  rewrite ToMap_list_to_map. intros Hin%elem_of_list_to_map_2.
  rewrite list_elem_of_In, <- in_rev, in_map_iff in Hin. destruct Hin as (x & Hx & Hin).
  exists x. split; [by apply list_elem_of_In|done].
Qed.

Lemma ToMap_lookup_None {T} `{Countable K} {V} (items : list T) (fn : T → K * V) k :
  Slices.ToMap items fn !! k = None ↔ ∀ x, x ∈ items → (fn x).1 ≠ k.
Proof.
  rewrite ToMap_list_to_map, <- not_elem_of_list_to_map. split.
  - intros Hn x Hx Hk. apply Hn. apply list_elem_of_fmap. exists (fn x).
    split; [done|]. rewrite list_elem_of_In, <- in_rev. apply in_map, list_elem_of_In, Hx.
  - intros Hall Hin. apply list_elem_of_fmap in Hin as (kv & -> & Hin).
    rewrite list_elem_of_In, <- in_rev, in_map_iff in Hin. destruct Hin as (x & <- & Hin).
    by apply (Hall x); [apply list_elem_of_In|].
Qed.

Lemma ToMap_last {T} `{Countable K} {V} (fn : T → K * V) (pre post : list T) (x : T) :
  (∀ y, y ∈ post → (fn y).1 ≠ (fn x).1) →
  Slices.ToMap (pre ++ x :: post) fn !! (fn x).1 = Some (fn x).2.
Proof.
  intros Hpost. rewrite ToMap_list_to_map.
  rewrite map_app, rev_app_distr. simpl. rewrite <- app_assoc, list_to_map_app.
  rewrite lookup_union_r.
  - simpl. destruct (fn x) as [k v]. simpl. apply lookup_insert_eq.
  - rewrite <- ToMap_list_to_map. by apply ToMap_lookup_None.
Qed.

Lemma ToMap_size {T} `{Countable K} {V} (items : list T) (fn : T → K * V) :
  (size (Slices.ToMap items fn) ≤ length items)%nat.
Proof.
  induction items as [|x items IH] using rev_ind; [done|].
  unfold Slices.ToMap in *. rewrite fold_left_app, length_app. simpl.
  destruct (fn x) as [k v]. rewrite map_size_insert.
  destruct (_ !! k); simpl; lia.
Qed.

Lemma ToMap_size_NoDup {T} `{Countable K} {V} (items : list T) (fn : T → K * V) :
  NoDup (List.map (λ x, (fn x).1) items) →
  size (Slices.ToMap items fn) = length items.
Proof.
  intros Hnd. rewrite ToMap_list_to_map, map_size_list_to_map.
  - by rewrite length_rev, length_map.
  - assert (rev (List.map fn items) ≡ₚ List.map fn items) as ->
        by (symmetry; apply Permutation_rev).
    change (NoDup (List.map fst (List.map fn items))). by rewrite map_map.
Qed.

(** X14: in [slices.ToMap] the last item that produces a key decides
    its value; every entry of the result comes from an item, a key is
    absent exactly when no item produces it, and the map has as many
    entries as the slice has items when the keys are pairwise
    distinct (at most as many otherwise). *)
Theorem ToMap_last_wins {T} `{Countable K} {V} (items : list T) (fn : T → K * V) :
  (∀ pre x post,
      items = pre ++ x :: post →
      (∀ y, y ∈ post → (fn y).1 ≠ (fn x).1) →
      Slices.ToMap items fn !! (fn x).1 = Some (fn x).2)
  ∧ (∀ k v, Slices.ToMap items fn !! k = Some v → ∃ x, x ∈ items ∧ fn x = (k, v))
  ∧ (∀ k, Slices.ToMap items fn !! k = None ↔ ∀ x, x ∈ items → (fn x).1 ≠ k)
  ∧ (size (Slices.ToMap items fn) ≤ length items)%nat
  ∧ (NoDup (List.map (λ x, (fn x).1) items) →
     size (Slices.ToMap items fn) = length items).
Proof.
  split; [by intros pre x post -> Hpost; apply ToMap_last|].
  split; [apply ToMap_lookup_Some|]. split; [apply ToMap_lookup_None|].
  split; [apply ToMap_size|apply ToMap_size_NoDup].
Qed.

Lemma ToMap_last_wins_witness :
  Slices.ToMap [("a", 1); ("b", 2); ("a", 3)] (λ kv : string * Z, kv) !! "a" = Some 3.
Proof.
  apply (proj1 (ToMap_last_wins [("a", 1); ("b", 2); ("a", 3)] (λ kv : string * Z, kv))
           [("a", 1); ("b", 2)] ("a", 3) []); [reflexivity|].
  intros y Hy. by apply elem_of_nil in Hy.
Defined.

(** X15: [slices.Flatten] is the concatenation of the inner slices,
    its length is exactly the capacity it allocates, its items are the
    items of the inner slices, and reducing the flattened slice is
    reducing the outer slice with the inner reduction
    ([slices.Reduce]). *)
Theorem Flatten_concatenates {T} (items : list (list T)) :
  Slices.Flatten items = concat items
  ∧ Z.of_nat (length (Slices.Flatten items)) = Slices.Flatten_count items
  ∧ (∀ x, x ∈ Slices.Flatten items ↔ ∃ l, l ∈ items ∧ x ∈ l)
  ∧ (∀ {R} (initial : R) (accumulator : R → T → R),
        Slices.Reduce (Slices.Flatten items) initial accumulator
        = Slices.Reduce items initial (λ acc l, Slices.Reduce l acc accumulator)).
Proof.
  rewrite Flatten_concat. split; [done|]. split; [|split].
  - unfold Slices.Flatten_count.
    enough (∀ count, fold_left (λ count item, count + Z.of_nat (length item)) items count
                     = count + Z.of_nat (length (concat items))) as Hloop
        by (rewrite Hloop; lia).
    induction items as [|l items IH]; intros count; simpl; [lia|].
    rewrite IH, length_app. lia.
  - intros x. rewrite list_elem_of_In, in_concat. split.
    + intros (l & Hl & Hx). exists l. by rewrite !list_elem_of_In.
    + intros (l & Hl & Hx). exists l. by rewrite <- !list_elem_of_In.
  - intros R initial accumulator. unfold Slices.Reduce. revert initial.
    induction items as [|l items IH]; intros initial; simpl; [done|].
    by rewrite fold_left_app, IH.
Qed.

(** ** Package maps: the other functions *)

Section MapsOrder.
Context `{Countable K} {V : Type}.
Implicit Types (m a b : gmap K V) (order : list (K * V)).

Lemma visits_elem order m k v :
  Maps.visits order m → (k, v) ∈ order ↔ m !! k = Some v.
Proof. intros Hv. unfold Maps.visits in Hv. by rewrite Hv, elem_of_map_to_list. Qed.

Lemma visits_NoDup order m : Maps.visits order m → NoDup order.*1.
Proof. intros Hv. unfold Maps.visits in Hv. rewrite Hv. apply NoDup_fst_map_to_list. Qed.

Lemma visits_length order m : Maps.visits order m → length order = size m.
Proof. intros Hv. unfold Maps.visits in Hv. by rewrite Hv, length_map_to_list. Qed.

Lemma Equal_range_Forall `{EqDecision V} order b :
  Maps.Equal_range order b = true ↔ ∀ k v, (k, v) ∈ order → b !! k = Some v.
Proof.
  induction order as [|[k v] order IH]; simpl.
  - split; [|done]. intros _ k v Hin. by apply elem_of_nil in Hin.
  - destruct (b !! k) as [w|] eqn:Hb.
    + case_bool_decide as Hvw.
      * subst w. rewrite IH. split.
        -- intros Hall k' v' [[= -> ->]|Hin]%elem_of_cons; [done|by apply Hall].
        -- intros Hall k' v' Hin. apply Hall. by right.
      * split; [done|]. intros Hall. specialize (Hall k v (list_elem_of_here _ _)).
        congruence.
    + split; [done|]. intros Hall. specialize (Hall k v (list_elem_of_here _ _)).
      congruence.
Qed.

End MapsOrder.

Lemma Equal_spec `{Countable K} {V} `{EqDecision V}
      (order : list (K * V)) (a b : gmap K V) :
  Maps.visits order a →
  Maps.Equal order a b = true
  ↔ size a = size b ∧ ∀ k v, a !! k = Some v → b !! k = Some v.
Proof.
  intros Hv. unfold Maps.Equal.
  destruct (Nat.eqb_spec (size a) (size b)) as [Hs|Hs]; simpl.
  - rewrite Equal_range_Forall. split.
    + intros Hall. split; [done|]. intros k v Ha. apply Hall. by apply (visits_elem order a).
    + intros [_ Hall] k v Hin. apply Hall. by apply (visits_elem order a).
  - split; [done|]. by intros [? _].
Qed.

Lemma Equal_eq `{Countable K} {V} `{EqDecision V}
      (order : list (K * V)) (a b : gmap K V) :
  Maps.visits order a → Maps.Equal order a b = true ↔ a = b.
Proof.
  intros Hv. rewrite (Equal_spec order a b Hv). split.
  - intros [Hs Hsub]. apply map_subseteq_size_eq; [|lia].
    apply map_subseteq_spec. exact Hsub.
  - by intros ->.
Qed.

Lemma Copy_id `{Countable K} {V} (m : gmap K V) : Maps.Copy m = m.
Proof. unfold Maps.Copy. rewrite range_assign_union. apply (right_id_L ∅ (∪)). Qed.

Lemma union_size_le `{Countable K} {V} (m1 m2 : gmap K V) :
  (size (m1 ∪ m2) ≤ size m1 + size m2)%nat.
Proof.
  rewrite <- !size_dom, dom_union_L, size_union_alt.
  apply Nat.add_le_mono_l, subseteq_size, subseteq_difference_l. done.
Qed.

(** X1: [maps.Equal], whatever the order in which the loop visits the
    entries of [a], answers true exactly when the two maps are the same
    map: same size, and every entry of [a] is an entry of [b]. *)
Theorem Equal_iff_same_entries `{Countable K} {V} `{EqDecision V}
        (order : list (K * V)) (a b : gmap K V) :
  Maps.visits order a →
  (Maps.Equal order a b = true ↔ a = b)
  ∧ (Maps.Equal order a b = true
     ↔ size a = size b ∧ ∀ k v, a !! k = Some v → b !! k = Some v).
Proof. intros Hv. split; [by apply Equal_eq|by apply Equal_spec]. Qed.

Lemma Equal_iff_same_entries_witness :
  Maps.Equal sampleOrder sampleMap (Maps.Copy sampleMap) = true
  ∧ Maps.Equal sampleOrder sampleMap (<["c" := 3]> sampleMap) = false.
Proof.
  assert (Maps.visits sampleOrder sampleMap) as Hv by (vm_compute; apply perm_swap).
  split.
  - apply (proj1 (Equal_iff_same_entries sampleOrder sampleMap (Maps.Copy sampleMap) Hv)).
    vm_compute. reflexivity.
  - apply not_true_iff_false. intros Heq.
    apply (proj1 (Equal_iff_same_entries sampleOrder sampleMap _ Hv)) in Heq.
    vm_compute in Heq. discriminate.
Defined.

(** X2: [maps.Copy] returns a map with exactly the entries of its
    argument, so that [maps.Equal] holds between the copy and the
    original. *)
Theorem Copy_same_entries `{Countable K} {V} `{EqDecision V} (m : gmap K V) :
  Maps.Copy m = m
  ∧ ∀ order, Maps.visits order (Maps.Copy m) → Maps.Equal order (Maps.Copy m) m = true.
Proof.
  split; [apply Copy_id|]. intros order Hv.
  apply (Equal_eq order (Maps.Copy m) m Hv), Copy_id.
Qed.

Lemma Copy_same_entries_witness :
  Maps.Equal sampleOrder (Maps.Copy sampleMap) sampleMap = true.
Proof.
  apply (proj2 (Copy_same_entries sampleMap) sampleOrder). vm_compute. apply perm_swap.
Defined.

(** X4: [maps.Merge] has the empty map as unit on both sides, is
    idempotent and associative, yields at most [len(m1)+len(m2)] entries,
    and commutes exactly when the two maps agree on their common keys. *)
Theorem Merge_monoid `{Countable K} {V} (m1 m2 m3 : gmap K V) :
  Maps.Merge m1 ∅ = m1
  ∧ Maps.Merge ∅ m1 = m1
  ∧ Maps.Merge m1 m1 = m1
  ∧ Maps.Merge (Maps.Merge m1 m2) m3 = Maps.Merge m1 (Maps.Merge m2 m3)
  ∧ (size (Maps.Merge m1 m2) ≤ size m1 + size m2)%nat
  ∧ (Maps.Merge m1 m2 = Maps.Merge m2 m1
     ↔ ∀ k v1 v2, m1 !! k = Some v1 → m2 !! k = Some v2 → v1 = v2).
Proof.
  rewrite !Merge_union.
  split; [apply (right_id_L ∅ (∪))|]. split; [apply (left_id_L ∅ (∪))|].
  split; [apply (idemp_L (∪))|]. split; [by rewrite (assoc_L (∪))|].
  split; [apply union_size_le|]. split.
  - intros Heq k v1 v2 H1 H2.
    assert ((m1 ∪ m2) !! k = Some v1) as Hl by (by apply lookup_union_Some_l).
    rewrite Heq in Hl. rewrite (lookup_union_Some_l m2 m1 k v2 H2) in Hl. congruence.
  - intros Hagree. apply map_eq. intros k. rewrite !lookup_union.
    destruct (m1 !! k) as [v1|] eqn:H1, (m2 !! k) as [v2|] eqn:H2; simpl; try done.
    by rewrite (Hagree k v1 v2).
Qed.

Lemma Maps_Map_ToMap `{Countable K1} `{Countable K2} {V1 V2}
      (order : list (K1 * V1)) (fn : K1 → V1 → K2 * V2) :
  Maps.Map order fn = Slices.ToMap order (λ kv, fn kv.1 kv.2).
Proof.
  unfold Maps.Map, Slices.ToMap. generalize (∅ : gmap K2 V2).
  induction order as [|[k1 v1] order IH]; intros r0; simpl; [done|]. apply IH.
Qed.

(** X3: whatever the iteration order, every entry of the result of
    [maps.Map] is the image under [fn] of an entry of the argument, the
    image key of every entry is present, and the result is no larger than
    the argument; when [fn] sends distinct keys to distinct keys the image
    of every entry is in the result and the sizes agree.  (When two keys
    collide, which value survives depends on the iteration order.) *)
Theorem Map_entries `{Countable K1} `{Countable K2} {V1 V2}
        (order : list (K1 * V1)) (m : gmap K1 V1) (fn : K1 → V1 → K2 * V2) :
  Maps.visits order m →
  (∀ k2 v2, Maps.Map order fn !! k2 = Some v2 →
            ∃ k1 v1, m !! k1 = Some v1 ∧ fn k1 v1 = (k2, v2))
  ∧ (∀ k1 v1, m !! k1 = Some v1 → is_Some (Maps.Map order fn !! (fn k1 v1).1))
  ∧ (size (Maps.Map order fn) ≤ size m)%nat
  ∧ ((∀ k1 v1 k1' v1', m !! k1 = Some v1 → m !! k1' = Some v1' →
                       (fn k1 v1).1 = (fn k1' v1').1 → k1 = k1') →
     (∀ k1 v1, m !! k1 = Some v1 →
               Maps.Map order fn !! (fn k1 v1).1 = Some (fn k1 v1).2)
     ∧ size (Maps.Map order fn) = size m).
Proof.
  intros Hv. rewrite Maps_Map_ToMap. split; [|split; [|split]].
  - intros k2 v2 ([k1 v1] & Hin & Hfn)%ToMap_lookup_Some.
    exists k1, v1. split; [by apply (visits_elem order m)|done].
  - intros k1 v1 Hm. apply not_eq_None_Some. intros Hnone.
    apply (proj1 (ToMap_lookup_None _ _ _) Hnone (k1, v1)); [|done].
    by apply (visits_elem order m).
  - rewrite <- (visits_length order m Hv). apply ToMap_size.
  - intros Hinj. split.
    + intros k1 v1 Hm. apply (visits_elem order m k1 v1 Hv) in Hm.
      apply list_elem_of_split in Hm as (pre & post & ->).
      apply (ToMap_last (λ kv, fn kv.1 kv.2) pre post (k1, v1)).
      intros [k1' v1'] Hin Hkey. simpl in Hkey.
      pose proof (visits_NoDup _ _ Hv) as Hnd.
      rewrite fmap_app, fmap_cons in Hnd. apply NoDup_app in Hnd as (_ & _ & Hnd).
      apply NoDup_cons in Hnd as [Hnotin _]. apply Hnotin.
      assert (k1' = k1) as <-.
      { apply (Hinj k1' v1' k1 v1); [| |done].
        - apply (visits_elem _ m _ _ Hv). apply elem_of_app. right. by right.
        - apply (visits_elem _ m _ _ Hv). apply elem_of_app. right. by left. }
      apply list_elem_of_fmap. by exists (k1', v1').
    + rewrite <- (visits_length order m Hv). apply ToMap_size_NoDup.
      apply (NoDup_fmap_2_strong (λ kv : K1 * V1, (fn kv.1 kv.2).1)).
      * intros [k1 v1] [k1' v1'] Hin Hin' Hkey. simpl in Hkey.
        apply (visits_elem _ m _ _ Hv) in Hin, Hin'.
        assert (k1 = k1') as <- by by apply (Hinj k1 v1 k1' v1').
        congruence.
      * eapply NoDup_fmap_1, visits_NoDup, Hv.
Qed.

Lemma Map_entries_witness :
  Maps.Map sampleOrder (λ (k : string) (v : Z), (k, v + 1)) !! "a" = Some 2
  ∧ size (Maps.Map sampleOrder (λ (k : string) (v : Z), (k, v + 1))) = 2%nat.
Proof.
  assert (Maps.visits sampleOrder sampleMap) as Hv by (vm_compute; apply perm_swap).
  destruct (Map_entries sampleOrder sampleMap (λ (k : string) (v : Z), (k, v + 1)) Hv)
    as (_ & _ & _ & Hinj).
  destruct Hinj as [Hlookup Hsize]; [by intros k1 v1 k1' v1' _ _ Hkey|].
  split; [|exact Hsize]. apply (Hlookup "a" 1). reflexivity.
Defined.

Lemma ToSlice_elem `{Countable K} {V T} (order : list (K * V)) (m : gmap K V)
      (fn : K → V → T) (t : T) :
  Maps.visits order m →
  t ∈ Maps.ToSlice order fn ↔ ∃ k v, m !! k = Some v ∧ fn k v = t.
Proof.
  intros Hv. rewrite ToSlice_map, list_elem_of_In, in_map_iff. split.
  - intros ([k v] & Hfn & Hin). exists k, v.
    split; [by apply (visits_elem order m), list_elem_of_In|done].
  - intros (k & v & Hm & Hfn). exists (k, v). split; [done|].
    by apply list_elem_of_In, (visits_elem order m).
Qed.

Lemma ToSlice_length `{Countable K} {V T} (order : list (K * V)) (m : gmap K V)
      (fn : K → V → T) :
  Maps.visits order m → length (Maps.ToSlice order fn) = size m.
Proof. intros Hv. by rewrite ToSlice_map, length_map, (visits_length order m). Qed.

(** X5: [maps.ToSlice] yields one element per entry of the map, the
    images of the entries under [fn]; two iteration orders give
    permutations of each other; and [slices.ToMap] brings the slice of
    the (key, value) pairs back to the map. *)
Theorem ToSlice_one_per_entry `{Countable K} {V T} (order : list (K * V))
        (m : gmap K V) (fn : K → V → T) :
  Maps.visits order m →
  length (Maps.ToSlice order fn) = size m
  ∧ (∀ t, t ∈ Maps.ToSlice order fn ↔ ∃ k v, m !! k = Some v ∧ fn k v = t)
  ∧ (∀ order', Maps.visits order' m →
               Maps.ToSlice order' fn ≡ₚ Maps.ToSlice order fn)
  ∧ Slices.ToMap (Maps.ToSlice order (λ k v, (k, v))) (λ kv, kv) = m.
Proof.
  intros Hv. split; [by apply ToSlice_length|]. split; [intros t; by apply ToSlice_elem|].
  split.
  - intros order' Hv'. rewrite !ToSlice_map. apply Permutation_map.
    unfold Maps.visits in *. by rewrite Hv, Hv'.
  - rewrite ToSlice_map, ToMap_list_to_map, map_id.
    rewrite (map_ext _ (λ kv, kv)) by (by intros [k v]). rewrite map_id.
    symmetry. apply list_to_map_flip. unfold Maps.visits in Hv.
    rewrite <- Hv. apply Permutation_rev.
Qed.

Lemma ToSlice_one_per_entry_witness :
  length (Maps.ToSlice sampleOrder (λ (k : string) (v : Z), v)) = 2%nat
  ∧ Slices.ToMap (Maps.ToSlice sampleOrder (λ (k : string) (v : Z), (k, v))) (λ kv, kv)
    = sampleMap.
Proof.
  assert (Maps.visits sampleOrder sampleMap) as Hv by (vm_compute; apply perm_swap).
  destruct (ToSlice_one_per_entry sampleOrder sampleMap (λ (k : string) (v : Z), v) Hv)
    as (Hlen & _ & _ & Hback).
  split; [exact Hlen|exact Hback].
Defined.

(** X6: [maps.Keys] lists every key of the map once ([slices.Contains]
    finds a key in it exactly when the map has it), [maps.Values] lists
    the values of the entries, repeated values included, and both have
    as many elements as the map has entries. *)
Theorem Keys_Values_of_entries `{Countable K} {V} (order : list (K * V)) (m : gmap K V) :
  Maps.visits order m →
  NoDup (Maps.Keys order)
  ∧ (∀ k, Slices.Contains (Maps.Keys order) k = true ↔ is_Some (m !! k))
  ∧ length (Maps.Keys order) = size m
  ∧ (∀ v, v ∈ Maps.Values order ↔ ∃ k, m !! k = Some v)
  ∧ length (Maps.Values order) = size m.
Proof.
  intros Hv. split; [|split; [|split; [|split]]].
  - unfold Maps.Keys. rewrite ToSlice_map. apply (visits_NoDup order m Hv).
  - intros k. rewrite Contains_Any, Any_Exists. unfold Maps.Keys. split.
    + intros (k' & Hin & Heq). apply bool_decide_eq_true in Heq as ->.
      apply (ToSlice_elem order m) in Hin as (k' & v & Hm & <-); [|done]. by exists v.
    + intros [v Hm]. exists k. split; [|by apply bool_decide_eq_true].
      apply (ToSlice_elem order m); [done|]. by exists k, v.
  - by apply ToSlice_length.
  - intros v. unfold Maps.Values. rewrite (ToSlice_elem order m) by done. split.
    + intros (k & v' & Hm & <-). by exists k.
    + intros (k & Hm). by exists k, v.
  - by apply ToSlice_length.
Qed.

Lemma Keys_Values_of_entries_witness :
  NoDup (Maps.Keys sampleOrder)
  ∧ (Slices.Contains (Maps.Keys sampleOrder) "a" = true ↔ is_Some (sampleMap !! "a"))
  ∧ length (Maps.Values sampleOrder) = 2%nat.
Proof.
  assert (Maps.visits sampleOrder sampleMap) as Hv by (vm_compute; apply perm_swap).
  destruct (Keys_Values_of_entries sampleOrder sampleMap Hv) as (Hnd & Hk & _ & _ & Hlen).
  split; [exact Hnd|]. split; [apply Hk|exact Hlen].
Defined.

(** ** Package maths *)

(** X16: for every ordered type, floats included, [maths.Min] and
    [maths.Max] return one of their two arguments, no argument is
    strictly below the result of [Min], and none strictly above the
    result of [Max]. *)
Theorem Min_Max_bounds {T} `{Ordered T} (a b : T) :
  (Maths.Min a b = a ∨ Maths.Min a b = b)
  ∧ lt a (Maths.Min a b) = false ∧ lt b (Maths.Min a b) = false
  ∧ (Maths.Max a b = a ∨ Maths.Max a b = b)
  ∧ lt (Maths.Max a b) a = false ∧ lt (Maths.Max a b) b = false.
Proof.
  assert (∀ x y : T, lt x y = true → lt y x = false) as Hasym.
  { intros x y Hxy. destruct (lt y x) eqn:Hyx; [|done].
    by rewrite <- (lt_irrefl x), (lt_trans x y x). }
  unfold Maths.Min, Maths.Max.
  destruct (lt a b) eqn:Hab; destruct (lt b a) eqn:Hba;
    rewrite ?lt_irrefl, ?Hab, ?Hba; try (rewrite (Hasym a b Hab) in Hba; done);
    repeat split; auto.
Qed.

Section Total.
Context {T : Type} `{TotallyOrdered T}.

Lemma lt_asym (x y : T) : lt x y = true → lt y x = false.
Proof.
  intros Hxy. destruct (lt y x) eqn:Hyx; [|done].
  by rewrite <- (lt_irrefl x), (lt_trans x y x).
Qed.

Lemma Max_loop_fold (items : list T) (a : T) :
  fold_left (λ result item, if Maths.GreaterThan item result then item else result) items a
  = fold_left Maths.Max items a.
Proof.
  revert a. induction items as [|x items IH]; intros a; simpl; [done|].
  rewrite IH. f_equal. unfold Maths.GreaterThan, Maths.Max.
  destruct (lt a x) eqn:Hax.
  - by rewrite (lt_asym a x).
  - destruct (lt x a) eqn:Hxa; [done|]. by apply lt_total.
Qed.

Lemma Min_loop_fold (items : list T) (a : T) :
  fold_left (λ result item, if Maths.LessThan item result then item else result) items a
  = fold_left Maths.Min items a.
Proof.
  revert a. induction items as [|x items IH]; intros a; simpl; [done|].
  rewrite IH. f_equal. unfold Maths.LessThan, Maths.Min.
  destruct (lt x a) eqn:Hxa.
  - by rewrite (lt_asym x a).
  - destruct (lt a x) eqn:Hax; [done|]. by apply lt_total.
Qed.

End Total.

(** X17: on a totally ordered type (integers, strings)
    [slices.Max] and [slices.Min] of a non-empty slice are the folds of
    [maths.Max] and [maths.Min] over it; on two items they agree with
    [maths.Max] and [maths.Min], which are commutative and return the
    two arguments between them. *)
Theorem slices_Max_folds_maths_Max {T} `{TotallyOrdered T} (a b : T) (items : list T) :
  Slices.Max (a :: items) = Slices.Reduce items a Maths.Max
  ∧ Slices.Min (a :: items) = Slices.Reduce items a Maths.Min
  ∧ Slices.Max [a; b] = Maths.Max a b
  ∧ Slices.Min [a; b] = Maths.Min a b
  ∧ Maths.Max a b = Maths.Max b a
  ∧ Maths.Min a b = Maths.Min b a
  ∧ ((Maths.Min a b = a ∧ Maths.Max a b = b) ∨ (Maths.Min a b = b ∧ Maths.Max a b = a)).
Proof.
  assert (∀ a items, Slices.Max (a :: items) = Slices.Reduce items a Maths.Max) as HMax.
  { intros a' items'. unfold Slices.Max, Slices.extremum, Slices.Reduce.
    rewrite Max_loop_fold. simpl. unfold Maths.Max at 2. by rewrite lt_irrefl. }
  assert (∀ a items, Slices.Min (a :: items) = Slices.Reduce items a Maths.Min) as HMin.
  { intros a' items'. unfold Slices.Min, Slices.extremum, Slices.Reduce.
    rewrite Min_loop_fold. simpl. unfold Maths.Min at 2. by rewrite lt_irrefl. }
  split; [apply HMax|]. split; [apply HMin|].
  split; [by rewrite HMax|]. split; [by rewrite HMin|].
  unfold Maths.Max, Maths.Min.
  destruct (lt a b) eqn:Hab; destruct (lt b a) eqn:Hba;
    try (rewrite (lt_asym a b Hab) in Hba; done).
  - repeat split; auto.
  - repeat split; auto.
  - rewrite (lt_total a b Hab Hba). repeat split; auto.
Qed.

(** X18: on a totally ordered type [maths.IsWithinRange] holds
    exactly when the value is neither below the lower bound nor above the
    upper bound (both bounds included); no value is within a range whose
    upper bound is below its lower bound; otherwise
    [Max(lowerBound, Min(val, upperBound))] is always within the range,
    and is [val] itself when [val] already is. *)
Theorem IsWithinRange_clamp {T} `{TotallyOrdered T} (val lowerBound upperBound : T) :
  (Maths.IsWithinRange val lowerBound upperBound = true
   ↔ lt val lowerBound = false ∧ lt upperBound val = false)
  ∧ (lt upperBound lowerBound = true →
     Maths.IsWithinRange val lowerBound upperBound = false)
  ∧ (lt upperBound lowerBound = false →
     Maths.IsWithinRange (Maths.Max lowerBound (Maths.Min val upperBound))
                         lowerBound upperBound = true)
  ∧ (Maths.IsWithinRange val lowerBound upperBound = true →
     Maths.Max lowerBound (Maths.Min val upperBound) = val).
Proof.
  assert (∀ v, Maths.IsWithinRange v lowerBound upperBound = true
               ↔ lt v lowerBound = false ∧ lt upperBound v = false) as Hspec.
  { intros v. unfold Maths.IsWithinRange, geq. rewrite !leq_not_gt, andb_true_iff.
    by rewrite !negb_true_iff. }
  split; [apply Hspec|]. split; [|split].
  - intros Hempty. apply not_true_iff_false. rewrite Hspec. intros [Hlo Hhi].
    destruct (lt val upperBound) eqn:Hvu.
    + by rewrite (lt_trans val upperBound lowerBound) in Hlo.
    + rewrite (lt_total val upperBound Hvu Hhi) in Hlo. congruence.
  - intros Hne. apply Hspec. unfold Maths.Max, Maths.Min.
    destruct (lt val upperBound) eqn:Hvu.
    + destruct (lt val lowerBound) eqn:Hvl.
      * by rewrite lt_irrefl.
      * split; [done|]. by apply lt_asym.
    + destruct (lt upperBound lowerBound) eqn:Hul; [done|].
      by rewrite lt_irrefl.
  - intros [Hlo Hhi]%Hspec. unfold Maths.Max, Maths.Min.
    destruct (lt val upperBound) eqn:Hvu.
    + by rewrite Hlo.
    + assert (val = upperBound) as -> by by apply lt_total. by rewrite Hlo.
Qed.

Lemma IsWithinRange_clamp_witness :
  Maths.IsWithinRange (Maths.Max 0 (Maths.Min 15 10)) 0 10 = true
  ∧ Maths.IsWithinRange 5 10 0 = false.
Proof.
  split.
  - apply (IsWithinRange_clamp 15 0 10). reflexivity.
  - apply (IsWithinRange_clamp 5 10 0). reflexivity.
Defined.

(** ** Package types *)

(** X19: [ToBoolFromInt] undoes [ToIntFromBool]; [ToIntFromBool]
    undoes [ToBoolFromInt] only on 0 and 1, every positive integer being
    true and every other one, the negative ones included, false; and
    [strconv.ParseBool] reads back what [ToStringFromBool] writes. *)
Theorem bool_int_round_trip (b : bool) (i : Z) :
  Types.ToBoolFromInt (Types.ToIntFromBool b) = b
  ∧ (Types.ToIntFromBool (Types.ToBoolFromInt i) = i ↔ i = 0 ∨ i = 1)
  ∧ (Types.ToBoolFromInt i = true ↔ 0 < i)
  ∧ ParseBool (Types.ToStringFromBool b) = b.
Proof.
  unfold Types.ToBoolFromInt, Types.ToIntFromBool, Types.ToStringFromBool.
  split; [by destruct b|]. split; [|split].
  - destruct (Z.ltb_spec 0 i); lia.
  - apply Z.ltb_lt.
  - by destruct b.
Qed.

(** ** Command-line arguments *)

Lemma parseArgs_live_A (args : list string) :
  (4 ≤ length args)%nat →
  ¬ (length args = 5%nat ∧ ParseBool (nth 4 args "") = true) →
  MRCleanup.parseArgs args = MRCleanup.parseArgs (take 4 args).
Proof.
  intros Hlen Hflag. unfold MRCleanup.parseArgs.
  rewrite length_take_le by done.
  destruct (Nat.ltb_spec (length args) 4) as [?|_]; [lia|]. simpl.
  rewrite !nth_firstn. simpl.
  destruct (Nat.eqb_spec (length args) 5) as [H5|_]; [|done].
  destruct (ParseBool (nth 4 args "")); [|done]. by destruct Hflag.
Qed.

Lemma parseArgs_live_B (args : list string) :
  (6 ≤ length args)%nat →
  ¬ (length args = 7%nat ∧ ParseBool (nth 6 args "") = true) →
  BranchCleanup.parseArgs args = BranchCleanup.parseArgs (take 6 args).
Proof.
  intros Hlen Hflag. unfold BranchCleanup.parseArgs.
  rewrite length_take_le by done.
  destruct (Nat.ltb_spec (length args) 6) as [?|_]; [lia|]. simpl.
  rewrite !nth_firstn. simpl.
  destruct (Nat.eqb_spec (length args) 7) as [H7|_]; [|done].
  destruct (ParseBool (nth 6 args "")); [|done]. by destruct Hflag.
Qed.

(** X20: in both scripts a run with too few arguments prints the
    usage and exits with status 1 without any call; the dry-run flag is
    set exactly when there are exactly five (first script) or seven
    (second script) arguments and the last one is one of 1, t, T, TRUE,
    true, True; in every other case, a trailing extra argument included,
    the run is the run without the flag. *)
Theorem dry_run_flag_position (w : World) (fuel : nat) (args : list string) :
  ((length args < 4)%nat →
   MRCleanup.main w args
   = ([Print ("missing args. Usage: [gitlabtoken] [slacktoken] [jiratoken] [dryrun]" ++ nl)],
      Exited 1))
  ∧ (∀ a, outcome (MRCleanup.parseArgs args) = Returned a →
          (MRCleanup.isDryRun a = true
           ↔ length args = 5%nat
             ∧ nth 4 args "" ∈ ["1"; "t"; "T"; "TRUE"; "true"; "True"]))
  ∧ ((4 ≤ length args)%nat →
     ¬ (length args = 5%nat ∧ ParseBool (nth 4 args "") = true) →
     MRCleanup.main w args = MRCleanup.main w (take 4 args))
  ∧ ((length args < 6)%nat →
     BranchCleanup.main w fuel args
     = ([Print ("missing args. Usage: [gitlab token] [gitlab project id] [slack token] [slack channel id] [jira token] [dryrun]" ++ nl)],
        Exited 1))
  ∧ (∀ a, outcome (BranchCleanup.parseArgs args) = Returned a →
          (BranchCleanup.isDryRun a = true
           ↔ length args = 7%nat
             ∧ nth 6 args "" ∈ ["1"; "t"; "T"; "TRUE"; "true"; "True"]))
  ∧ ((6 ≤ length args)%nat →
     ¬ (length args = 7%nat ∧ ParseBool (nth 6 args "") = true) →
     BranchCleanup.main w fuel args = BranchCleanup.main w fuel (take 6 args)).
Proof.
  split; [|split; [|split; [|split; [|split]]]].
  - intros Hlen. unfold MRCleanup.main, MRCleanup.parseArgs.
    by destruct (Nat.ltb_spec (length args) 4) as [_|?]; [|lia].
  - intros a. unfold MRCleanup.parseArgs.
    destruct (length args <? 4)%nat; [done|].
    destruct (Nat.eqb_spec (length args) 5) as [H5|H5].
    + unfold ParseBool. case_bool_decide as Hin; simpl; intros [= <-]; simpl.
      * by split; [intros _|].
      * by split; [|intros [_ ?]].
    + simpl. intros [= <-]. simpl. by split; [|intros [? _]].
  - intros Hlen Hflag. unfold MRCleanup.main. by rewrite parseArgs_live_A.
  - intros Hlen. unfold BranchCleanup.main, BranchCleanup.parseArgs.
    by destruct (Nat.ltb_spec (length args) 6) as [_|?]; [|lia].
  - intros a. unfold BranchCleanup.parseArgs.
    destruct (length args <? 6)%nat; [done|].
    destruct (Nat.eqb_spec (length args) 7) as [H7|H7].
    + unfold ParseBool. case_bool_decide as Hin; simpl; intros [= <-]; simpl.
      * by split; [intros _|].
      * by split; [|intros [_ ?]].
    + simpl. intros [= <-]. simpl. by split; [|intros [? _]].
  - intros Hlen Hflag. unfold BranchCleanup.main. by rewrite parseArgs_live_B.
Qed.

Lemma dry_run_flag_position_witness :
  MRCleanup.main sampleMRWorld ["cleanup"; "g"; "s"; "j"; "true"; "extra"]
  = MRCleanup.main sampleMRWorld ["cleanup"; "g"; "s"; "j"]
  ∧ MRCleanup.main sampleMRWorld ["cleanup"; "g"; "s"; "j"; "yes"]
    = MRCleanup.main sampleMRWorld ["cleanup"; "g"; "s"; "j"].
Proof.
  split.
  - apply (dry_run_flag_position sampleMRWorld 0%nat
             ["cleanup"; "g"; "s"; "j"; "true"; "extra"]); simpl; lia.
  - apply (dry_run_flag_position sampleMRWorld 0%nat ["cleanup"; "g"; "s"; "j"; "yes"]);
      [simpl; lia|]. intros [_ Hflag]. vm_compute in Hflag. discriminate.
Defined.

(** ** Title parsing: every match *)






(** ** Pagination requests *)

Lemma requestedPages_app (tr1 tr2 : list Event) :
  requestedPages (tr1 ++ tr2) = requestedPages tr1 ++ requestedPages tr2.
Proof. apply flat_map_app. Qed.

Lemma call_list_branches_bind {B} (w : World) pid opt
      (k : string + (list Branch * Response) → M B) :
  outcome (callListBranches w pid opt ≫= k) = outcome (k (gitlabListBranches w pid opt))
  ∧ trace (callListBranches w pid opt ≫= k)
    = ListBranches pid opt :: trace (k (gitlabListBranches w pid opt)).
Proof.
  unfold callListBranches, mbind, M_bind, emit, mret, M_ret, outcome, trace. simpl.
  by destruct (k _).
Qed.

Lemma call_list_mrs_bind {B} (w : World) pid opt
      (k : string + (list MergeRequest * Response) → M B) :
  outcome (callListProjectMergeRequests w pid opt ≫= k)
  = outcome (k (gitlabListProjectMergeRequests w pid opt))
  ∧ trace (callListProjectMergeRequests w pid opt ≫= k)
    = ListProjectMergeRequests pid opt
      :: trace (k (gitlabListProjectMergeRequests w pid opt)).
Proof.
  unfold callListProjectMergeRequests, mbind, M_bind, emit, mret, M_ret, outcome, trace.
  simpl. by destruct (k _).
Qed.

Section PaginationRequests.
Context (w : World).

Lemma getBranchesLoop_requests (pages : list (list Branch)) (pid : string) :
  serves_branches w pages →
  ∀ (fuel : nat) (page perPage : Z) (branches : list Branch),
    0 <= page →
    (length pages - Z.to_nat (Z.max page 1 - 1) < fuel)%nat →
    requestedPages (trace (BranchCleanup.getBranchesLoop w fuel pid
                             {| Page := page; PerPage := perPage |} branches))
    = page :: seqZ (Z.max page 1 + 1) (lenZ pages - Z.max page 1).
Proof.
  intros Hw. induction fuel as [|fuel IH]; intros page perPage branches Hpage Hfuel;
    [lia|].
  cbn [BranchCleanup.getBranchesLoop].
  match goal with
  | |- context [callListBranches w ?p ?o ≫= ?k] =>
      destruct (call_list_branches_bind w p o k) as [_ ->]
  end.
  cbn [requestedPages flat_map app Page]. f_equal.
  rewrite Hw. unfold pagedReply. cbn [StatusCode NextPage Page PerPage].
  change (400 <=? 200) with false. cbv iota.
  set (p := Z.max page 1) in *.
  destruct (p <? lenZ pages) eqn:Hlt.
  - apply Z.ltb_lt in Hlt. unfold lenZ in Hlt.
    replace (p + 1 =? 0) with false by (symmetry; apply Z.eqb_neq; lia).
    fold (requestedPages (trace (BranchCleanup.getBranchesLoop w fuel pid
            {| Page := p + 1; PerPage := perPage |}
            (branches ++ nth (Z.to_nat (p - 1)) pages [])))).
    rewrite IH; [|lia|].
    + replace (Z.max (p + 1) 1) with (p + 1) by lia. unfold lenZ.
      rewrite (seqZ_cons (p + 1)) by lia. f_equal. f_equal; lia.
    + replace (Z.to_nat (Z.max (p + 1) 1 - 1)) with (S (Z.to_nat (p - 1))) by lia.
      lia.
  - apply Z.ltb_ge in Hlt. change (0 =? 0) with true. cbv iota.
    cbn [mret M_ret trace fst flat_map]. symmetry. apply seqZ_nil. lia.
Qed.

Lemma getMergeRequestsLoop_requests (pages : list (list MergeRequest)) (pid : string) :
  serves_merge_requests w pages →
  ∀ (fuel : nat) (state : string) (page perPage : Z) (mergeRequests : list MergeRequest),
    0 <= page →
    (length pages - Z.to_nat (Z.max page 1 - 1) < fuel)%nat →
    requestedPages (trace (BranchCleanup.getMergeRequestsLoop w fuel pid
                             {| State := state;
                                MRListOptions := {| Page := page; PerPage := perPage |} |}
                             mergeRequests))
    = page :: seqZ (Z.max page 1 + 1) (lenZ pages - Z.max page 1).
Proof.
  intros Hw. induction fuel as [|fuel IH];
    intros state page perPage mergeRequests Hpage Hfuel; [lia|].
  cbn [BranchCleanup.getMergeRequestsLoop].
  match goal with
  | |- context [callListProjectMergeRequests w ?p ?o ≫= ?k] =>
      destruct (call_list_mrs_bind w p o k) as [_ ->]
  end.
  cbn [requestedPages flat_map app Page MRListOptions]. f_equal.
  rewrite Hw. unfold pagedReply. cbn [StatusCode NextPage Page PerPage MRListOptions State].
  change (400 <=? 200) with false. cbv iota.
  set (p := Z.max page 1) in *.
  destruct (p <? lenZ pages) eqn:Hlt.
  - apply Z.ltb_lt in Hlt. unfold lenZ in Hlt.
    replace (p + 1 =? 0) with false by (symmetry; apply Z.eqb_neq; lia).
    fold (requestedPages (trace (BranchCleanup.getMergeRequestsLoop w fuel pid
            {| State := state; MRListOptions := {| Page := p + 1; PerPage := perPage |} |}
            (mergeRequests ++ nth (Z.to_nat (p - 1)) pages [])))).
    rewrite IH; [|lia|].
    + replace (Z.max (p + 1) 1) with (p + 1) by lia. unfold lenZ.
      rewrite (seqZ_cons (p + 1)) by lia. f_equal. f_equal; lia.
    + replace (Z.to_nat (Z.max (p + 1) 1 - 1)) with (S (Z.to_nat (p - 1))) by lia.
      lia.
  - apply Z.ltb_ge in Hlt. change (0 =? 0) with true. cbv iota.
    cbn [mret M_ret trace fst flat_map]. symmetry. apply seqZ_nil. lia.
Qed.

Lemma getBranchesLoop_endless (pid : string) :
  endless w →
  ∀ (fuel : nat) (options : ListOptions) (branches : list Branch),
    outcome (BranchCleanup.getBranchesLoop w fuel pid options branches) = Diverged
    ∧ length (requestedPages (trace (BranchCleanup.getBranchesLoop w fuel pid options
                                       branches))) = fuel.
Proof.
  intros [Hw _]. induction fuel as [|fuel IH]; intros options branches; [done|].
  cbn [BranchCleanup.getBranchesLoop].
  match goal with
  | |- context [callListBranches w ?p ?o ≫= ?k] =>
      destruct (call_list_branches_bind w p o k) as [-> ->]
  end.
  destruct (Hw (PidString pid) options) as (bs & resp & -> & Hstatus & Hnext).
  replace (400 <=? StatusCode resp) with false by (symmetry; apply Z.leb_gt; lia).
  replace (NextPage resp =? 0) with false by (symmetry; by apply Z.eqb_neq).
  cbn [requestedPages flat_map app length].
  destruct (IH {| Page := NextPage resp; PerPage := PerPage options |} (branches ++ bs))
    as [Hout Hlen].
  split; [done|]. f_equal. exact Hlen.
Qed.

Lemma getMergeRequestsLoop_endless (pid : string) :
  endless w →
  ∀ (fuel : nat) (options : ListProjectMergeRequestsOptions) (mrs : list MergeRequest),
    outcome (BranchCleanup.getMergeRequestsLoop w fuel pid options mrs) = Diverged
    ∧ length (requestedPages (trace (BranchCleanup.getMergeRequestsLoop w fuel pid options
                                       mrs))) = fuel.
Proof.
  intros [_ Hw]. induction fuel as [|fuel IH]; intros options mrs; [done|].
  cbn [BranchCleanup.getMergeRequestsLoop].
  match goal with
  | |- context [callListProjectMergeRequests w ?p ?o ≫= ?k] =>
      destruct (call_list_mrs_bind w p o k) as [-> ->]
  end.
  destruct (Hw (PidString pid) options) as (bs & resp & -> & Hstatus & Hnext).
  replace (400 <=? StatusCode resp) with false by (symmetry; apply Z.leb_gt; lia).
  replace (NextPage resp =? 0) with false by (symmetry; by apply Z.eqb_neq).
  cbn [requestedPages flat_map app length].
  destruct (IH {| State := State options;
                  MRListOptions := {| Page := NextPage resp;
                                      PerPage := PerPage (MRListOptions options) |} |}
               (mrs ++ bs)) as [Hout Hlen].
  split; [done|]. f_equal. exact Hlen.
Qed.

End PaginationRequests.

(** X22: against a GitLab that exposes a given list of pages, the
    second script's [getBranches] and [getMergeRequests] ask for the
    first page and then for pages 2, 3, ... up to the last, one request
    each; the first script's [getMergeRequests] makes a single request;
    and against an endpoint that always announces a next page the loops
    never end: they make as many requests as they are given steps. *)
Theorem one_request_per_page (w : World) (pid : string) (fuel : nat) :
  (∀ branchPages, serves_branches w branchPages → (length branchPages < fuel)%nat →
                  requestedPages (trace (BranchCleanup.getBranches w fuel pid))
                  = 0 :: seqZ 2 (lenZ branchPages - 1))
  ∧ (∀ mrPages, serves_merge_requests w mrPages → (length mrPages < fuel)%nat →
                requestedPages (trace (BranchCleanup.getMergeRequests w fuel pid))
                = 0 :: seqZ 2 (lenZ mrPages - 1))
  ∧ requestedPages (trace (MRCleanup.getMergeRequests w)) = [0]
  ∧ (endless w →
     outcome (BranchCleanup.getBranches w fuel pid) = Diverged
     ∧ length (requestedPages (trace (BranchCleanup.getBranches w fuel pid))) = fuel
     ∧ outcome (BranchCleanup.getMergeRequests w fuel pid) = Diverged
     ∧ length (requestedPages (trace (BranchCleanup.getMergeRequests w fuel pid))) = fuel).
Proof.
  split; [|split; [|split]].
  - intros pages Hw Hfuel. unfold BranchCleanup.getBranches.
    rewrite trace_bind, requestedPages_app.
    rewrite (getBranchesLoop_requests w pages pid Hw) by (simpl; lia).
    rewrite (getBranchesLoop_all w pages pid Hw) by (simpl; lia).
    rewrite !trace_bind. cbn [Printf emit trace fst outcome snd mret M_ret app].
    cbn [requestedPages flat_map app]. by rewrite app_nil_r.
  - intros pages Hw Hfuel. unfold BranchCleanup.getMergeRequests.
    rewrite trace_bind, requestedPages_app.
    rewrite (getMergeRequestsLoop_requests w pages pid Hw) by (simpl; lia).
    rewrite (getMergeRequestsLoop_all w pages pid Hw) by (simpl; lia).
    rewrite !trace_bind. cbn [Printf emit trace fst outcome snd mret M_ret app].
    cbn [requestedPages flat_map app]. by rewrite app_nil_r.
  - unfold MRCleanup.getMergeRequests.
    match goal with
    | |- context [callListProjectMergeRequests w ?p ?o ≫= ?k] =>
        destruct (call_list_mrs_bind w p o k) as [_ ->]
    end.
    cbn [requestedPages flat_map app Page MRListOptions]. f_equal.
    destruct (gitlabListProjectMergeRequests w _ _) as [err|[mrs resp]]; [done|].
    destruct (400 <? StatusCode resp); [done|].
    rewrite !trace_bind. by cbn [Printf emit trace fst outcome snd mret M_ret app flat_map].
  - intros Hw. unfold BranchCleanup.getBranches, BranchCleanup.getMergeRequests.
    rewrite !outcome_bind, !trace_bind.
    destruct (getBranchesLoop_endless w pid Hw fuel
                {| Page := 0; PerPage := BranchCleanup.maxPerPage |} []) as [-> Hb].
    destruct (getMergeRequestsLoop_endless w pid Hw fuel
                {| State := "opened";
                   MRListOptions := {| Page := 0; PerPage := BranchCleanup.maxPerPage |} |}
                []) as [-> Hm].
    by rewrite !app_nil_r.
Qed.

Lemma one_request_per_page_witness :
  requestedPages (trace (BranchCleanup.getMergeRequests twoPageWorld 5%nat "42")) = [0; 2]
  ∧ outcome (BranchCleanup.getBranches endlessWorld 7%nat "42") = Diverged
  ∧ length (requestedPages (trace (BranchCleanup.getBranches endlessWorld 7%nat "42"))) = 7%nat.
Proof.
  split.
  - apply (proj1 (proj2 (one_request_per_page twoPageWorld "42" 5%nat))
             [[mrOld]; [mrFresh]]); [|simpl; lia].
    intros pid opt. reflexivity.
  - assert (endless endlessWorld) as Hw.
    { split; intros pid opt; eexists _, _; (split; [reflexivity|]); simpl; lia. }
    destruct (proj2 (proj2 (proj2 (one_request_per_page endlessWorld "42" 7%nat))) Hw)
      as (Hout & Hlen & _). by split.
Defined.

(** ** The calls of the closing stage *)

Lemma issueLookups_app (tr1 tr2 : list Event) :
  issueLookups (tr1 ++ tr2) = issueLookups tr1 ++ issueLookups tr2.
Proof. apply flat_map_app. Qed.

Lemma closedIIDs_app (tr1 tr2 : list Event) :
  closedIIDs (tr1 ++ tr2) = closedIIDs tr1 ++ closedIIDs tr2.
Proof. apply flat_map_app. Qed.

Lemma issueLookups_only {A} (ks : list Kind) (m : M A) :
  ¬ In KIssueGet ks → only ks m → issueLookups (trace m) = [].
Proof.
  intros Hks. unfold only. induction 1 as [|e tr He _ IH]; [done|].
  cbn [issueLookups flat_map]. fold (issueLookups tr). rewrite IH.
  by destruct e.
Qed.

Lemma closedIIDs_only {A} (ks : list Kind) (m : M A) :
  ¬ In KUpdate ks → only ks m → closedIIDs (trace m) = [].
Proof.
  intros Hks. unfold only. induction 1 as [|e tr He _ IH]; [done|].
  cbn [closedIIDs flat_map]. fold (closedIIDs tr). rewrite IH.
  by destruct e.
Qed.

Lemma call_issue_bind {B} (w : World) (id : string) (k : JiraReply → M B) :
  outcome (callIssueGet w id ≫= k) = outcome (k (jiraIssueGet w id))
  ∧ trace (callIssueGet w id ≫= k) = IssueGet id :: trace (k (jiraIssueGet w id)).
Proof.
  unfold callIssueGet, mbind, M_bind, emit, mret, M_ret, outcome, trace. simpl.
  by destruct (k _).
Qed.

Lemma call_update_bind {B} (w : World) pid iid opt (k : string + Response → M B) :
  outcome (callUpdateMergeRequest w pid iid opt ≫= k)
  = outcome (k (gitlabUpdateMergeRequest w pid iid opt))
  ∧ trace (callUpdateMergeRequest w pid iid opt ≫= k)
    = UpdateMergeRequest pid iid opt :: trace (k (gitlabUpdateMergeRequest w pid iid opt)).
Proof.
  unfold callUpdateMergeRequest, mbind, M_bind, emit, mret, M_ret, outcome, trace. simpl.
  by destruct (k _).
Qed.

Section ClosingCalls.
Context (w : World).

Lemma collectExpired_calls_B (now : Time) (mrs expiredMRs : list MergeRequest) :
  issueLookups (trace (BranchCleanup.collectExpired w (AddDate now 0 (-3) 0) mrs expiredMRs))
  = List.map (λ mr, getJiraIssueID (Title mr))
             (through_first_failure (jira_answers w) (List.filter (needs_lookup now) mrs))
  ∧ (if forallb (jira_answers w) (List.filter (needs_lookup now) mrs)
     then ∃ L, outcome (BranchCleanup.collectExpired w (AddDate now 0 (-3) 0) mrs expiredMRs)
               = Returned L
     else ∃ err, outcome (BranchCleanup.collectExpired w (AddDate now 0 (-3) 0) mrs expiredMRs)
                 = Failed err).
Proof.
  revert expiredMRs. induction mrs as [|mr mrs IH]; intros expiredMRs;
    [split; [done|by eexists]|].
  cbn [BranchCleanup.collectExpired List.filter].
  assert (∃ b, needs_lookup now mr = b) as [b Hb] by by eexists.
  rewrite Hb. unfold needs_lookup in Hb.
  destruct (Before (UpdatedAt mr) (AddDate now 0 (-3) 0)); cbn [negb andb] in Hb;
    [subst b; apply IH|].
  destruct (String.eqb (getJiraIssueID (Title mr)) "") eqn:Hid; cbn [negb andb] in Hb;
    subst b.
  { rewrite trace_bind, outcome_bind. cbn [Printf emit outcome trace fst snd app].
    apply IH. }
  match goal with
  | |- context [callIssueGet w ?id ≫= ?k] =>
      destruct (call_issue_bind w id k) as [-> ->]
  end.
  cbn [through_first_failure forallb List.map issueLookups flat_map app].
  fold (issueLookups).
  assert (∃ ok, jira_answers w mr = ok) as [ok Hok] by by eexists.
  rewrite Hok. unfold jira_answers, fatal_failure in Hok.
  destruct (jiraIssueGet w (getJiraIssueID (Title mr))) as [[resp|] err|statusName];
    cbn [negb andb] in Hok.
  - destruct (StatusCode resp =? 404); cbn [negb] in Hok; subst ok.
    + rewrite trace_bind, outcome_bind. cbn [Printf emit outcome trace fst snd app andb].
      destruct (IH expiredMRs) as [Htr Hfail]. unfold issueLookups in *.
      cbn [flat_map app]. rewrite Htr. split; [done|exact Hfail].
    + destruct (400 <=? StatusCode resp); (split; [done|by eexists]).
  - subst ok. split; [done|by eexists].
  - subst ok. cbn [andb]. destruct (String.eqb statusName "Closed").
    + destruct (IH (expiredMRs ++ [mr])) as [Htr Hfail]. unfold issueLookups in *.
      cbn [flat_map app]. rewrite Htr. split; [done|exact Hfail].
    + destruct (IH expiredMRs) as [Htr Hfail]. unfold issueLookups in *.
      cbn [flat_map app]. rewrite Htr. split; [done|exact Hfail].
Qed.

Lemma collectExpired_calls_A (now : Time) (mrs expiredMRs : list MergeRequest) :
  issueLookups (trace (MRCleanup.collectExpired w (AddDate now 0 (-3) 0) mrs expiredMRs))
  = List.map (λ mr, getJiraIssueID (Title mr))
             (through_first_failure (jira_answers w) (List.filter (needs_lookup now) mrs))
  ∧ (if forallb (jira_answers w) (List.filter (needs_lookup now) mrs)
     then ∃ L, outcome (MRCleanup.collectExpired w (AddDate now 0 (-3) 0) mrs expiredMRs)
               = Returned L
     else ∃ err, outcome (MRCleanup.collectExpired w (AddDate now 0 (-3) 0) mrs expiredMRs)
                 = Failed err).
Proof.
  revert expiredMRs. induction mrs as [|mr mrs IH]; intros expiredMRs;
    [split; [done|by eexists]|].
  cbn [MRCleanup.collectExpired List.filter].
  assert (∃ b, needs_lookup now mr = b) as [b Hb] by by eexists.
  rewrite Hb. unfold needs_lookup in Hb.
  destruct (Before (UpdatedAt mr) (AddDate now 0 (-3) 0)); cbn [negb andb] in Hb;
    [subst b; apply IH|].
  destruct (String.eqb (getJiraIssueID (Title mr)) "") eqn:Hid; cbn [negb andb] in Hb;
    subst b.
  { rewrite trace_bind, outcome_bind. cbn [Printf emit outcome trace fst snd app].
    apply IH. }
  match goal with
  | |- context [callIssueGet w ?id ≫= ?k] =>
      destruct (call_issue_bind w id k) as [-> ->]
  end.
  cbn [through_first_failure forallb List.map issueLookups flat_map app].
  fold (issueLookups).
  assert (∃ ok, jira_answers w mr = ok) as [ok Hok] by by eexists.
  rewrite Hok. unfold jira_answers, fatal_failure in Hok.
  destruct (jiraIssueGet w (getJiraIssueID (Title mr))) as [[resp|] err|statusName];
    cbn [negb andb] in Hok.
  - destruct (StatusCode resp =? 404); cbn [negb] in Hok; subst ok.
    + rewrite trace_bind, outcome_bind. cbn [Printf emit outcome trace fst snd app andb].
      destruct (IH expiredMRs) as [Htr Hfail]. unfold issueLookups in *.
      cbn [flat_map app]. rewrite Htr. split; [done|exact Hfail].
    + destruct (400 <? StatusCode resp); (split; [done|by eexists]).
  - subst ok. split; [done|by eexists].
  - subst ok. cbn [andb]. destruct (String.eqb statusName "Closed").
    + destruct (IH (expiredMRs ++ [mr])) as [Htr Hfail]. unfold issueLookups in *.
      cbn [flat_map app]. rewrite Htr. split; [done|exact Hfail].
    + destruct (IH expiredMRs) as [Htr Hfail]. unfold issueLookups in *.
      cbn [flat_map app]. rewrite Htr. split; [done|exact Hfail].
Qed.

Lemma closeEach_calls_B (pid : string) (expiredMRs : list MergeRequest) :
  closedIIDs (trace (BranchCleanup.closeEach w pid expiredMRs))
  = List.map IID (through_first_failure (close_accepted bad_status_B w (PidString pid))
                    expiredMRs).
Proof.
  induction expiredMRs as [|mr rest IH]; [done|].
  cbn [BranchCleanup.closeEach through_first_failure List.map].
  match goal with
  | |- context [callUpdateMergeRequest w ?p ?i ?o ≫= ?k] =>
      destruct (call_update_bind w p i o k) as [_ ->]
  end.
  unfold closedIIDs in *. cbn [flat_map app]. f_equal.
  unfold close_accepted, fatal_failure, bad_status_B.
  destruct (gitlabUpdateMergeRequest w _ _ _) as [err|resp]; [done|].
  destruct (400 <=? StatusCode resp); [done|]. exact IH.
Qed.

Lemma closeEach_calls_A (expiredMRs : list MergeRequest) :
  closedIIDs (trace (MRCleanup.closeEach w expiredMRs))
  = List.map IID (through_first_failure
                    (close_accepted bad_status_A w (PidInt MRCleanup.gitLabSupplyProjectID))
                    expiredMRs).
Proof.
  induction expiredMRs as [|mr rest IH]; [done|].
  cbn [MRCleanup.closeEach through_first_failure List.map].
  match goal with
  | |- context [callUpdateMergeRequest w ?p ?i ?o ≫= ?k] =>
      destruct (call_update_bind w p i o k) as [_ ->]
  end.
  unfold closedIIDs in *. cbn [flat_map app]. f_equal.
  unfold close_accepted, fatal_failure, bad_status_A.
  destruct (gitlabUpdateMergeRequest w _ _ _) as [err|resp]; [done|].
  destruct (400 <? StatusCode resp); [done|]. exact IH.
Qed.

Lemma closeExpired_calls_B (now : Time) (mrs : list MergeRequest) (pid : string)
      (isDryRun : bool) :
  issueLookups (trace (BranchCleanup.closeExpiredMergeRequests w now mrs pid isDryRun))
  = List.map (λ mr, getJiraIssueID (Title mr))
             (through_first_failure (jira_answers w) (List.filter (needs_lookup now) mrs))
  ∧ closedIIDs (trace (BranchCleanup.closeExpiredMergeRequests w now mrs pid isDryRun))
    = if isDryRun || negb (forallb (jira_answers w) (List.filter (needs_lookup now) mrs))
      then []
      else List.map IID (through_first_failure
                           (close_accepted bad_status_B w (PidString pid))
                           (List.filter (is_expired w now) mrs)).
Proof.
  unfold BranchCleanup.closeExpiredMergeRequests.
  rewrite trace_bind, issueLookups_app, closedIIDs_app.
  destruct (collectExpired_calls_B now mrs []) as [-> Hout].
  rewrite (closedIIDs_only [KIssueGet; KPrint])
    by (first [apply only_collectExpired_B | simpl; intuition discriminate]).
  destruct (forallb (jira_answers w) (List.filter (needs_lookup now) mrs)).
  - destruct Hout as [L HL]. rewrite HL.
    destruct (collectExpired_outcome w now mrs []) as [HL'|[err HL']];
      rewrite HL' in HL; [|done]. injection HL as <-. cbn [app].
    rewrite !trace_bind. cbn [Printf emit outcome trace fst snd app].
    change (issueLookups (Print ?a :: Print ?b :: ?t)) with (issueLookups t).
    change (closedIIDs (Print ?a :: Print ?b :: ?t)) with (closedIIDs t).
    rewrite orb_false_r.
    destruct isDryRun; [by rewrite app_nil_r|].
    rewrite trace_bind, issueLookups_app, closedIIDs_app, closeEach_calls_B.
    rewrite (issueLookups_only [KUpdate])
      by (first [apply only_closeEach_B | simpl; intuition discriminate]).
    by destruct (outcome (BranchCleanup.closeEach _ _ _)); rewrite !app_nil_r.
  - destruct Hout as [err ->]. cbn [issueLookups closedIIDs flat_map].
    by rewrite !app_nil_r, orb_true_r.
Qed.

Lemma closeExpired_calls_A (now : Time) (mrs : list MergeRequest) (isDryRun : bool) :
  issueLookups (trace (MRCleanup.closeExpiredMergeRequests w now mrs isDryRun))
  = List.map (λ mr, getJiraIssueID (Title mr))
             (through_first_failure (jira_answers w) (List.filter (needs_lookup now) mrs))
  ∧ closedIIDs (trace (MRCleanup.closeExpiredMergeRequests w now mrs isDryRun))
    = if isDryRun || negb (forallb (jira_answers w) (List.filter (needs_lookup now) mrs))
      then []
      else List.map IID (through_first_failure
                           (close_accepted bad_status_A w (PidInt MRCleanup.gitLabSupplyProjectID))
                           (List.filter (is_expired w now) mrs)).
Proof.
  unfold MRCleanup.closeExpiredMergeRequests.
  rewrite trace_bind, issueLookups_app, closedIIDs_app.
  destruct (collectExpired_calls_A now mrs []) as [-> Hout].
  rewrite (closedIIDs_only [KIssueGet; KPrint])
    by (first [apply only_collectExpired_A | simpl; intuition discriminate]).
  destruct (forallb (jira_answers w) (List.filter (needs_lookup now) mrs)).
  - destruct Hout as [L HL]. rewrite HL.
    destruct (collectExpired_outcome_A w now mrs []) as [HL'|[err HL']];
      rewrite HL' in HL; [|done]. injection HL as <-. cbn [app].
    rewrite !trace_bind. cbn [Printf emit outcome trace fst snd app].
    change (issueLookups (Print ?a :: ?t)) with (issueLookups t).
    change (closedIIDs (Print ?a :: ?t)) with (closedIIDs t).
    rewrite orb_false_r.
    destruct isDryRun; [by rewrite app_nil_r|].
    rewrite trace_bind, issueLookups_app, closedIIDs_app, closeEach_calls_A.
    rewrite (issueLookups_only [KUpdate])
      by (first [apply only_closeEach_A | simpl; intuition discriminate]).
    by destruct (outcome (MRCleanup.closeEach _ _)); rewrite !app_nil_r.
  - destruct Hout as [err ->]. cbn [issueLookups closedIIDs flat_map].
    by rewrite !app_nil_r, orb_true_r.
Qed.

End ClosingCalls.

(** X23: [closeExpiredMergeRequests], in both scripts, asks JIRA
    only about the merge requests that are not already expired by age
    and have an issue id in their title, in order, up to and including
    the first lookup that fails; and it calls [UpdateMergeRequest] only
    outside a dry run and only when every such lookup was answered, then
    for the expired merge requests in order, up to and including the
    first update that fails. *)
Theorem closing_stage_calls (w : World) (now : Time) (mrs : list MergeRequest)
        (pid : string) (isDryRun : bool) :
  issueLookups (trace (BranchCleanup.closeExpiredMergeRequests w now mrs pid isDryRun))
  = List.map (λ mr, getJiraIssueID (Title mr))
             (through_first_failure (jira_answers w) (List.filter (needs_lookup now) mrs))
  ∧ closedIIDs (trace (BranchCleanup.closeExpiredMergeRequests w now mrs pid isDryRun))
    = (if isDryRun || negb (forallb (jira_answers w) (List.filter (needs_lookup now) mrs))
       then []
       else List.map IID (through_first_failure
                            (close_accepted bad_status_B w (PidString pid))
                            (List.filter (is_expired w now) mrs)))
  ∧ issueLookups (trace (MRCleanup.closeExpiredMergeRequests w now mrs isDryRun))
    = List.map (λ mr, getJiraIssueID (Title mr))
               (through_first_failure (jira_answers w) (List.filter (needs_lookup now) mrs))
  ∧ closedIIDs (trace (MRCleanup.closeExpiredMergeRequests w now mrs isDryRun))
    = (if isDryRun || negb (forallb (jira_answers w) (List.filter (needs_lookup now) mrs))
       then []
       else List.map IID (through_first_failure
                            (close_accepted bad_status_A w
                               (PidInt MRCleanup.gitLabSupplyProjectID))
                            (List.filter (is_expired w now) mrs))).
Proof.
  destruct (closeExpired_calls_B w now mrs pid isDryRun) as [-> ->].
  destruct (closeExpired_calls_A w now mrs isDryRun) as [-> ->]. done.
Qed.

(** ** Thresholds *)

Lemma daysSinceEpoch_step (year : Z) :
  daysSinceEpoch (year + 1) = daysSinceEpoch year + 365 + (if isLeap year then 1 else 0).
Proof.
  unfold daysSinceEpoch, isLeap. replace (year + 1 - 1) with year by lia.
  destruct (Z.eqb_spec (year mod 4) 0), (Z.eqb_spec (year mod 100) 0),
           (Z.eqb_spec (year mod 400) 0); simpl; Z.div_mod_to_equations; lia.
Qed.

Lemma dateToDays_next_month (year month day : Z) :
  dateToDays year month day + 28 ≤ dateToDays year (month + 1) day.
Proof.
  unfold dateToDays. replace (month + 1 - 1) with (month - 1 + 1) by lia.
  set (m := month - 1).
  assert (0 ≤ m mod 12 < 12) as Hr by (apply Z.mod_pos_bound; lia).
  destruct (Z.eq_dec (m mod 12) 11) as [H11|Hne].
  - assert ((m + 1) / 12 = m / 12 + 1 ∧ (m + 1) mod 12 = 0) as [-> ->]
        by (Z.div_mod_to_equations; lia).
    rewrite H11, Z.add_assoc, daysSinceEpoch_step. unfold daysBefore. simpl.
    rewrite andb_false_r, andb_true_r. destruct (isLeap _); lia.
  - assert ((m + 1) / 12 = m / 12 ∧ (m + 1) mod 12 = m mod 12 + 1) as [-> ->]
        by (Z.div_mod_to_equations; lia).
    set (r := m mod 12) in *. set (y := year + m / 12).
    assert (r = 0 ∨ r = 1 ∨ r = 2 ∨ r = 3 ∨ r = 4 ∨ r = 5 ∨ r = 6 ∨ r = 7 ∨ r = 8
            ∨ r = 9 ∨ r = 10) as Hcases by lia.
    destruct (isLeap y);
      repeat (destruct Hcases as [->|Hcases]; [unfold daysBefore; simpl; lia|]);
      subst r; rewrite Hcases; unfold daysBefore; simpl; lia.
Qed.

Lemma dateToDays_months_le (year month day : Z) (k : nat) :
  dateToDays year month day + 28 * Z.of_nat k ≤ dateToDays year (month + Z.of_nat k) day.
Proof.
  induction k as [|k IH].
  - replace (month + Z.of_nat 0) with month by lia. lia.
  - replace (month + Z.of_nat (S k)) with (month + Z.of_nat k + 1) by lia.
    pose proof (dateToDays_next_month year (month + Z.of_nat k) day). lia.
Qed.

Lemma AddDate_months_lt (t : Time) (months1 months2 : Z) :
  months1 < months2 → AddDate t 0 months1 0 < AddDate t 0 months2 0.
Proof.
  intros Hlt. unfold AddDate.
  destruct (daysToDate (t / nsPerDay)) as [[year month] day].
  pose proof (dateToDays_months_le (year + 0) (month + months1) (day + 0)
                (Z.to_nat (months2 - months1))) as Hle.
  rewrite Z2Nat.id in Hle by lia.
  replace (month + months1 + (months2 - months1)) with (month + months2) in Hle by lia.
  assert (0 < nsPerDay) by (unfold nsPerDay; lia).
  nia.
Qed.

(** X24: [AddDate] is strictly increasing in its number of
    months, so three months before a clock reading is before two months
    before it: a merge request that expires by age is stale as well, and
    for one clock reading every merge request that
    [closeExpiredMergeRequests] returns is in the stale list or has a
    closed issue. *)
Theorem expired_by_age_is_stale (w : World) (now : Time) (mrs : list MergeRequest)
        (mr : MergeRequest) :
  (∀ months1 months2, months1 < months2 →
                      AddDate now 0 months1 0 < AddDate now 0 months2 0)
  ∧ (older_than_months 3 now mr → older_than_months 2 now mr)
  ∧ (∀ pid isDryRun staleMRs expiredMRs,
        outcome (BranchCleanup.filterStaleMergeRequests now mrs) = Returned staleMRs →
        outcome (BranchCleanup.closeExpiredMergeRequests w now mrs pid isDryRun)
        = Returned expiredMRs →
        In mr expiredMRs → In mr staleMRs ∨ linked_issue_closed w mr)
  ∧ (∀ isDryRun staleMRs expiredMRs,
        outcome (MRCleanup.getStaleMergeRequests now mrs) = Returned staleMRs →
        outcome (MRCleanup.closeExpiredMergeRequests w now mrs isDryRun)
        = Returned expiredMRs →
        In mr expiredMRs → In mr staleMRs ∨ linked_issue_closed w mr).
Proof.
  assert (older_than_months 3 now mr → older_than_months 2 now mr) as Hage.
  { unfold older_than_months, Before. rewrite !Z.ltb_lt.
    change (- (3)) with (-3). change (- (2)) with (-2).
    pose proof (AddDate_months_lt now (-3) (-2)). lia. }
  split; [intros; by apply AddDate_months_lt|]. split; [done|]. split.
  - intros pid isDryRun staleMRs expiredMRs Hs He Hin.
    rewrite filterStaleMergeRequests_outcome in Hs. injection Hs as <-.
    apply closeExpired_outcome_B in He as ->.
    apply In_expired in Hin as [Hin [Hold|Hclosed]]; [left|by right].
    apply In_stale. split; [done|]. by apply Hage.
  - intros isDryRun staleMRs expiredMRs Hs He Hin.
    rewrite getStaleMergeRequests_outcome in Hs. injection Hs as <-.
    apply closeExpired_outcome_A in He as ->.
    apply In_expired in Hin as [Hin [Hold|Hclosed]]; [left|by right].
    apply In_stale. split; [done|]. by apply Hage.
Qed.

Lemma expired_by_age_is_stale_witness : older_than_months 2 sampleNow mrOld.
Proof.
  apply (expired_by_age_is_stale sampleMRWorld sampleNow [mrOld] mrOld).
  vm_compute. reflexivity.
Defined.

(** ** Nothing to report *)

Lemma try_exit_Returned {A} (m : M A) (a : A) :
  outcome (try m outputErrorAndExit) = Returned a → outcome m = Returned a.
Proof. rewrite outcome_try. by destruct (outcome m). Qed.

(** X25: in both scripts, when the merge requests fetched hold
    none that is stale and none that is expired, the run makes no call
    to Slack at all: no user lookup, no invitation, no message. *)
Theorem nothing_to_report_no_slack (w : World) :
  (∀ fuel args a mrs,
      outcome (BranchCleanup.parseArgs args) = Returned a →
      outcome (BranchCleanup.getMergeRequests w fuel (BranchCleanup.gitLabProjectID a))
      = Returned mrs →
      List.filter (is_stale (timeNow w 1)) mrs = [] →
      List.filter (is_expired w (timeNow w 2)) mrs = [] →
      only quiet_kinds (BranchCleanup.main w fuel args))
  ∧ (∀ args mrs,
        outcome (MRCleanup.getMergeRequests w) = Returned mrs →
        List.filter (is_stale (timeNow w 0)) mrs = [] →
        List.filter (is_expired w (timeNow w 1)) mrs = [] →
        only quiet_kinds (MRCleanup.main w args)).
Proof.
  split.
  - intros fuel args a mrs Hparse Hget Hstale Hexpired. unfold BranchCleanup.main.
    apply only_bind; [main_tac|]. intros a' Ha'%try_exit_Returned.
    assert (a' = a) as -> by congruence.
    destruct (BranchCleanup.isDryRun a).
    all: apply only_bind; [main_tac|]; intros branches _.
    all: apply only_bind; [main_tac|]; intros staleBranches _.
    all: apply only_bind; [main_tac|]; intros ? _.
    all: apply only_bind; [main_tac|]; intros mrs' Hmrs'%try_exit_Returned.
    all: assert (mrs' = mrs) as -> by congruence.
    all: apply only_bind; [main_tac|]; intros staleMRs HstaleMRs.
    all: rewrite filterStaleMergeRequests_outcome, Hstale in HstaleMRs.
    all: injection HstaleMRs as <-.
    all: apply only_bind; [main_tac|]; intros expiredMRs Hexp%try_exit_Returned.
    all: apply closeExpired_outcome_B in Hexp; rewrite Hexpired in Hexp; subst expiredMRs.
    all: simpl; apply only_Printf; simpl; tauto.
  - intros args mrs Hget Hstale Hexpired. unfold MRCleanup.main.
    apply only_bind; [main_tac|]. intros a _.
    destruct (MRCleanup.isDryRun a).
    all: apply only_bind; [main_tac|]; intros mrs' Hmrs'%try_exit_Returned.
    all: assert (mrs' = mrs) as -> by congruence.
    all: apply only_bind; [main_tac|]; intros staleMRs HstaleMRs.
    all: rewrite getStaleMergeRequests_outcome, Hstale in HstaleMRs.
    all: injection HstaleMRs as <-.
    all: apply only_bind; [main_tac|]; intros expiredMRs Hexp%try_exit_Returned.
    all: apply closeExpired_outcome_A in Hexp; rewrite Hexpired in Hexp; subst expiredMRs.
    all: simpl; apply only_Printf; simpl; tauto.
Qed.

Lemma nothing_to_report_no_slack_witness :
  only quiet_kinds (BranchCleanup.main freshWorld 5%nat ["cleanup"; "g"; "42"; "s"; "C1"; "j"])
  ∧ only quiet_kinds (MRCleanup.main freshWorld ["cleanup"; "g"; "s"; "j"]).
Proof.
  split.
  - apply (proj1 (nothing_to_report_no_slack freshWorld) 5%nat
             ["cleanup"; "g"; "42"; "s"; "C1"; "j"]
             {| BranchCleanup.gitLabToken := "g"; BranchCleanup.gitLabProjectID := "42";
                BranchCleanup.slackToken := "s"; BranchCleanup.slackChannelID := "C1";
                BranchCleanup.jiraToken := "j"; BranchCleanup.isDryRun := false |}
             [mrFresh]); vm_compute; reflexivity.
  - apply (proj2 (nothing_to_report_no_slack freshWorld) ["cleanup"; "g"; "s"; "j"]
             [mrFresh]); vm_compute; reflexivity.
Defined.

(** ** Slack user lookups *)

Lemma lookedUp_app (tr1 tr2 : list Event) :
  lookedUp (tr1 ++ tr2) = lookedUp tr1 ++ lookedUp tr2.
Proof. apply flat_map_app. Qed.

Lemma call_lookup_bind {B} (w : World) (email : string) (k : string + string → M B) :
  outcome (callGetUserByEmail w email ≫= k) = outcome (k (slackGetUserByEmail w email))
  ∧ trace (callGetUserByEmail w email ≫= k)
    = GetUserByEmail email :: trace (k (slackGetUserByEmail w email)).
Proof.
  unfold callGetUserByEmail, mbind, M_bind, emit, mret, M_ret, outcome, trace. simpl.
  by destruct (k _).
Qed.

Lemma lookupSlackUsers_spec (w : World) (mrs : list MergeRequest) (m : gmap string string) :
  ∃ m', outcome (lookupSlackUsers w mrs m) = Returned m'
        ∧ (∀ username, m' !! username = resolved w mrs m username)
        ∧ lookedUp (trace (lookupSlackUsers w mrs m))
          = List.map (λ mr, emailOf (AuthorUsername mr)) mrs.
Proof.
  revert m. induction mrs as [|mr mrs IH]; intros m.
  - exists m. split; [done|]. split; [|done]. intros u. unfold resolved.
    destruct (slackGetUserByEmail w (emailOf u)); [done|].
    by rewrite bool_decide_false by apply not_elem_of_nil.
  - cbn [lookupSlackUsers]. fold (emailOf (AuthorUsername mr)).
    destruct (call_lookup_bind w (emailOf (AuthorUsername mr))
                (λ r, match r with
                      | inl err =>
                          Printf (Sprintf ["slack - error looking up user id associated to email ";
                                           emailOf (AuthorUsername mr); ": "; err; nl]);;
                          Printf (Sprintf ["continuing..."; nl]);;
                          lookupSlackUsers w mrs m
                      | inr slackUserID =>
                          lookupSlackUsers w mrs (<[AuthorUsername mr := slackUserID]> m)
                      end)) as [-> ->].
    destruct (slackGetUserByEmail w (emailOf (AuthorUsername mr))) as [err|id] eqn:Hmr.
    + destruct (IH m) as (m' & Hout & Hm' & Htr). exists m'.
      rewrite !outcome_bind, !trace_bind. cbn [Printf emit outcome trace fst snd app].
      split; [done|]. split.
      * intros u. rewrite Hm'. unfold resolved.
        destruct (slackGetUserByEmail w (emailOf u)) as [err'|id'] eqn:Hu; [done|].
        cbn [List.map]. destruct (decide (u = AuthorUsername mr)) as [->|Hne]; [congruence|].
        destruct (decide (u ∈ List.map AuthorUsername mrs)) as [Hin|Hnin].
        -- rewrite !bool_decide_true; [done| |done]. by right.
        -- rewrite !bool_decide_false; [done| |done].
           by intros [?|?]%elem_of_cons.
      * unfold lookedUp in *. cbn [flat_map app]. by rewrite Htr.
    + destruct (IH (<[AuthorUsername mr := id]> m)) as (m' & Hout & Hm' & Htr). exists m'.
      split; [done|]. split.
      * intros u. rewrite Hm'. unfold resolved.
        destruct (decide (u = AuthorUsername mr)) as [->|Hne].
        -- rewrite Hmr, lookup_insert_eq. cbn [List.map].
           rewrite (bool_decide_true (_ ∈ _ :: _)) by left.
           by destruct (bool_decide _).
        -- rewrite lookup_insert_ne by done.
           destruct (slackGetUserByEmail w (emailOf u)) as [err'|id'] eqn:Hu; [done|].
           cbn [List.map].
           destruct (decide (u ∈ List.map AuthorUsername mrs)) as [Hin|Hnin].
           ++ rewrite !bool_decide_true; [done| |done]. by right.
           ++ rewrite !bool_decide_false; [done| |done].
              by intros [?|?]%elem_of_cons.
      * unfold lookedUp in *. cbn [flat_map app]. by rewrite Htr.
Qed.

(** X26: [getSlackUserIDsFromGitLabUserIDs] always returns; it
    looks up one address per stale merge request and then one per
    expired merge request, in order, repeated authors included; the map
    it returns holds a user name exactly when that user is the author of
    one of them and the lookup of their address succeeded, with the id
    found; and the message stage ([getSlackUserID]) mentions every
    author by that id, or as Unknown when the lookup failed. *)
Theorem slack_lookup_per_merge_request (w : World) (staleMRs expiredMRs : list MergeRequest) :
  ∃ m, outcome (getSlackUserIDsFromGitLabUserIDs w staleMRs expiredMRs) = Returned m
       ∧ lookedUp (trace (getSlackUserIDsFromGitLabUserIDs w staleMRs expiredMRs))
         = List.map (λ mr, emailOf (AuthorUsername mr)) (staleMRs ++ expiredMRs)
       ∧ (∀ username slackUserID,
             m !! username = Some slackUserID
             ↔ (∃ mr, In mr (staleMRs ++ expiredMRs) ∧ AuthorUsername mr = username)
               ∧ slackGetUserByEmail w (emailOf username) = inr slackUserID)
       ∧ (∀ mr, In mr (staleMRs ++ expiredMRs) →
                getSlackUserID m mr
                = match slackGetUserByEmail w (emailOf (AuthorUsername mr)) with
                  | inr slackUserID => slackUserID
                  | inl _ => "Unknown"
                  end).
Proof.
  unfold getSlackUserIDsFromGitLabUserIDs.
  destruct (lookupSlackUsers_spec w staleMRs ∅) as (m1 & Hout1 & Hm1 & Htr1).
  destruct (lookupSlackUsers_spec w expiredMRs m1) as (m2 & Hout2 & Hm2 & Htr2).
  assert (∀ u, m2 !! u
               = match slackGetUserByEmail w (emailOf u) with
                 | inr id =>
                     if bool_decide (u ∈ List.map AuthorUsername (staleMRs ++ expiredMRs))
                     then Some id else None
                 | inl _ => None
                 end) as Hm.
  { intros u. rewrite Hm2. unfold resolved. rewrite Hm1. unfold resolved.
    rewrite lookup_empty, map_app.
    destruct (slackGetUserByEmail w (emailOf u)); [done|].
    destruct (decide (u ∈ List.map AuthorUsername expiredMRs)) as [Hin|Hnin].
    - rewrite (bool_decide_true (u ∈ List.map AuthorUsername expiredMRs)) by done.
      rewrite bool_decide_true; [done|]. apply elem_of_app. by right.
    - rewrite (bool_decide_false (u ∈ List.map AuthorUsername expiredMRs)) by done.
      destruct (decide (u ∈ List.map AuthorUsername staleMRs)) as [Hin'|Hnin'].
      + rewrite !bool_decide_true; [done| |done]. apply elem_of_app. by left.
      + rewrite !bool_decide_false; [done| |done].
        by intros [?|?]%elem_of_app. }
  exists m2. rewrite !outcome_bind, !trace_bind, Hout1, outcome_bind, trace_bind, Hout2.
  cbn [mret M_ret outcome trace fst snd]. rewrite app_nil_r, lookedUp_app, Htr1, Htr2.
  split; [done|]. split; [by rewrite map_app|]. split.
  - intros u id. rewrite Hm. split.
    + destruct (slackGetUserByEmail w (emailOf u)) as [err|id']; [done|].
      case_bool_decide as Hin; [|done]. intros [= ->]. split; [|done].
      apply list_elem_of_In, in_map_iff in Hin as (mr & <- & Hin). by exists mr.
    + intros [(mr & Hin & <-) ->]. rewrite bool_decide_true; [done|].
      apply list_elem_of_In, in_map. exact Hin.
  - intros mr Hin. unfold getSlackUserID. rewrite Hm.
    destruct (slackGetUserByEmail w (emailOf (AuthorUsername mr))); [done|].
    rewrite bool_decide_true; [done|]. apply list_elem_of_In, in_map. exact Hin.
Qed.

(** ** The config-sort linter: table headers *)

Lemma tableRegexp_not_later (s : list ascii) (pos : nat) :
  Regexp.findFrom ConfigSort.tableRegexp s (S pos) = None.
Proof. revert pos. induction s as [|c s IH]; intros pos; simpl; [done|apply IH]. Qed.

Lemma table_tail_inv (rest : list ascii) (pos : nat) r :
  Regexp.matchHere [Regexp.Class (Regexp.lit "]"); Regexp.Eol] rest pos [] [] = Some r →
  rest = ["]"%char].
Proof.
  simpl. destruct rest as [|c rest]; [done|]. unfold Regexp.lit.
  destruct (Ascii.eqb_spec c "]"); [|done]. subst c. by destruct rest.
Qed.

Lemma table_matchHere (s : list ascii) :
  (∃ r, Regexp.matchHere ConfigSort.tableRegexp s 0 [] [] = Some r)
  ↔ ∃ name, s = "["%char :: name ++ ["]"%char]
            ∧ Forall (λ c, Regexp.dot c = true) name.
Proof.
  unfold ConfigSort.tableRegexp. cbn [Regexp.matchHere Nat.eqb]. split.
  - intros [r Hr]. destruct s as [|c s]; [done|]. unfold Regexp.lit in Hr at 1.
    destruct (Ascii.eqb_spec c "["); [|done]. subst c.
    apply star_then_Some_inv in Hr as (name & rest & -> & Hname & Hr).
    apply table_tail_inv in Hr as ->. by exists name.
  - intros (name & -> & Hname). unfold Regexp.lit at 1. rewrite Ascii.eqb_refl.
    eexists. apply star_then_prefix; [done|]. reflexivity.
Qed.

Lemma MatchString_table (line : string) :
  Regexp.MatchString ConfigSort.tableRegexp line = true
  ↔ ∃ name, list_ascii_of_string line = "["%char :: name ++ ["]"%char]
            ∧ Forall (λ c, Regexp.dot c = true) name.
Proof.
  rewrite <- table_matchHere. unfold Regexp.MatchString.
  destruct (list_ascii_of_string line) as [|c s]; cbn [Regexp.findFrom].
  - destruct (Regexp.matchHere _ _ _ _ _) as [r|]; [by split; [eexists|]|].
    split; [done|by intros [? ?]].
  - destruct (Regexp.matchHere _ _ _ _ _) as [r|]; [by split; [eexists|]|].
    rewrite tableRegexp_not_later. split; [done|by intros [? ?]].
Qed.

Lemma substring_front (a b : list ascii) :
  String.substring 0 (length a) (string_of_list_ascii (a ++ b)) = string_of_list_ascii a.
Proof. induction a as [|c a IH]; simpl; [by destruct (string_of_list_ascii b)|by rewrite IH]. Qed.

Lemma inner_brackets (line : string) (name : list ascii) :
  list_ascii_of_string line = "["%char :: name ++ ["]"%char] →
  ConfigSort.inner line = string_of_list_ascii name.
Proof.
  intros Hline. rewrite <- (string_of_list_ascii_of_string line), Hline.
  unfold ConfigSort.inner. cbn [string_of_list_ascii String.length String.substring].
  replace (S (String.length (string_of_list_ascii (name ++ ["]"%char]))) - 2)%nat
    with (length name).
  - apply substring_front.
  - rewrite <- (list_ascii_of_string_of_list_ascii (name ++ ["]"%char])) at 1.
    assert (∀ s, String.length s = length (list_ascii_of_string s)) as Hlen
        by (induction s; simpl; congruence).
    rewrite Hlen, !list_ascii_of_string_of_list_ascii, length_app. simpl. lia.
Qed.

(** X27: the linter takes a line for a table header exactly when
    it starts with an opening bracket, ends with a closing bracket and
    has no newline in between (the empty name included, anything after
    the closing bracket excluded), and the table name it compares is the
    text between the two brackets. *)
Theorem table_header_lines (line : string) :
  (Regexp.MatchString ConfigSort.tableRegexp line = true
   ↔ ∃ name, list_ascii_of_string line = "["%char :: name ++ ["]"%char]
             ∧ Forall (λ c, c ≠ "010"%char) name)
  ∧ (∀ name, list_ascii_of_string line = "["%char :: name ++ ["]"%char] →
             ConfigSort.inner line = string_of_list_ascii name).
Proof.
  split; [|apply inner_brackets]. rewrite MatchString_table.
  assert (∀ name, Forall (λ c, Regexp.dot c = true) name
                  ↔ Forall (λ c, c ≠ "010"%char) name) as Hdot.
  { intros name. apply Forall_iff. intros c. unfold Regexp.dot.
    destruct (Ascii.eqb_spec c "010"); simpl; split; congruence. }
  split; intros (name & Hline & Hname); exists name; (split; [done|by apply Hdot]).
Qed.

Lemma table_header_lines_witness :
  Regexp.MatchString ConfigSort.tableRegexp "[db.main]" = true
  ∧ ConfigSort.inner "[db.main]" = "db.main".
Proof.
  split.
  - apply (proj1 (table_header_lines "[db.main]")).
    exists (list_ascii_of_string "db.main"). split; [reflexivity|].
    exact (bool_decide_unpack
             (Forall (λ c, c ≠ "010"%char) (list_ascii_of_string "db.main")) I).
  - apply (proj2 (table_header_lines "[db.main]") (list_ascii_of_string "db.main")).
    reflexivity.
Defined.

(** ** The config-sort linter: which files it accepts *)

Lemma ltb_empty (s : string) : String.ltb s "" = false.
Proof. by destruct s. Qed.

Lemma in_order_cons (a : string) (names : list string) :
  in_order (a :: names) = true
  ↔ match names with
    | [] => True
    | b :: _ => String.ltb b a = false ∧ in_order names = true
    end.
Proof.
  destruct names as [|b names]; [done|]. cbn [in_order].
  rewrite andb_true_iff, negb_true_iff. done.
Qed.

Lemma in_order_from_empty (names : list string) :
  in_order ("" :: names) = in_order names.
Proof. destruct names as [|b names]; [done|]. cbn [in_order]. by rewrite ltb_empty. Qed.

Lemma sections_nonempty (kinds : list LineKind) : ∃ s ss, sections kinds = s :: ss.
Proof.
  induction kinds as [|k kinds (s & ss & IH)]; [by eexists _, _|].
  destruct k; cbn [sections]; rewrite ?IH; by eexists _, _.
Qed.

Lemma scan_Sorted (lines : list string) (previousTable previousKey : string) :
  ConfigSort.scan lines previousTable previousKey = ConfigSort.Sorted
  ↔ (Blank ∉ List.map classify lines)
    ∧ in_order (previousTable :: tableNames (List.map classify lines)) = true
    ∧ ∃ s ss, sections (List.map classify lines) = s :: ss
              ∧ in_order (previousKey :: s) = true
              ∧ Forall (λ s, in_order s = true) ss.
Proof.
  revert previousTable previousKey.
  induction lines as [|line lines IH]; intros previousTable previousKey.
  - cbn. split; [|done]. intros _. split; [apply not_elem_of_nil|].
    split; [done|]. by exists [], [].
  - cbn [ConfigSort.scan List.map].
    assert (∃ k, classify line = k) as [k Hk] by by eexists.
    rewrite Hk. unfold classify in Hk.
    destruct (String.eqb line "").
    { subst k. rewrite IH. cbn [tableNames flat_map app sections]. rewrite not_elem_of_cons.
      split; [intros (? & ? & ?); by repeat split|intros ([_ ?] & ? & ?); by repeat split]. }
    destruct (ConfigSort.TrimSpace line) as [|c0 trimmed].
    { subst k. split; [done|]. intros [Hb _]. destruct Hb. by left. }
    destruct (Ascii.eqb c0 "#").
    { subst k. rewrite IH. cbn [tableNames flat_map app sections]. rewrite not_elem_of_cons.
      split; [intros (? & ? & ?); by repeat split|intros ([_ ?] & ? & ?); by repeat split]. }
    destruct (Regexp.MatchString ConfigSort.tableRegexp line).
    + subst k. cbn [tableNames flat_map app sections].
      fold (tableNames (List.map classify lines)). rewrite not_elem_of_cons.
      rewrite (in_order_cons previousTable (_ :: _)).
      destruct (String.ltb (ConfigSort.inner line) previousTable) eqn:Hlt.
      * split; [done|]. by intros (_ & [? _] & _).
      * rewrite IH. split.
        -- intros (Hb & Ht & s & ss & Hs & Hk & Hss). split; [done|]. split; [done|].
           exists [], (s :: ss). split; [by rewrite Hs|]. split; [done|].
           constructor; [|done]. by rewrite in_order_from_empty in Hk.
        -- intros ([_ Hb] & [_ Ht] & s & ss & [= <- <-] & _ & Hss). split; [done|].
           split; [done|]. destruct (sections_nonempty (List.map classify lines))
             as (s' & ss' & Hs'). rewrite Hs' in Hss. apply Forall_cons in Hss as [Hs Hss].
           exists s', ss'. split; [done|]. split; [|done]. by rewrite in_order_from_empty.
    + subst k. cbn [tableNames flat_map app sections]. rewrite not_elem_of_cons.
      fold (tableNames (List.map classify lines)).
      set (currKey := ConfigSort.TrimSpace (ConfigSort.beforeEquals line)).
      destruct (sections_nonempty (List.map classify lines)) as (s & ss & Hs).
      rewrite Hs.
      destruct (String.ltb currKey previousKey) eqn:Hlt.
      * split; [done|]. intros (_ & _ & s' & ss' & [= <- <-] & Hk & _).
        apply in_order_cons in Hk as [? _]. congruence.
      * rewrite IH, Hs. split.
        -- intros (Hb & Ht & s' & ss' & [= <- <-] & Hk & Hss). split; [done|].
           split; [done|]. exists (currKey :: s), ss. split; [done|]. split; [|done].
           by apply in_order_cons.
        -- intros ([_ Hb] & Ht & s' & ss' & [= <- <-] & Hk & Hss). split; [done|].
           split; [done|]. exists s, ss. split; [done|]. split; [|done].
           by apply in_order_cons in Hk as [_ ?].
Qed.

(** X28: the linter reports a file as sorted exactly when no
    line is white space only, the table names are in non-decreasing
    order in the order of the file, and in each section (before the
    first header, and under each header) the keys are in non-decreasing
    order; empty lines and comment lines do not count, and equal
    neighbours are accepted. *)
Theorem linter_accepts (contents : string) :
  ConfigSort.main contents = ConfigSort.Sorted
  ↔ (Blank ∉ List.map classify (ConfigSort.ScanLines contents))
    ∧ in_order (tableNames (List.map classify (ConfigSort.ScanLines contents))) = true
    ∧ Forall (λ s, in_order s = true)
             (sections (List.map classify (ConfigSort.ScanLines contents))).
Proof.
  unfold ConfigSort.main. rewrite scan_Sorted, in_order_from_empty.
  destruct (sections_nonempty (List.map classify (ConfigSort.ScanLines contents)))
    as (s & ss & Hs). rewrite Hs. split.
  - intros (Hb & Ht & s' & ss' & [= <- <-] & Hk & Hss). split; [done|]. split; [done|].
    constructor; [|done]. by rewrite in_order_from_empty in Hk.
  - intros (Hb & Ht & [Hk Hss]%Forall_cons). split; [done|]. split; [done|].
    exists s, ss. split; [done|]. split; [|done]. by rewrite in_order_from_empty.
Qed.

(** ** The config-sort linter: line endings *)

Lemma dropCR_snoc (line : list ascii) :
  ConfigSort.dropCR (line ++ ["013"%char]) = line.
Proof. unfold ConfigSort.dropCR. rewrite rev_app_distr. simpl. apply rev_involutive. Qed.

Lemma dropCR_id (line : list ascii) :
  Forall (λ c, c ≠ "013"%char) line → ConfigSort.dropCR line = line.
Proof.
  intros Hline. unfold ConfigSort.dropCR. destruct (rev line) as [|c r] eqn:Hrev; [done|].
  destruct (Ascii.eqb_spec c "013") as [->|_]; [|done].
  assert (In "013"%char line) as Hin by (apply in_rev; rewrite Hrev; by left).
  rewrite Forall_forall in Hline. by destruct (Hline _ (proj2 (list_elem_of_In _ _) Hin)).
Qed.

Lemma splitLines_CRLF (s acc : list ascii) :
  Forall (λ c, c ≠ "013"%char) s → Forall (λ c, c ≠ "013"%char) acc →
  List.map ConfigSort.dropCR (ConfigSort.splitLines (toCRLF s) acc)
  = ConfigSort.splitLines s acc.
Proof.
  intros Hs. revert acc. induction Hs as [|c s Hc Hs IH]; intros acc Hacc.
  - simpl. destruct acc as [|a acc]; [done|]. simpl. f_equal.
    apply dropCR_id. apply Forall_forall. intros x Hx. rewrite Forall_forall in Hacc.
    apply Hacc. apply list_elem_of_In. apply list_elem_of_In, (in_rev (a :: acc)) in Hx.
    exact Hx.
  - cbn [toCRLF]. destruct (Ascii.eqb_spec c "010") as [->|Hnl].
    + cbn [ConfigSort.splitLines]. change (Ascii.eqb "013" "010") with false. cbv iota.
      cbn [ConfigSort.splitLines]. rewrite Ascii.eqb_refl. cbn [List.map rev].
      rewrite dropCR_snoc. f_equal. by apply IH.
    + cbn [ConfigSort.splitLines]. apply Ascii.eqb_neq in Hnl. rewrite Hnl.
      apply IH. by constructor.
Qed.

Lemma splitLines_no_CR (s acc : list ascii) :
  Forall (λ c, c ≠ "013"%char) s → Forall (λ c, c ≠ "013"%char) acc →
  Forall (Forall (λ c, c ≠ "013"%char)) (ConfigSort.splitLines s acc).
Proof.
  intros Hs. revert acc. induction Hs as [|c s Hc Hs IH]; intros acc Hacc.
  - simpl. destruct acc as [|a acc]; [constructor|]. repeat constructor.
    change (rev acc ++ [a]) with (rev (a :: acc)). by apply Forall_rev.
  - cbn [ConfigSort.splitLines]. destruct (Ascii.eqb c "010").
    + constructor; [by apply Forall_rev|]. apply IH. constructor.
    + apply IH. by constructor.
Qed.

(** X29: on a file without carriage returns, the scanner yields
    the same lines, and the linter gives the same result, when every
    line ending is turned into carriage return plus newline. *)
Theorem crlf_line_endings (contents : string) :
  Forall (λ c, c ≠ "013"%char) (list_ascii_of_string contents) →
  ConfigSort.ScanLines (string_of_list_ascii (toCRLF (list_ascii_of_string contents)))
  = ConfigSort.ScanLines contents
  ∧ ConfigSort.main (string_of_list_ascii (toCRLF (list_ascii_of_string contents)))
    = ConfigSort.main contents.
Proof.
  intros Hcr.
  assert (ConfigSort.ScanLines
            (string_of_list_ascii (toCRLF (list_ascii_of_string contents)))
          = ConfigSort.ScanLines contents) as Hlines.
  { unfold ConfigSort.ScanLines. rewrite list_ascii_of_string_of_list_ascii.
    rewrite <- (map_map ConfigSort.dropCR string_of_list_ascii).
    rewrite (splitLines_CRLF _ [] Hcr) by constructor.
    apply map_ext_in. intros line Hline. f_equal. symmetry. apply dropCR_id.
    pose proof (splitLines_no_CR _ [] Hcr (List.Forall_nil _)) as Hall.
    rewrite Forall_forall in Hall. apply Hall. by apply list_elem_of_In. }
  split; [done|]. unfold ConfigSort.main. by rewrite Hlines.
Qed.

Lemma crlf_line_endings_witness :
  ConfigSort.ScanLines
    (string_of_list_ascii (toCRLF (list_ascii_of_string (Sprintf ["[a]"; nl; "k=1"; nl]))))
  = ["[a]"; "k=1"]
  ∧ ConfigSort.main
      (string_of_list_ascii (toCRLF (list_ascii_of_string (Sprintf ["[a]"; nl; "k=1"; nl]))))
    = ConfigSort.Sorted.
Proof.
  apply (crlf_line_endings (Sprintf ["[a]"; nl; "k=1"; nl])).
  exact (bool_decide_unpack
           (Forall (λ c, c ≠ "013"%char)
                   (list_ascii_of_string (Sprintf ["[a]"; nl; "k=1"; nl]))) I).
Defined.
